(** * Samanvay: the threat-aware route planner of [create_convoy]

    A shallow embedding of the planning part of [create_convoy]
    (src/backend/main.py, lines 234-315): the sampling loops that collect the
    threats on the direct route, the choice of the one closest to the midpoint,
    the perpendicular detour waypoint with its safety re-check, and the final
    list of route points.  The specification calls the whole [plan] and its
    parts Route Sampler, Detour Synthesizer and Route Builder.

    The loops are written over an interface [Arith] of the arithmetic they
    use, which keeps their structure apart from the floats; the interface is
    read at the instance [binary64]: Python's [float], IEEE 754 binary64, on
    the kernel's primitive floats.  Every statement about [plan64] is about
    this instance.

    Python raises where IEEE arithmetic returns a special value: [a / b]
    raises [ZeroDivisionError] when [b == 0]; [math.sqrt(x)] raises
    [ValueError] when [x < 0]; and [x ** 2] raises [OverflowError] when [x] is
    finite and its square is beyond the binary64 range ([1e200 ** 2] raises,
    where [1e200 * 1e200] is [inf]), while an underflow is silent
    ([1e-200 ** 2] is [0.0]).  The exceptions are kept, in the error monad
    [result]; [create_convoy] catches none of them.

    [x ** 2] is not [x * x]: CPython answers a NaN, an infinity, a zero and
    1 itself and hands every other [x] to the C library's [pow], whose result
    need not be the correctly rounded square (glibc's differs from [x * x] in
    the last bit for about one [x] in a thousand).  The library is a
    parameter, [Libm]; the theorems hold for every library whose [pow] never
    answers a negative number, and the examples are computed with the library
    [rounded_square], whose [pow(x, 2.0)] is [x * x].

    The [print] calls are left out, except the two lines printed for every
    margin test ("Point i ... vs Threat j"): the sampler carries a log with
    one entry [(i, j)] for each test it makes.

    The planner is followed by the rest of [create_convoy] and by the other
    handlers of the file, over a model of the SQLite database they share;
    see "The service around the planner". *)

From Stdlib Require Import ZArith List Bool Lia.
From Stdlib Require Import Floats Uint63.
From Stdlib Require Import Permutation Sorted.
From Stdlib Require String.
Import ListNotations String.StringSyntax.
Set Warnings "-inexact-float".

(** ** Exceptions *)

Inductive exn : Set := ZeroDivisionError | ValueError | OverflowError.

Inductive result (A : Type) : Type :=
| Ok (a : A)
| Raise (e : exn).
Arguments Ok {A} a.
Arguments Raise {A} e.

Definition bind {A B : Type} (r : result A) (k : A -> result B) : result B :=
  match r with
  | Ok a => k a
  | Raise e => Raise e
  end.

Declare Scope py_scope.
Delimit Scope py_scope with py.
Notation "x <- r ;; k" := (bind r (fun x => k))
  (at level 61, r at next level, right associativity) : py_scope.
Open Scope py_scope.

(** ** The arithmetic the planner uses *)

Class Arith (F : Type) : Type := {
  fromZ : Z -> F;          (* an int operand, or a float literal with an integral value *)
  lit_1_1 : F;             (* the literal 1.1 *)
  fadd : F -> F -> F;
  fsub : F -> F -> F;
  fmul : F -> F -> F;
  fdiv : F -> F -> F;
  fsq : F -> F;            (* the float that [x ** 2] computes *)
  fneg : F -> F;
  fsqrt : F -> F;
  feqb : F -> F -> bool;   (* == *)
  fltb : F -> F -> bool;   (* <  *)
  fleb : F -> F -> bool;   (* <= *)
  finf : F -> bool         (* math.isinf *)
}.

Section Planner.

Context {F : Type} {AF : Arith F}.

(** [a / b] on floats. *)
Definition py_truediv (a b : F) : result F :=
  if feqb b (fromZ 0) then Raise ZeroDivisionError else Ok (fdiv a b).

(** [math.sqrt(x)]. *)
Definition py_sqrt (x : F) : result F :=
  if fltb x (fromZ 0) then Raise ValueError else Ok (fsqrt x).

(** [x ** 2]: an infinite result for a finite [x] is reported as a range
    error. *)
Definition py_sq (x : F) : result F :=
  let y := fsq x in
  if finf y && negb (finf x) then Raise OverflowError else Ok y.

(** A point is the tuple [(lat, lng)]; a threat is the dict
    [{'lat': .., 'lng': .., 'radius': ..}]. *)
Definition point : Type := (F * F)%type.

Record threat : Type := mk_threat { lat : F; lng : F; radius : F }.

(** [==] on two threat dicts. *)
Definition threat_eqb (t u : threat) : bool :=
  feqb (lat t) (lat u) && feqb (lng t) (lng u) && feqb (radius t) (radius u).

(** [threat in threats_on_route].  (Python tries identity before [==]; the
    test is only made on a threat that has just passed the margin test, so
    none of its fields is a NaN and identity implies [==].) *)
Definition threat_in (t : threat) (l : list threat) : bool :=
  existsb (fun u => threat_eqb u t) l.

(** [math.sqrt((a_lat - b_lat)**2 + (a_lng - b_lng)**2)], lines 248, 272, 301. *)
Definition euclid (a_lat a_lng b_lat b_lng : F) : result F :=
  dlat2 <- py_sq (fsub a_lat b_lat) ;;
  dlng2 <- py_sq (fsub a_lng b_lng) ;;
  py_sqrt (fadd dlat2 dlng2).

(** [threat['radius'] / 111320.0], lines 247 and 300. *)
Definition radius_in_degrees (t : threat) : result F :=
  py_truediv (radius t) (fromZ 111320).

(** The test of line 253 at one check point. *)
Definition margin_hit (check_lat check_lng : F) (t : threat) : result bool :=
  rd <- radius_in_degrees t ;;
  distance <- euclid check_lat check_lng (lat t) (lng t) ;;
  Ok (fleb distance (fmul rd lit_1_1)).

(** The check point of lines 241-243. *)
Definition check_point (start_point end_point : point) (i : Z) : result point :=
  fraction <- py_truediv (fromZ i) (fromZ 101) ;;
  Ok (fadd (fst start_point) (fmul fraction (fsub (fst end_point) (fst start_point))),
      fadd (snd start_point) (fmul fraction (fsub (snd end_point) (snd start_point)))).

(** The state of the sampling loops: [threats_on_route], and the log of the
    tests made, one entry [(i, j+1)] for each "Point i vs Threat j+1". *)
Definition sampler_state : Type := (list threat * list (Z * nat))%type.

(** The inner loop, lines 245-257, from threat number [j] on. *)
Fixpoint scan_threats (i : Z) (check_lat check_lng : F) (j : nat)
    (all_threats : list threat) (st : sampler_state) : result sampler_state :=
  match all_threats with
  | [] => Ok st
  | threat :: rest =>
      rd <- radius_in_degrees threat ;;
      distance <- euclid check_lat check_lng (lat threat) (lng threat) ;;
      let log := snd st ++ [(i, S j)] in
      if fleb distance (fmul rd lit_1_1) then
        if threat_in threat (fst st) then Ok (fst st, log)
        else Ok (fst st ++ [threat], log)               (* append, then break *)
      else scan_threats i check_lat check_lng (S j) rest (fst st, log)
  end.

(** The outer loop, lines 240-257, over the values [i] of [range]. *)
Fixpoint sample_route (start_point end_point : point) (all_threats : list threat)
    (range : list Z) (st : sampler_state) : result sampler_state :=
  match range with
  | [] => Ok st
  | i :: rest =>
      p <- check_point start_point end_point i ;;
      st' <- scan_threats i (fst p) (snd p) 0 all_threats st ;;
      sample_route start_point end_point all_threats rest st'
  end.

(** [range(1, 101)]. *)
Definition range_1_101 : list Z := map Z.of_nat (seq 1 100).

Definition route_sampler (start_point end_point : point) (all_threats : list threat)
    : result sampler_state :=
  sample_route start_point end_point all_threats range_1_101 ([], []).

(** [min(l, key=key)]: the first item is kept until an item with a strictly
    smaller key is met. *)
Fixpoint min_from (key : threat -> result F) (best : threat) (kbest : F)
    (l : list threat) : result threat :=
  match l with
  | [] => Ok best
  | t :: rest =>
      k <- key t ;;
      if fltb k kbest then min_from key t k rest else min_from key best kbest rest
  end.

Definition py_min (key : threat -> result F) (l : list threat) : result threat :=
  match l with
  | [] => Raise ValueError
  | t :: rest => k <- key t ;; min_from key t k rest
  end.

(** Lines 268-269. *)
Definition midpoint (start_point end_point : point) : result point :=
  mid_lat <- py_truediv (fadd (fst start_point) (fst end_point)) (fromZ 2) ;;
  mid_lng <- py_truediv (fadd (snd start_point) (snd end_point)) (fromZ 2) ;;
  Ok (mid_lat, mid_lng).

(** The key of line 272. *)
Definition mid_distance (mid : point) (t : threat) : result F :=
  euclid (fst mid) (snd mid) (lat t) (lng t).

(** Lines 268-272. *)
Definition closest_threat (start_point end_point : point)
    (threats_on_route : list threat) : result threat :=
  mid <- midpoint start_point end_point ;;
  py_min (mid_distance mid) threats_on_route.

(** Lines 278-283: the route vector turned by a quarter. *)
Definition perp_raw (start_point end_point : point) : point :=
  let route_vector_lat := fsub (fst end_point) (fst start_point) in
  let route_vector_lng := fsub (snd end_point) (snd start_point) in
  (fneg route_vector_lng, route_vector_lat).

(** Line 286. *)
Definition perp_magnitude (start_point end_point : point) : result F :=
  let perp := perp_raw start_point end_point in
  a <- py_sq (fst perp) ;;
  b <- py_sq (snd perp) ;;
  py_sqrt (fadd a b).

(** Lines 278-289: the offset direction. *)
Definition perp_vector (start_point end_point : point) : result point :=
  let perp := perp_raw start_point end_point in
  m <- perp_magnitude start_point end_point ;;
  if fltb (fromZ 0) m then
    perp_vector_lat <- py_truediv (fst perp) m ;;
    perp_vector_lng <- py_truediv (snd perp) m ;;
    Ok (perp_vector_lat, perp_vector_lng)
  else Ok perp.

(** Line 291. *)
Definition detour_distance (closest : threat) : result F :=
  rd <- py_truediv (radius closest) (fromZ 111320) ;;
  Ok (fmul rd (fromZ 2)).

(** Lines 293-296 and 308-311. *)
Definition waypoint_primary (closest : threat) (perp : point) (d : F) : point :=
  (fadd (lat closest) (fmul (fst perp) d), fadd (lng closest) (fmul (snd perp) d)).

Definition waypoint_opposite (closest : threat) (perp : point) (d : F) : point :=
  (fsub (lat closest) (fmul (fst perp) d), fsub (lng closest) (fmul (snd perp) d)).

(** The test of line 302 for one threat. *)
Definition inside (w : point) (t : threat) : result bool :=
  rd <- radius_in_degrees t ;;
  distance <- euclid (fst w) (snd w) (lat t) (lng t) ;;
  Ok (fleb distance rd).

(** Lines 298-304: the value of [waypoint_safe] after the loop. *)
Fixpoint waypoint_safe (w : point) (all_threats : list threat) : result bool :=
  match all_threats with
  | [] => Ok true
  | threat :: rest =>
      rd <- radius_in_degrees threat ;;
      distance <- euclid (fst w) (snd w) (lat threat) (lng threat) ;;
      if fleb distance rd then Ok false else waypoint_safe w rest
  end.

(** Lines 275-311, once [closest_threat] is chosen. *)
Definition detour_around (start_point end_point : point) (closest : threat)
    (all_threats : list threat) : result point :=
  perp <- perp_vector start_point end_point ;;
  d <- detour_distance closest ;;
  let waypoint_1 := waypoint_primary closest perp d in
  safe <- waypoint_safe waypoint_1 all_threats ;;
  if safe then Ok waypoint_1 else Ok (waypoint_opposite closest perp d).

(** Lines 265-311. *)
Definition detour_waypoint (start_point end_point : point)
    (threats_on_route all_threats : list threat) : result point :=
  closest <- closest_threat start_point end_point threats_on_route ;;
  detour_around start_point end_point closest all_threats.

(** Lines 234-314: [route_points]. *)
Definition plan (start_point end_point : point) (all_threats : list threat)
    : result (list point) :=
  st <- route_sampler start_point end_point all_threats ;;
  match fst st with
  | [] => Ok [start_point; end_point]
  | _ :: _ =>
      waypoint_1 <- detour_waypoint start_point end_point (fst st) all_threats ;;
      Ok [start_point; waypoint_1; end_point]
  end.

End Planner.

Arguments point F : clear implicits.
Arguments threat F : clear implicits.
Arguments sampler_state F : clear implicits.

(** ** What the claims speak of

    Definitions that follow the words of the specification, to be compared
    with the loops above. *)

Section Readings.

Context {F : Type} {AF : Arith F}.

(** The interior sample point at fraction [i/101]. *)
Definition sample_point (start_point end_point : point F) (i : Z) : point F :=
  let fraction := fdiv (fromZ i) (fromZ 101) in
  (fadd (fst start_point) (fmul fraction (fsub (fst end_point) (fst start_point))),
   fadd (snd start_point) (fmul fraction (fsub (snd end_point) (snd start_point)))).

(** The first threat, in list order, that passes the margin test at the
    check point, and the number of threats tested to find it. *)
Fixpoint first_hit (check_lat check_lng : F) (all_threats : list (threat F))
    : result (option (threat F) * nat) :=
  match all_threats with
  | [] => Ok (None, 0)
  | t :: rest =>
      b <- margin_hit check_lat check_lng t ;;
      if b then Ok (Some t, 1)
      else hn <- first_hit check_lat check_lng rest ;; Ok (fst hn, S (snd hn))
  end.

(** The first hit of each check point of [range], in order. *)
Fixpoint first_hits (start_point end_point : point F) (all_threats : list (threat F))
    (range : list Z) : result (list (Z * (option (threat F) * nat))) :=
  match range with
  | [] => Ok []
  | i :: rest =>
      p <- check_point start_point end_point i ;;
      hn <- first_hit (fst p) (snd p) all_threats ;;
      hs <- first_hits start_point end_point all_threats rest ;;
      Ok ((i, hn) :: hs)
  end.

(** A hit joins the conflict list unless an equal threat is already in it. *)
Definition add_unique (tor : list (threat F)) (h : option (threat F)) : list (threat F) :=
  match h with
  | None => tor
  | Some t => if threat_in t tor then tor else tor ++ [t]
  end.

Definition conflicts_from (tor : list (threat F))
    (hits : list (Z * (option (threat F) * nat))) : list (threat F) :=
  fold_left (fun acc h => add_unique acc (fst (snd h))) hits tor.

(** The tests [(i, j+1) .. (i, j+n)]. *)
Definition tests_of (i : Z) (j n : nat) : list (Z * nat) :=
  map (fun k => (i, k)) (seq (S j) n).

Definition log_of (hits : list (Z * (option (threat F) * nat))) : list (Z * nat) :=
  flat_map (fun h => tests_of (fst h) 0 (snd (snd h))) hits.




(** [c] is the first item of [l] with the least key: no item before it has a
    key [<=] its key, no item after it has a key [<] its key. *)
Definition first_least (key : threat F -> result F) (l : list (threat F)) (c : threat F) : Prop :=
  exists l1 l2 kc,
    l = l1 ++ c :: l2 /\ key c = Ok kc /\
    (forall t kt, In t l1 -> key t = Ok kt -> fleb kt kc = false) /\
    (forall t kt, In t l2 -> key t = Ok kt -> fltb kt kc = false).

End Readings.

(** A computation that raises nothing but [OverflowError]. *)
Definition benign {A : Type} (r : result A) : Prop :=
  forall ex, r = Raise ex -> ex = OverflowError.

(** ** Python floats *)

Definition b64_fromZ (z : Z) : float :=
  if (z <? 0)%Z then PrimFloat.opp (of_uint63 (Uint63.of_Z (- z)))
  else of_uint63 (Uint63.of_Z z).

(** The C library behind [**].  [pow_2 x] is its [pow(x, 2.0)], asked only
    for a finite [x > 0] other than 1.  Its last bit is the library's own
    business; what is known of every library is that the answer is not
    negative.  (A range error is taken to come with an infinite or a zero
    answer, as it does in glibc; CPython ignores the one with a zero.) *)
Class Libm : Type := {
  pow_2 : float -> float;
  pow_2_not_negative :
    forall x, PrimFloat.ltb 0 x = true -> PrimFloat.ltb (pow_2 x) 0 = false
}.

(** The float of [x ** 2], as CPython's [float_pow] finds it for the
    exponent [2.0]: [nan ** 2] is [nan], [(+-inf) ** 2] is [inf],
    [(+-0.0) ** 2] is [0.0], [(+-1.0) ** 2] is [1.0], and any other [x] goes
    to the library as [pow(abs(x), 2.0)]. *)
Definition b64_square {libm : Libm} (x : float) : float :=
  if is_nan x then x
  else if is_infinity x then abs x
  else if PrimFloat.eqb x 0 then 0%float
  else if PrimFloat.eqb (abs x) 1 then 1%float
  else pow_2 (abs x).

#[export] Instance binary64 {libm : Libm} : Arith float := {|
  fromZ := b64_fromZ;
  lit_1_1 := 1.1%float;
  fadd := PrimFloat.add;
  fsub := PrimFloat.sub;
  fmul := PrimFloat.mul;
  fdiv := PrimFloat.div;
  fsq := b64_square;
  fneg := PrimFloat.opp;
  fsqrt := PrimFloat.sqrt;
  feqb := PrimFloat.eqb;
  fltb := PrimFloat.ltb;
  fleb := PrimFloat.leb;
  finf := PrimFloat.is_infinity
|}.

(** The planner on Python floats. *)
Definition plan64 {libm : Libm} (start_point end_point : point float)
    (all_threats : list (threat float)) : result (list (point float)) :=
  plan start_point end_point all_threats.

(** [==] on two points. *)
Definition point_eqb (p q : point float) : bool :=
  PrimFloat.eqb (fst p) (fst q) && PrimFloat.eqb (snd p) (snd q).

(** Whether every sample point is farther than the margin from every threat. *)
Definition all_clear {libm : Libm} (start_point end_point : point float)
    (all_threats : list (threat float)) : bool :=
  forallb (fun i =>
    forallb (fun t =>
      match euclid (fst (sample_point start_point end_point i))
                   (snd (sample_point start_point end_point i)) (lat t) (lng t) with
      | Ok distance => (radius t / 111320 * 1.1 <? distance)%float
      | Raise _ => false
      end) all_threats) range_1_101.

(** A float that is [0.0] or [-0.0]. *)
Definition is_zero (x : float) : Prop := exists s, Prim2SF x = S754_zero s.

(** ** What the proofs ask of the arithmetic

    Python floats meet these, NaN included: they are read off the
    specification of the primitive operations. *)

Class ArithLaws (F : Type) {AF : Arith F} : Prop := {
  lit_101_nonzero : feqb (fromZ 101) (fromZ 0) = false;
  lit_111320_nonzero : feqb (fromZ 111320) (fromZ 0) = false;
  lit_2_nonzero : feqb (fromZ 2) (fromZ 0) = false;
  positive_nonzero : forall m, fltb (fromZ 0) m = true -> feqb m (fromZ 0) = false;
  square_not_negative : forall x, fltb (fsq x) (fromZ 0) = false;
  sum_not_negative : forall a b,
    fltb a (fromZ 0) = false -> fltb b (fromZ 0) = false ->
    fltb (fadd a b) (fromZ 0) = false;
  lt_not_ge : forall a b, fltb a b = true -> fleb b a = false;
  lt_le : forall a b, fltb a b = true -> fleb a b = true;
  le_lt_trans : forall a b c, fleb a b = true -> fltb b c = true -> fltb a c = true
}.

(** ** Inputs used in the examples *)

Module Scenario.

(** The segment of the specification's scenarios: one degree of longitude. *)
Definition origin : point float := (0, 0)%float.
Definition east : point float := (0, 1)%float.

(** A start and an end [1e-200] degrees apart, and a start far away. *)
Definition tiny_east : point float := (1e-200, 0)%float.
Definition far_start : point float := (1e200, 0)%float.

(** A point of the segment, used as start and end at once. *)
Definition halfway : point float := (0, 0.5)%float.

Definition zone_mid : threat float := mk_threat 0%float 0.5%float 5000%float.
Definition zone_far : threat float := mk_threat 10%float 10%float 1000%float.
Definition zone_side : threat float := mk_threat (-0.09)%float 0.5%float 2000%float.
Definition zone_quarter : threat float := mk_threat 0%float 0.25%float 1000%float.
Definition zone_three_quarters : threat float := mk_threat 0%float 0.75%float 1000%float.
Definition zone_huge : threat float := mk_threat 0%float 0.5%float 1e165%float.
Definition zone_origin : threat float := mk_threat 0%float 0%float 1000%float.

(** A zone on a route of a thousandth of a degree, and zones far away. *)
Definition zone_near : threat float := mk_threat 0%float 0.0005%float 500%float.
Definition zone_remote : threat float := mk_threat 1e200%float 0%float 500%float.
Definition zone_beyond : threat float := mk_threat 1.3e154%float 0%float 1000%float.
Definition zone_over : threat float := mk_threat (-1e153)%float 0%float 1.2e158%float.
Definition zone_boundless : threat float := mk_threat 0%float 0.5%float infinity.
Definition zone_vast : threat float := mk_threat 9.9e151%float 0%float 9.867e158%float.
Definition zone_vaster : threat float :=
  mk_threat 2.080099e154%float 0%float 1.1132e159%float.

End Scenario.

(** * The service around the planner

    The request handlers of src/backend/main.py and the SQLite database they
    share.  A table is the list of its rows in rowid order, which is the
    order of insertion and the order in which SQLite's table scan returns the
    rows of a [SELECT] without [ORDER BY], together with the last value that
    [AUTOINCREMENT] handed out (kept by SQLite in [sqlite_sequence], and not
    reset by [DELETE]).  A handler runs against a connection: what it has
    executed is seen by its own later statements and reaches the file at
    [commit]; what is not committed when the connection goes away is lost.

    Outside the model, and taken as inputs where a handler depends on them:
    the clock behind [CURRENT_TIMESTAMP] (seconds, argument [now]), the
    decoding of an uploaded video and the detection model's answer for each
    frame, and Python's parsing of a form field by [float].  The handlers run
    one after the other, each on a file that no other connection holds: the
    socket handlers [message] and [sos] close their connection only on
    success, and a connection left open by a failing [sos] keeps the file
    locked against writers until Python collects it; a request is taken to
    arrive after that. *)

Delimit Scope string_scope with string.
Bind Scope string_scope with String.string.

(** ** Rows *)

Record zone_row : Type := mk_zone_row {
  zone_id : Z; zone_lat : float; zone_lng : float; zone_radius : float;
  zone_threat_score : Z }.

Record incident_row : Type := mk_incident_row {
  incident_id : Z; incident_lat : float; incident_lng : float;
  incident_intensity : Z; incident_timestamp : Z;
  incident_severity : String.string }.

Record convoy_row : Type := mk_convoy_row {
  convoy_id : Z; convoy_name : String.string; convoy_status : String.string }.

Record waypoint_row : Type := mk_waypoint_row {
  waypoint_id : Z; waypoint_convoy_id : Z; waypoint_lat : float;
  waypoint_lng : float; waypoint_sequence : Z }.

Record message_row : Type := mk_message_row {
  message_id : Z; message_sid : String.string; message_text : String.string;
  message_timestamp : Z }.

(** ** Tables and the database *)

Record table (row : Type) : Type := mk_table {
  rows : list row;
  autoincrement : Z }.
Arguments mk_table {row} rows autoincrement.
Arguments rows {row} t.
Arguments autoincrement {row} t.

Record database : Type := mk_database {
  threat_zones : table zone_row;
  incidents : table incident_row;
  convoys : table convoy_row;
  waypoints : table waypoint_row;
  messages : table message_row }.

(** [INSERT] into a table whose [id] is [INTEGER PRIMARY KEY AUTOINCREMENT]:
    the new row and [cursor.lastrowid]. *)
Definition insert_row {row : Type} (make : Z -> row) (t : table row) : table row * Z :=
  let id := (autoincrement t + 1)%Z in
  (mk_table (rows t ++ [make id]) id, id).

(** [DELETE FROM] a table, no [WHERE]. *)
Definition delete_all {row : Type} (t : table row) : table row :=
  mk_table [] (autoincrement t).

Definition set_threat_zones (db : database) (t : table zone_row) : database :=
  mk_database t (incidents db) (convoys db) (waypoints db) (messages db).
Definition set_incidents (db : database) (t : table incident_row) : database :=
  mk_database (threat_zones db) t (convoys db) (waypoints db) (messages db).
Definition set_convoys (db : database) (t : table convoy_row) : database :=
  mk_database (threat_zones db) (incidents db) t (waypoints db) (messages db).
Definition set_waypoints (db : database) (t : table waypoint_row) : database :=
  mk_database (threat_zones db) (incidents db) (convoys db) t (messages db).
Definition set_messages (db : database) (t : table message_row) : database :=
  mk_database (threat_zones db) (incidents db) (convoys db) (waypoints db) t.

(** [startup_event], lines 57-90: five [CREATE TABLE IF NOT EXISTS] on the
    database file, which is new ([None]) or has the tables already. *)
Definition startup_event (file : option database) : database :=
  match file with
  | None => mk_database (mk_table [] 0) (mk_table [] 0) (mk_table [] 0)
                        (mk_table [] 0) (mk_table [] 0)
  | Some db => db
  end.

(** A Python [float] bound to a column of type [REAL] and read back: [-0.0]
    comes back as [0.0], every other number as it went in. *)
Definition stored_value (x : float) : float :=
  if (x =? 0)%float then 0%float else x.

(** A NaN is stored as [NULL], which is [None] here. *)
Definition sql_real (x : float) : option float :=
  if is_nan x then None else Some (stored_value x).

(** A Python [int] bound to a column: SQLite integers have 64 bits.  (Asked
    of an [int] that the client sends; the row ids and the literals fit.) *)
Definition fits_int64 (z : Z) : bool :=
  ((- 2 ^ 63 <=? z) && (z <? 2 ^ 63))%Z.

(** ** What a handler raises, returns and emits *)

Inductive failure : Type :=
| PyError (e : exn)
| TypeError
| AttributeError
| IntegrityError (message : String.string)
| HTTPException (status_code : Z) (detail : String.string)
(* detail=f"{prefix}{e}" *)
| HTTPException_about (status_code : Z) (prefix : String.string) (e : failure).

Inductive reply (A : Type) : Type :=
| Return (a : A)
| Exception (f : failure).
Arguments Return {A} a.
Arguments Exception {A} f.

(** The payloads of [sio.emit]: 'new_incident', 'convoy_update', 'message'. *)
Inductive event : Type :=
| new_incident (id : Z) (lat lng : float) (severity : String.string)
| convoy_update (convoy_id : Z) (name : String.string) (route : list (point float))
| message_event (sid text : String.string).

(** A connection at work: the file, the file as this connection sees it, and
    what has been emitted so far. *)
Record session : Type := mk_session {
  stored : database;
  pending : database;
  emitted : list event }.

Definition action (A : Type) : Type := session -> reply A * session.

Definition ret {A : Type} (a : A) : action A := fun s => (Return a, s).

Definition raise {A : Type} (f : failure) : action A := fun s => (Exception f, s).

Definition and_then {A B : Type} (m : action A) (k : A -> action B) : action B :=
  fun s =>
    match m s with
    | (Return a, s') => k a s'
    | (Exception f, s') => (Exception f, s')
    end.

(** [try: body except Exception as e: handler]. *)
Definition try_except {A : Type} (body : action A) (handler : failure -> action A)
    : action A :=
  fun s =>
    match body s with
    | (Return a, s') => (Return a, s')
    | (Exception f, s') => handler f s'
    end.

Declare Scope action_scope.
Delimit Scope action_scope with action.
Notation "x <~ m ;; k" := (and_then m (fun x => k))
  (at level 61, m at next level, right associativity) : action_scope.
Notation "m ;~ k" := (and_then m (fun _ => k))
  (at level 61, right associativity) : action_scope.
Open Scope action_scope.

(** A result of the planner, inside a handler. *)
Definition lift {A : Type} (r : result A) : action A :=
  match r with
  | Ok a => ret a
  | Raise e => raise (PyError e)
  end.

Definition commit : action unit :=
  fun s => (Return tt, mk_session (pending s) (pending s) (emitted s)).

Definition emit (e : event) : action unit :=
  fun s => (Return tt, mk_session (stored s) (pending s) (emitted s ++ [e])).

Definition query {A : Type} (select : database -> A) : action A :=
  fun s => (Return (select (pending s)), s).

Definition execute {A : Type} (statement : database -> database * A) : action A :=
  fun s =>
    let (db, a) := statement (pending s) in
    (Return a, mk_session (stored s) db (emitted s)).

(** A handler from connect to close: [get_db] of lines 50-55, and the
    [sqlite3.connect] ... [conn.close()] of [message] and [sos].  What was
    not committed is not in the file afterwards. *)
Definition request {A : Type} (handler : action A) (db : database)
    : reply A * database * list event :=
  let (r, s) := handler (mk_session db db []) in
  (r, stored s, emitted s).

(** ** The statements *)

(** A value for a column [REAL NOT NULL]. *)
Definition real_not_null (column : String.string) (x : float) : action float :=
  match sql_real x with
  | Some v => ret v
  | None =>
      raise (IntegrityError (String.append "NOT NULL constraint failed: " column))
  end.

(** A value for a column [INTEGER]. *)
Definition integer (z : Z) : action Z :=
  if fits_int64 z then ret z else raise (PyError OverflowError).

(** [INSERT INTO threat_zones (lat, lng, radius, threat_score) VALUES (?, ?, ?, ?)] *)
Definition insert_threat_zone (lat lng radius : float) (threat_score : Z) : action Z :=
  lat <~ real_not_null "threat_zones.lat" lat ;;
  lng <~ real_not_null "threat_zones.lng" lng ;;
  radius <~ real_not_null "threat_zones.radius" radius ;;
  execute (fun db =>
    let (t, id) := insert_row (fun id => mk_zone_row id lat lng radius threat_score)
                              (threat_zones db) in
    (set_threat_zones db t, id)).

(** [INSERT INTO incidents (lat, lng, severity, intensity) VALUES (?, ?, ?, ?)];
    [timestamp] takes its default, [CURRENT_TIMESTAMP]. *)
Definition insert_incident (now : Z) (lat lng : float) (severity : String.string)
    (intensity : Z) : action Z :=
  intensity <~ integer intensity ;;
  lat <~ real_not_null "incidents.lat" lat ;;
  lng <~ real_not_null "incidents.lng" lng ;;
  execute (fun db =>
    let (t, id) := insert_row (fun id => mk_incident_row id lat lng intensity now severity)
                              (incidents db) in
    (set_incidents db t, id)).

(** [INSERT INTO convoys (name, status) VALUES (?, 'In-Progress')] *)
Definition insert_convoy (name : String.string) : action Z :=
  execute (fun db =>
    let (t, id) := insert_row (fun id => mk_convoy_row id name "In-Progress") (convoys db) in
    (set_convoys db t, id)).

(** [INSERT INTO waypoints (convoy_id, lat, lng, sequence) VALUES (?, ?, ?, ?)] *)
Definition insert_waypoint (convoy_id : Z) (lat lng : float) (sequence : Z) : action Z :=
  lat <~ real_not_null "waypoints.lat" lat ;;
  lng <~ real_not_null "waypoints.lng" lng ;;
  execute (fun db =>
    let (t, id) := insert_row (fun id => mk_waypoint_row id convoy_id lat lng sequence)
                              (waypoints db) in
    (set_waypoints db t, id)).

(** [INSERT INTO messages (sid, text) VALUES (?, ?)] *)
Definition insert_message (now : Z) (sid text : String.string) : action Z :=
  execute (fun db =>
    let (t, id) := insert_row (fun id => mk_message_row id sid text now) (messages db) in
    (set_messages db t, id)).

(** [severity IN ('High', 'Critical')] *)
Definition high_or_critical (severity : String.string) : bool :=
  String.eqb severity "High" || String.eqb severity "Critical".

(** ** [initialize_scenario], lines 97-111 *)

Definition initialize_scenario (location : point float) : action String.string :=
  try_except
    (execute (fun db => (set_threat_zones db (delete_all (threat_zones db)), tt)) ;~
     execute (fun db => (set_incidents db (delete_all (incidents db)), tt)) ;~
     insert_threat_zone (fst location + 0.02) (snd location + 0.01) 800 8 ;~
     insert_threat_zone (fst location - 0.01) (snd location - 0.015) 600 10 ;~
     commit ;~
     ret "Scenario initialized successfully"%string)
    (fun e => raise (HTTPException_about 500 "Could not initialize scenario: " e)).

(** ** [get_threat_zones], lines 194-198 *)

Definition get_threat_zones : action (list zone_row) :=
  query (fun db => rows (threat_zones db)).

(** ** [create_convoy], lines 212-333 *)

(** [ConvoyRequest]; a [Point] is the pair of its [lat] and [lng]. *)
Record ConvoyRequest : Type := mk_ConvoyRequest {
  req_name : String.string;
  req_start : point float;
  req_end : point float }.

(** Lines 215-224: the regions handed to the planner. *)
Definition all_threats_of (db : database) : list (threat float) :=
  map (fun zone => mk_threat (zone_lat zone) (zone_lng zone) (zone_radius zone))
      (rows (threat_zones db))
  ++
  map (fun incident => mk_threat (incident_lat incident) (incident_lng incident) 500%float)
      (filter (fun incident => high_or_critical (incident_severity incident))
              (rows (incidents db))).

(** Lines 323-325, from sequence number [i] on. *)
Fixpoint insert_waypoints (convoy_id : Z) (i : Z) (route_points : list (point float))
    : action unit :=
  match route_points with
  | [] => ret tt
  | point :: rest =>
      insert_waypoint convoy_id (fst point) (snd point) i ;~
      insert_waypoints convoy_id (i + 1) rest
  end.

Record convoy_response : Type := mk_convoy_response {
  response_convoy_id : Z;
  response_name : String.string;
  response_route : list (point float) }.

Definition create_convoy {libm : Libm} (req : ConvoyRequest) : action convoy_response :=
  all_threats <~ query all_threats_of ;;
  let start_point := req_start req in
  let end_point := req_end req in
  route_points <~ lift (plan64 start_point end_point all_threats) ;;
  convoy_id <~ insert_convoy (req_name req) ;;
  commit ;~
  insert_waypoints convoy_id 0 route_points ;~
  commit ;~
  emit (convoy_update convoy_id (req_name req) route_points) ;~
  ret (mk_convoy_response convoy_id (req_name req) route_points).

(** ** [message] and [sos], lines 344-362 *)

Definition message (now : Z) (sid data : String.string) : action unit :=
  insert_message now sid data ;~
  commit ;~
  emit (message_event sid data).

(** The payload of 'sos' as the dashboard sends it: two floats, a string and
    an int. *)
Record sos_data : Type := mk_sos_data {
  sos_lat : float; sos_lng : float; sos_severity : String.string; sos_intensity : Z }.

Definition sos (now : Z) (sid : String.string) (data : sos_data) : action unit :=
  incident_id <~ insert_incident now (sos_lat data) (sos_lng data) (sos_severity data)
                                 (sos_intensity data) ;;
  commit ;~
  emit (new_incident incident_id (sos_lat data) (sos_lng data) (sos_severity data)).

(** ** [get_incidents] and [get_messages], lines 200-210 *)

(** The rows of a [SELECT ... ORDER BY timestamp]: all the rows, in an order
    in which the timestamps are sorted; the order of rows with equal
    timestamps is left open, as SQL leaves it. *)
Definition ordered_by {row : Type} (timestamp : row -> Z) (before : Z -> Z -> Prop)
    (table_rows result : list row) : Prop :=
  Permutation table_rows result /\
  StronglySorted (fun a b => before (timestamp a) (timestamp b)) result.

(** [ORDER BY timestamp DESC]; the columns [id, lat, lng, severity]. *)
Definition get_incidents (db : database)
    (response : list (Z * float * float * String.string)) : Prop :=
  exists result,
    ordered_by incident_timestamp Z.ge (rows (incidents db)) result /\
    response = map (fun r => (incident_id r, incident_lat r, incident_lng r,
                              incident_severity r)) result.

(** [ORDER BY timestamp ASC LIMIT 50]; all four columns. *)
Definition get_messages (db : database) (response : list message_row) : Prop :=
  exists result,
    ordered_by message_timestamp Z.le (rows (messages db)) result /\
    response = firstn 50 result.

(** ** [detect_threats], lines 113-192 *)

(** What the handler learns about an uploaded file: whether
    [cv2.VideoCapture] opens it and, for each frame that [cap.read()]
    delivers, the results of [model(frame)], each result being the classes
    [int(box.cls)] of its boxes. *)
Record upload : Type := mk_upload {
  is_opened : bool;
  frames : list (list (list Z)) }.

(** A field of the submitted form: text, or an uploaded file. *)
Inductive form_field : Type :=
| Text (s : String.string)
| UploadFile (video : upload).

Record form : Type := mk_form {
  form_video : option form_field;
  form_lat : option form_field;
  form_lng : option form_field }.

Record detect_response : Type := mk_detect_response {
  response_message : String.string;
  detection_summary : list (String.string * Z);
  threat_detected : bool }.

(** [not video_file]: a missing field and the empty text are false. *)
Definition falsy (v : option form_field) : bool :=
  match v with
  | None => true
  | Some (Text s) => String.eqb s ""
  | Some (UploadFile _) => false
  end.

(** [detections_summary[class_name] = detections_summary.get(class_name, 0) + 1]
    on a dict, which keeps its keys in the order of their first insertion. *)
Fixpoint count_up (class_name : String.string) (detections_summary : list (String.string * Z))
    : list (String.string * Z) :=
  match detections_summary with
  | [] => [(class_name, 1%Z)]
  | (k, n) :: rest =>
      if String.eqb k class_name then (k, (n + 1)%Z) :: rest
      else (k, n) :: count_up class_name rest
  end.

Section Detection.

(** [float(s)] on a [str]: the float, or [None] where Python raises
    [ValueError]. *)
Variable float_of_str : String.string -> option float.

(** [float(form_data.get(...))]. *)
Definition py_float (v : option form_field) : action float :=
  match v with
  | Some (Text s) =>
      match float_of_str s with
      | Some x => ret x
      | None => raise (PyError ValueError)
      end
  | Some (UploadFile _) => raise TypeError
  | None => raise TypeError
  end.

(** What [float] makes of a form field, if it makes a float of it. *)
Definition parsed_field (v : option form_field) : option float :=
  match v with
  | Some (Text s) => float_of_str s
  | _ => None
  end.

(** [model.names]. *)
Variable names : Z -> String.string.

(** Lines 146-154: the results of one frame; the second component is
    [threat_detected]. *)
Fixpoint scan_results (results : list (list Z)) (detections_summary : list (String.string * Z))
    : list (String.string * Z) * bool :=
  match results with
  | [] => (detections_summary, false)
  | boxes :: rest =>
      let detections_summary :=
        fold_left (fun summary cls => count_up (names cls) summary) boxes detections_summary in
      if existsb (Z.eqb 0) boxes then (detections_summary, true)
      else scan_results rest detections_summary
  end.

(** Lines 139-156: the frames. *)
Fixpoint scan_frames (video : list (list (list Z))) (detections_summary : list (String.string * Z))
    : list (String.string * Z) * bool :=
  match video with
  | [] => (detections_summary, false)
  | results :: rest =>
      let (detections_summary, detected) := scan_results results detections_summary in
      if detected then (detections_summary, true)
      else scan_frames rest detections_summary
  end.

(** The [try] block, lines 119-185.  ([lat is None] and [lng is None] are
    false of the floats that [float] returned.) *)
Definition detect_threats_try (now : Z) (form_data : form) : action detect_response :=
  let video_file := form_video form_data in
  lat <~ py_float (form_lat form_data) ;;
  lng <~ py_float (form_lng form_data) ;;
  if falsy video_file then raise (HTTPException 400 "Missing data.")
  else
    match video_file with
    | Some (UploadFile video) =>
        if negb (is_opened video) then
          raise (HTTPException 500 "Could not open video file.")
        else
          let (detections_summary, detected) := scan_frames (frames video) [] in
          if detected then
            let incident_lat := (lat + 0.005)%float in
            let incident_lng := (lng - 0.005)%float in
            incident_id <~ insert_incident now incident_lat incident_lng "High" 8 ;;
            commit ;~
            emit (new_incident incident_id incident_lat incident_lng "High") ;~
            ret (mk_detect_response
                   "Analysis complete. High severity threat detected."
                   detections_summary true)
          else
            ret (mk_detect_response
                   "Analysis complete. No threats were detected."
                   detections_summary false)
    | _ => raise AttributeError   (* [video_file.read] on a [str] *)
    end.

(** [model_loaded] is the truth value of the global [model]. *)
Definition detect_threats (model_loaded : bool) (now : Z) (form_data : form)
    : action detect_response :=
  if negb model_loaded then
    raise (HTTPException 500 "AI model is not loaded. Cannot process video.")
  else
    try_except
      (detect_threats_try now form_data)
      (fun e => raise (HTTPException 500 "An error occurred during video analysis.")).

End Detection.

(** ** The databases the service can reach *)

Inductive call : Type :=
| call_initialize_scenario (location : point float)
| call_create_convoy (req : ConvoyRequest)
| call_message (now : Z) (sid data : String.string)
| call_sos (now : Z) (sid : String.string) (data : sos_data)
| call_detect_threats (float_of_str : String.string -> option float)
    (names : Z -> String.string) (model_loaded : bool) (now : Z) (form_data : form).

(** The file after a call. *)
Definition after {libm : Libm} (c : call) (db : database) : database :=
  match c with
  | call_initialize_scenario location => snd (fst (request (initialize_scenario location) db))
  | call_create_convoy req => snd (fst (request (create_convoy req) db))
  | call_message now sid data => snd (fst (request (message now sid data) db))
  | call_sos now sid data => snd (fst (request (sos now sid data) db))
  | call_detect_threats float_of_str names model_loaded now form_data =>
      snd (fst (request (detect_threats float_of_str names model_loaded now form_data) db))
  end.

Inductive reachable {libm : Libm} : database -> Prop :=
| reachable_startup : reachable (startup_event None)
| reachable_after (c : call) (db : database) : reachable db -> reachable (after c db).

(** ** What the theorems speak of *)

(** The rows that lines 323-325 add to [waypoints] for a route, from row id
    [next_id] and sequence number [i] on. *)
Fixpoint waypoint_rows (convoy_id next_id i : Z) (route_points : list (point float))
    : list waypoint_row :=
  match route_points with
  | [] => []
  | point :: rest =>
      mk_waypoint_row next_id convoy_id (stored_value (fst point)) (stored_value (snd point)) i
      :: waypoint_rows convoy_id (next_id + 1) (i + 1) rest
  end.

(** What the planner decides of a reply of [create_convoy]: the route of
    the response, or the exception raised in its place. *)
Definition planned (r : reply convoy_response) : reply (list (point float)) :=
  match r with
  | Return response => Return (response_route response)
  | Exception f => Exception f
  end.

(** A point with a NaN for a coordinate. *)
Definition nan_point (p : point float) : bool := is_nan (fst p) || is_nan (snd p).

(** The results up to and including the first one with a box of class 0. *)
Fixpoint until_person (results : list (list Z)) : list (list Z) :=
  match results with
  | [] => []
  | boxes :: rest =>
      if existsb (Z.eqb 0) boxes then [boxes] else boxes :: until_person rest
  end.

(** [detections_summary.get(class_name, 0)]. *)
Fixpoint count_of (class_name : String.string) (detections_summary : list (String.string * Z))
    : Z :=
  match detections_summary with
  | [] => 0%Z
  | (k, n) :: rest => if String.eqb k class_name then n else count_of class_name rest
  end.

(** [class_name] among the names of the boxes. *)
Definition boxes_named (names : Z -> String.string) (class_name : String.string)
    (boxes : list Z) : Z :=
  Z.of_nat (length (filter (fun cls => String.eqb (names cls) class_name) boxes)).

(** The ids of a table ascend with the rows and stay within what
    [AUTOINCREMENT] has handed out: no id is used twice. *)
Definition keys_ascend {row : Type} (id : row -> Z) (t : table row) : Prop :=
  StronglySorted Z.lt (map id (rows t)) /\
  Forall (fun r => (0 < id r <= autoincrement t)%Z) (rows t) /\
  (0 <= autoincrement t)%Z.

(** The sequence numbers of the waypoints of a convoy, in row order. *)
Definition sequence_of (db : database) (c : convoy_row) : list Z :=
  map waypoint_sequence
      (filter (fun w => (waypoint_convoy_id w =? convoy_id c)%Z) (rows (waypoints db))).

Definition consistent (db : database) : Prop :=
  keys_ascend zone_id (threat_zones db) /\
  keys_ascend incident_id (incidents db) /\
  keys_ascend convoy_id (convoys db) /\
  keys_ascend waypoint_id (waypoints db) /\
  keys_ascend message_id (messages db) /\
  (forall w, In w (rows (waypoints db)) ->
     exists c, In c (rows (convoys db)) /\ convoy_id c = waypoint_convoy_id w) /\
  (forall c, In c (rows (convoys db)) ->
     sequence_of db c = [] \/ sequence_of db c = [0; 1]%Z \/ sequence_of db c = [0; 1; 2]%Z).


(** How a call can change the file: not at all; a new scenario; one more
    incident; one more message; one more convoy, with the waypoints of a
    route of 2 or 3 points or with none. *)
Inductive changes (db : database) : database -> Prop :=
| changes_none : changes db db
| changes_scenario (r1 r2 : zone_row) :
    zone_id r1 = (autoincrement (threat_zones db) + 1)%Z ->
    zone_id r2 = (autoincrement (threat_zones db) + 2)%Z ->
    is_nan (zone_lat r1) = false -> is_nan (zone_lng r1) = false ->
    is_nan (zone_lat r2) = false -> is_nan (zone_lng r2) = false ->
    zone_radius r1 = 800%float -> zone_radius r2 = 600%float ->
    changes db
      (mk_database (mk_table [r1; r2] (autoincrement (threat_zones db) + 2))
                   (mk_table [] (autoincrement (incidents db)))
                   (convoys db) (waypoints db) (messages db))
| changes_incident (r : incident_row) :
    incident_id r = (autoincrement (incidents db) + 1)%Z ->
    is_nan (incident_lat r) = false -> is_nan (incident_lng r) = false ->
    changes db
      (set_incidents db (mk_table (rows (incidents db) ++ [r]) (incident_id r)))
| changes_message (r : message_row) :
    message_id r = (autoincrement (messages db) + 1)%Z ->
    changes db (set_messages db (mk_table (rows (messages db) ++ [r]) (message_id r)))
| changes_convoy (r : convoy_row) (route_points : list (point float)) :
    convoy_id r = (autoincrement (convoys db) + 1)%Z ->
    route_points = [] \/ length route_points = 2%nat \/ length route_points = 3%nat ->
    changes db
      (set_waypoints
         (set_convoys db (mk_table (rows (convoys db) ++ [r]) (convoy_id r)))
         (mk_table
            (rows (waypoints db) ++
             waypoint_rows (convoy_id r) (autoincrement (waypoints db) + 1) 0 route_points)
            (autoincrement (waypoints db) + Z.of_nat (length route_points)))).



(** ** Databases and requests used in the examples *)

Module Installation.
(** The database of a new installation, and the one after a scenario has
    been initialized around [(0, 0)]. *)
Definition new_file : database := startup_event None.
Definition around_origin {libm : Libm} : database :=
  after (call_initialize_scenario (0, 0)%float) new_file.
(** A request along the parallel of the first zone, through it. *)
Definition through_zone : ConvoyRequest :=
  mk_ConvoyRequest "alpha" (0.02, -0.1)%float (0.02, 0.1)%float.
(** The same start and end, under another name. *)
Definition through_zone_again : ConvoyRequest :=
  mk_ConvoyRequest "delta" (0.02, -0.1)%float (0.02, 0.1)%float.
(** The installation after a convoy and a message. *)
Definition in_use {libm : Libm} : database :=
  after (call_message 7 "sid" "hello") (after (call_create_convoy through_zone) around_origin).
(** A new installation on which [n] messages were sent, one a second. *)
Fixpoint chatter {libm : Libm} (n : nat) : database :=
  match n with
  | O => new_file
  | S k => after (call_message (Z.of_nat (S k)) "sid" "hello") (chatter k)
  end.
Definition from_far : ConvoyRequest :=
  mk_ConvoyRequest "bravo" (1e200, 0)%float (0, 1)%float.
Definition from_nowhere : ConvoyRequest :=
  mk_ConvoyRequest "charlie" (nan, 0)%float (0, 1)%float.
End Installation.

(** * Proofs *)

(** A closed fact about floats, by running the computation. *)
Ltac by_computation := vm_compute; reflexivity.

(** ** The error monad *)

Lemma bind_Ok {A B : Type} (r : result A) (k : A -> result B) (b : B) :
  bind r k = Ok b -> exists a, r = Ok a /\ k a = Ok b.
Proof. destruct r as [a|ex]; simpl; [eauto | discriminate]. Qed.

Lemma benign_Ok {A : Type} (a : A) : benign (Ok a).
Proof. intros ex H; discriminate. Qed.

Lemma benign_bind {A B : Type} (r : result A) (k : A -> result B) :
  benign r -> (forall a, r = Ok a -> benign (k a)) -> benign (bind r k).
Proof.
  intros Hr Hk. destruct r as [a|ex]; simpl.
  - now apply Hk.
  - intros ex' [= <-]. now apply Hr.
Qed.

Lemma benign_if {A : Type} (b : bool) (r1 r2 : result A) :
  benign r1 -> benign r2 -> benign (if b then r1 else r2).
Proof. now destruct b. Qed.

(** [range(1, 101)] is 1..100. *)
Lemma range_1_101_In (i : Z) : In i range_1_101 <-> (1 <= i <= 100)%Z.
Proof.
  unfold range_1_101. rewrite in_map_iff. split.
  - intros (n & <- & Hn). apply in_seq in Hn. lia.
  - intros H. exists (Z.to_nat i). split; [lia|]. apply in_seq. lia.
Qed.

(** ** The loops, whatever the arithmetic *)

Section Structure.

Context {F : Type} {AF : Arith F}.

Lemma scan_threats_first_hit :
  forall i check_lat check_lng (all_threats : list (threat F)) j st,
    scan_threats i check_lat check_lng j all_threats st =
    (hn <- first_hit check_lat check_lng all_threats ;;
     Ok (add_unique (fst st) (fst hn), snd st ++ tests_of i j (snd hn))).
Proof.
  intros i clat clng ths.
  induction ths as [|t rest IH]; intros j st; simpl.
  - unfold tests_of; simpl. rewrite app_nil_r. now destruct st.
  - unfold margin_hit.
    destruct (radius_in_degrees t) as [rd|ex]; simpl; [|reflexivity].
    destruct (euclid clat clng (lat t) (lng t)) as [d|ex]; simpl; [|reflexivity].
    destruct (fleb d (fmul rd lit_1_1)); simpl.
    + now destruct (threat_in t (fst st)).
    + rewrite IH; simpl.
      destruct (first_hit clat clng rest) as [[h n]|ex]; simpl; [|reflexivity].
      unfold tests_of; simpl. now rewrite <- app_assoc.
Qed.

Lemma sample_route_first_hits :
  forall start_point end_point (all_threats : list (threat F)) range st,
    sample_route start_point end_point all_threats range st =
    (hits <- first_hits start_point end_point all_threats range ;;
     Ok (conflicts_from (fst st) hits, snd st ++ log_of hits)).
Proof.
  intros s e ths range.
  induction range as [|i rest IH]; intros st; simpl.
  - rewrite app_nil_r. now destruct st.
  - destruct (check_point s e i) as [p|ex]; simpl; [|reflexivity].
    rewrite scan_threats_first_hit.
    destruct (first_hit (fst p) (snd p) ths) as [[h n]|ex]; simpl; [|reflexivity].
    rewrite IH; simpl.
    destruct (first_hits s e ths rest) as [hs|ex]; simpl; [|reflexivity].
    now rewrite <- app_assoc.
Qed.

Lemma first_hit_None clat clng (all_threats : list (threat F)) :
  (forall t, In t all_threats -> margin_hit clat clng t = Ok false) ->
  first_hit clat clng all_threats = Ok (None, length all_threats).
Proof.
  induction all_threats as [|t rest IH]; intros H; simpl; [reflexivity|].
  rewrite (H t) by now left. simpl.
  rewrite IH by (intros u Hu; apply H; now right). reflexivity.
Qed.

Lemma first_hit_Some clat clng (all_threats : list (threat F)) t n :
  first_hit clat clng all_threats = Ok (Some t, n) ->
  In t all_threats /\ margin_hit clat clng t = Ok true.
Proof.
  revert n. induction all_threats as [|u rest IH]; intros n; simpl; [discriminate|].
  destruct (margin_hit clat clng u) as [[|]|ex] eqn:Hu; simpl; try discriminate.
  - intros [= <- <-]. auto.
  - destruct (first_hit clat clng rest) as [[h k]|ex]; simpl; [|discriminate].
    intros [= -> <-]. destruct (IH k eq_refl). auto.
Qed.

Lemma first_hit_split clat clng (all_threats : list (threat F)) l1 t l2 :
  all_threats = l1 ++ t :: l2 ->
  (forall u, In u l1 -> margin_hit clat clng u = Ok false) ->
  margin_hit clat clng t = Ok true ->
  first_hit clat clng all_threats = Ok (Some t, S (length l1)).
Proof.
  intros -> H1 Ht. induction l1 as [|u l1 IH]; simpl.
  - now rewrite Ht.
  - rewrite (H1 u) by now left. simpl.
    rewrite IH by (intros v Hv; apply H1; now right). reflexivity.
Qed.

Lemma add_unique_In tor h (c : threat F) :
  In c (add_unique tor h) -> In c tor \/ h = Some c.
Proof.
  destruct h as [t|]; simpl; auto.
  destruct (threat_in t tor); auto.
  intros H. apply in_app_or in H as [H|[->|[]]]; auto.
Qed.

Lemma conflicts_from_In hits : forall tor (c : threat F),
  In c (conflicts_from tor hits) ->
  In c tor \/ exists i n, In (i, (Some c, n)) hits.
Proof.
  induction hits as [|[i [h n]] rest IH]; intros tor c; simpl; auto.
  intros H. apply IH in H as [H|(i' & n' & H)].
  - apply add_unique_In in H as [H|H]; auto. simpl in H. subst h.
    right. exists i, n. now left.
  - right. exists i', n'. now right.
Qed.

Lemma first_hits_In s e (all_threats : list (threat F)) range : forall hits i hn,
  first_hits s e all_threats range = Ok hits -> In (i, hn) hits ->
  In i range /\
  exists p, check_point s e i = Ok p /\ first_hit (fst p) (snd p) all_threats = Ok hn.
Proof.
  induction range as [|i0 rest IH]; intros hits i hn; simpl.
  - intros [= <-] [].
  - destruct (check_point s e i0) as [p|ex] eqn:Hp; simpl; [|discriminate].
    destruct (first_hit (fst p) (snd p) all_threats) as [hn0|ex] eqn:Hh; simpl; [|discriminate].
    destruct (first_hits s e all_threats rest) as [hs|ex] eqn:Hr; simpl; [|discriminate].
    intros [= <-] [[= <- <-]|Hin].
    + split; [now left|]. now exists p.
    + destruct (IH hs i hn eq_refl Hin) as [Hi Hp']. split; [now right | exact Hp'].
Qed.

(** Every threat of the conflict list is a threat of the input that passed
    the margin test at some check point. *)
Lemma route_sampler_sound s e (all_threats : list (threat F)) st c :
  route_sampler s e all_threats = Ok st -> In c (fst st) ->
  In c all_threats /\
  exists i p, In i range_1_101 /\ check_point s e i = Ok p /\
              margin_hit (fst p) (snd p) c = Ok true.
Proof.
  unfold route_sampler. rewrite sample_route_first_hits.
  destruct (first_hits s e all_threats range_1_101) as [hits|ex] eqn:Hh; simpl; [|discriminate].
  intros [= <-]; simpl. intros Hc.
  apply conflicts_from_In in Hc as [[]|(i & n & Hin)].
  destruct (first_hits_In _ _ _ _ _ _ _ Hh Hin) as (Hi & p & Hp & Hf).
  apply first_hit_Some in Hf as [Hc Hm].
  split; [exact Hc|]. now exists i, p.
Qed.

Lemma waypoint_safe_cons (w : point F) t rest :
  waypoint_safe w (t :: rest) =
  (b <- inside w t ;; if b then Ok false else waypoint_safe w rest).
Proof.
  simpl. unfold inside.
  destruct (radius_in_degrees t); simpl; [|reflexivity].
  now destruct (euclid (fst w) (snd w) (lat t) (lng t)).
Qed.

Lemma waypoint_safe_outside (w : point F) all_threats :
  (forall t, In t all_threats -> inside w t = Ok false) ->
  waypoint_safe w all_threats = Ok true.
Proof.
  induction all_threats as [|t rest IH]; intros H; [reflexivity|].
  rewrite waypoint_safe_cons, (H t) by now left. simpl.
  apply IH. intros u Hu. apply H. now right.
Qed.

Lemma waypoint_safe_inside (w : point F) all_threats :
  (forall t, In t all_threats -> exists b, inside w t = Ok b) ->
  (exists t, In t all_threats /\ inside w t = Ok true) ->
  waypoint_safe w all_threats = Ok false.
Proof.
  induction all_threats as [|t rest IH]; intros Hdef (u & Hu & Hin).
  - destruct Hu.
  - rewrite waypoint_safe_cons.
    destruct (Hdef t) as [[|] Hb]; [now left| |]; rewrite Hb; simpl; [reflexivity|].
    apply IH.
    + intros v Hv. apply Hdef. now right.
    + destruct Hu as [->|Hu]; [congruence|]. now exists u.
Qed.

Lemma waypoint_safe_first_inside (w : point F) all_threats before t after :
  all_threats = before ++ t :: after ->
  (forall u, In u before -> inside w u = Ok false) ->
  inside w t = Ok true ->
  waypoint_safe w all_threats = Ok false.
Proof.
  intros -> Hbefore Ht. induction before as [|u before IH].
  - simpl app. rewrite waypoint_safe_cons, Ht. reflexivity.
  - simpl app. rewrite waypoint_safe_cons, (Hbefore u) by now left. simpl.
    apply IH. intros v Hv. apply Hbefore. now right.
Qed.



(** *** The conflict list holds no region twice *)




(** *** A first hit stays in the conflict list, itself or an equal region *)





(** *** The log *)




(** *** A hit at some check point leaves the conflict list non-empty *)

Lemma first_hit_None_inv clat clng (all_threats : list (threat F)) n :
  first_hit clat clng all_threats = Ok (None, n) ->
  forall t, In t all_threats -> margin_hit clat clng t = Ok false.
Proof.
  revert n. induction all_threats as [|u rest IH]; intros n; simpl; [intros _ t []|].
  destruct (margin_hit clat clng u) as [[|]|ex] eqn:Hu; simpl; try discriminate.
  destruct (first_hit clat clng rest) as [[h k]|ex]; simpl; [|discriminate].
  intros [= -> <-] t [<-|Ht]; [exact Hu | now apply (IH k)].
Qed.

Lemma add_unique_nonempty (tor : list (threat F)) h : tor <> [] -> add_unique tor h <> [].
Proof.
  destruct h as [t|]; simpl; trivial.
  destruct (threat_in t tor); trivial. destruct tor; [congruence | discriminate].
Qed.

Lemma add_unique_Some_nonempty (tor : list (threat F)) t : add_unique tor (Some t) <> [].
Proof.
  simpl. destruct (threat_in t tor) eqn:Hin.
  - destruct tor; [discriminate | discriminate].
  - destruct tor; discriminate.
Qed.

Lemma conflicts_from_nonempty hits : forall tor : list (threat F),
  tor <> [] -> conflicts_from tor hits <> [].
Proof.
  induction hits as [|h rest IH]; intros tor Hne; simpl; trivial.
  apply IH. now apply add_unique_nonempty.
Qed.

Lemma conflicts_from_hit hits : forall (tor : list (threat F)) i t n,
  In (i, (Some t, n)) hits -> conflicts_from tor hits <> [].
Proof.
  induction hits as [|h rest IH]; intros tor i t n; simpl; [intros []|].
  intros [->|Hin].
  - apply conflicts_from_nonempty. apply add_unique_Some_nonempty.
  - now apply (IH _ i t n).
Qed.

Lemma first_hits_complete s e (all_threats : list (threat F)) range : forall hits i,
  first_hits s e all_threats range = Ok hits -> In i range ->
  exists p hn, check_point s e i = Ok p /\
               first_hit (fst p) (snd p) all_threats = Ok hn /\ In (i, hn) hits.
Proof.
  induction range as [|i0 rest IH]; intros hits i; simpl; [intros _ []|].
  destruct (check_point s e i0) as [p|ex] eqn:Hp; simpl; [|discriminate].
  destruct (first_hit (fst p) (snd p) all_threats) as [hn0|ex] eqn:Hh; simpl; [|discriminate].
  destruct (first_hits s e all_threats rest) as [hs|ex] eqn:Hr; simpl; [|discriminate].
  intros [= <-] [<-|Hin].
  - exists p, hn0. repeat split; trivial. now left.
  - destruct (IH hs i eq_refl Hin) as (p' & hn & Hp' & Hh' & Hin').
    exists p', hn. repeat split; trivial. now right.
Qed.

Lemma route_sampler_hit_nonempty s e (all_threats : list (threat F)) st i p t :
  route_sampler s e all_threats = Ok st ->
  In i range_1_101 -> check_point s e i = Ok p ->
  In t all_threats -> margin_hit (fst p) (snd p) t = Ok true ->
  fst st <> [].
Proof.
  unfold route_sampler. rewrite sample_route_first_hits.
  destruct (first_hits s e all_threats range_1_101) as [hits|ex] eqn:Hh; simpl; [|discriminate].
  intros [= <-] Hi Hp Ht Hhit; simpl.
  destruct (first_hits_complete _ _ _ _ _ _ Hh Hi) as (p' & [h n] & Hp' & Hf & Hin).
  assert (p' = p) by congruence. subst p'.
  destruct h as [u|].
  - now apply (conflicts_from_hit hits [] i u n).
  - pose proof (first_hit_None_inv _ _ _ _ Hf t Ht). congruence.
Qed.

Lemma closest_threat_nonempty (s e : point F) l c :
  closest_threat s e l = Ok c -> l <> [].
Proof.
  unfold closest_threat. intros H. apply bind_Ok in H as (mid & _ & H).
  destruct l; [discriminate | congruence].
Qed.

(** The route, once the sampler has found conflicts and the pieces of the
    detour are known. *)
Lemma plan_detour (s e : point F) all_threats st c p d :
  route_sampler s e all_threats = Ok st ->
  closest_threat s e (fst st) = Ok c ->
  perp_vector s e = Ok p ->
  detour_distance c = Ok d ->
  plan s e all_threats =
  (safe <- waypoint_safe (waypoint_primary c p d) all_threats ;;
   Ok [s; if safe then waypoint_primary c p d else waypoint_opposite c p d; e]).
Proof.
  intros Hst Hc Hp Hd. unfold plan. rewrite Hst; simpl.
  pose proof (closest_threat_nonempty _ _ _ _ Hc) as Hne.
  destruct (fst st) as [|c0 cs] eqn:Hl; [congruence|].
  unfold detour_waypoint. rewrite Hc; simpl.
  unfold detour_around. rewrite Hp, Hd; simpl.
  destruct (waypoint_safe (waypoint_primary c p d) all_threats) as [[|]|ex]; reflexivity.
Qed.

Lemma plan_shape (s e : point F) all_threats route :
  plan s e all_threats = Ok route ->
  route = [s; e] \/ exists w, route = [s; w; e].
Proof.
  unfold plan. intros H. apply bind_Ok in H as [[tor log] [_ H]]; simpl in H.
  destruct tor as [|c cs].
  - injection H as <-. now left.
  - apply bind_Ok in H as [w [_ H]]. injection H as <-. right. now exists w.
Qed.

End Structure.

(** ** The loops, under the laws of the arithmetic *)

Section Outcome.

Context {F : Type} {AF : Arith F} {AL : ArithLaws F}.

Lemma py_truediv_nonzero (a c : F) :
  feqb c (fromZ 0) = false -> py_truediv a c = Ok (fdiv a c).
Proof. unfold py_truediv. now intros ->. Qed.

Lemma py_sq_Ok (x y : F) : py_sq x = Ok y -> y = fsq x.
Proof.
  unfold py_sq. destruct (finf (fsq x) && negb (finf x)); [discriminate|].
  now intros [= <-].
Qed.

Lemma benign_py_sq (x : F) : benign (py_sq x).
Proof.
  unfold py_sq, benign. destruct (finf (fsq x) && negb (finf x)); intros ex [=]; auto.
Qed.

(** The argument of every [math.sqrt] is a sum of two squares. *)
Lemma py_sqrt_sum_of_squares (x y : F) :
  py_sqrt (fadd (fsq x) (fsq y)) = Ok (fsqrt (fadd (fsq x) (fsq y))).
Proof.
  unfold py_sqrt. now rewrite sum_not_negative by apply square_not_negative.
Qed.

Lemma benign_euclid (a_lat a_lng b_lat b_lng : F) : benign (euclid a_lat a_lng b_lat b_lng).
Proof.
  unfold euclid.
  apply benign_bind; [apply benign_py_sq|]. intros x Hx. apply py_sq_Ok in Hx. subst x.
  apply benign_bind; [apply benign_py_sq|]. intros y Hy. apply py_sq_Ok in Hy. subst y.
  rewrite py_sqrt_sum_of_squares. apply benign_Ok.
Qed.

Lemma radius_in_degrees_Ok (t : threat F) :
  radius_in_degrees t = Ok (fdiv (radius t) (fromZ 111320)).
Proof. apply py_truediv_nonzero, lit_111320_nonzero. Qed.

Lemma check_point_Ok (s e : point F) (i : Z) :
  check_point s e i = Ok (sample_point s e i).
Proof. unfold check_point. now rewrite py_truediv_nonzero by apply lit_101_nonzero. Qed.

Lemma midpoint_Ok (s e : point F) :
  midpoint s e =
  Ok (fdiv (fadd (fst s) (fst e)) (fromZ 2), fdiv (fadd (snd s) (snd e)) (fromZ 2)).
Proof. unfold midpoint. now rewrite !py_truediv_nonzero by apply lit_2_nonzero. Qed.

Lemma detour_distance_Ok (c : threat F) :
  detour_distance c = Ok (fmul (fdiv (radius c) (fromZ 111320)) (fromZ 2)).
Proof. unfold detour_distance. now rewrite py_truediv_nonzero by apply lit_111320_nonzero. Qed.

Lemma benign_scan_threats i clat clng (all_threats : list (threat F)) :
  forall j st, benign (scan_threats i clat clng j all_threats st).
Proof.
  induction all_threats as [|t rest IH]; intros j st; simpl.
  - apply benign_Ok.
  - rewrite radius_in_degrees_Ok; simpl.
    apply benign_bind; [apply benign_euclid|]. intros d _.
    repeat apply benign_if; try apply benign_Ok. apply IH.
Qed.

Lemma benign_sample_route (s e : point F) all_threats range :
  forall st, benign (sample_route s e all_threats range st).
Proof.
  induction range as [|i rest IH]; intros st; simpl.
  - apply benign_Ok.
  - rewrite check_point_Ok; simpl.
    apply benign_bind; [apply benign_scan_threats|]. intros st' _. apply IH.
Qed.

Lemma benign_min_from (key : threat F -> result F) l :
  (forall t, benign (key t)) -> forall best kbest, benign (min_from key best kbest l).
Proof.
  intros Hkey. induction l as [|t rest IH]; intros best kbest; simpl.
  - apply benign_Ok.
  - apply benign_bind; [apply Hkey|]. intros k _. apply benign_if; apply IH.
Qed.

(** [min] is only called on a conflict list that is not empty. *)
Lemma benign_closest_threat (s e : point F) c cs : benign (closest_threat s e (c :: cs)).
Proof.
  unfold closest_threat. rewrite midpoint_Ok; simpl.
  apply benign_bind; [apply benign_euclid|]. intros k _.
  apply benign_min_from. intros t. apply benign_euclid.
Qed.

Lemma benign_perp_magnitude (s e : point F) : benign (perp_magnitude s e).
Proof.
  unfold perp_magnitude.
  apply benign_bind; [apply benign_py_sq|]. intros x Hx. apply py_sq_Ok in Hx. subst x.
  apply benign_bind; [apply benign_py_sq|]. intros y Hy. apply py_sq_Ok in Hy. subst y.
  rewrite py_sqrt_sum_of_squares. apply benign_Ok.
Qed.

(** The two divisions by [perp_magnitude] are behind the test [perp_magnitude > 0]. *)
Lemma perp_vector_normalized (s e : point F) m :
  perp_magnitude s e = Ok m -> fltb (fromZ 0) m = true ->
  perp_vector s e =
  Ok (fdiv (fst (perp_raw s e)) m, fdiv (snd (perp_raw s e)) m).
Proof.
  intros Hm Hpos. unfold perp_vector. rewrite Hm; simpl. rewrite Hpos.
  now rewrite !py_truediv_nonzero by now apply positive_nonzero.
Qed.

Lemma perp_vector_raw (s e : point F) m :
  perp_magnitude s e = Ok m -> fltb (fromZ 0) m = false ->
  perp_vector s e = Ok (perp_raw s e).
Proof. intros Hm Hpos. unfold perp_vector. rewrite Hm; simpl. now rewrite Hpos. Qed.

Lemma benign_perp_vector (s e : point F) : benign (perp_vector s e).
Proof.
  unfold perp_vector.
  apply benign_bind; [apply benign_perp_magnitude|]. intros m _.
  destruct (fltb (fromZ 0) m) eqn:Hm; [|apply benign_Ok].
  rewrite !py_truediv_nonzero by now apply positive_nonzero.
  apply benign_Ok.
Qed.

Lemma benign_waypoint_safe (w : point F) all_threats : benign (waypoint_safe w all_threats).
Proof.
  induction all_threats as [|t rest IH]; simpl.
  - apply benign_Ok.
  - rewrite radius_in_degrees_Ok; simpl.
    apply benign_bind; [apply benign_euclid|]. intros d _.
    apply benign_if; [apply benign_Ok | apply IH].
Qed.

Lemma benign_detour_around (s e : point F) c all_threats :
  benign (detour_around s e c all_threats).
Proof.
  unfold detour_around.
  apply benign_bind; [apply benign_perp_vector|]. intros p _.
  rewrite detour_distance_Ok; simpl.
  apply benign_bind; [apply benign_waypoint_safe|]. intros b _.
  apply benign_if; apply benign_Ok.
Qed.

Lemma benign_detour_waypoint (s e : point F) c cs all_threats :
  benign (detour_waypoint s e (c :: cs) all_threats).
Proof.
  unfold detour_waypoint.
  apply benign_bind; [apply benign_closest_threat|]. intros t _.
  apply benign_detour_around.
Qed.

Lemma benign_plan (s e : point F) all_threats : benign (plan s e all_threats).
Proof.
  unfold plan, route_sampler.
  apply benign_bind; [apply benign_sample_route|]. intros [tor log] _; simpl.
  destruct tor as [|c cs]; [apply benign_Ok|].
  apply benign_bind; [apply benign_detour_waypoint|]. intros w _. apply benign_Ok.
Qed.

Lemma benign_cases {A : Type} (r : result A) :
  benign r -> r = Raise OverflowError \/ exists a, r = Ok a.
Proof.
  intros H. destruct r as [a|ex]; [right; now exists a|].
  left. now rewrite (H ex eq_refl).
Qed.

(** [min] keeps the first of the least. *)
Lemma min_from_first_least (key : threat F -> result F) l : forall pre best kbest post c,
  key best = Ok kbest ->
  (forall t kt, In t pre -> key t = Ok kt -> fleb kt kbest = false) ->
  (forall t kt, In t post -> key t = Ok kt -> fltb kt kbest = false) ->
  min_from key best kbest l = Ok c ->
  first_least key (pre ++ best :: post ++ l) c.
Proof.
  induction l as [|t rest IH]; intros pre best kbest post c Hbest Hpre Hpost; simpl.
  - intros [= <-]. exists pre, post, kbest. rewrite app_nil_r. auto.
  - intros H. apply bind_Ok in H as (k & Hk & H).
    destruct (fltb k kbest) eqn:Hlt.
    + replace (pre ++ best :: post ++ t :: rest)
        with ((pre ++ best :: post) ++ t :: [] ++ rest)
        by (rewrite <- app_assoc; reflexivity).
      apply (IH _ _ k); trivial; [|intros u ku []].
      intros u ku Hu Hku. destruct (fleb ku k) eqn:Hle; [|reflexivity].
      pose proof (le_lt_trans _ _ _ Hle Hlt) as Hu_lt.
      apply in_app_or in Hu as [Hu|[<-|Hu]].
      * apply lt_le in Hu_lt. rewrite (Hpre u ku Hu Hku) in Hu_lt. discriminate.
      * assert (ku = kbest) by congruence. subst ku.
        rewrite (lt_not_ge _ _ Hlt) in Hle. discriminate.
      * rewrite (Hpost u ku Hu Hku) in Hu_lt. discriminate.
    + replace (pre ++ best :: post ++ t :: rest)
        with (pre ++ best :: (post ++ [t]) ++ rest)
        by (rewrite <- (app_assoc post); reflexivity).
      apply (IH _ _ kbest); trivial.
      intros u ku Hu Hku. apply in_app_or in Hu as [Hu|[<-|[]]]; [eauto|].
      congruence.
Qed.

Lemma py_min_first_least (key : threat F -> result F) l c :
  py_min key l = Ok c -> first_least key l c.
Proof.
  destruct l as [|t rest]; simpl; [discriminate|].
  intros H. apply bind_Ok in H as (k & Hk & H).
  apply (min_from_first_least key rest [] t k [] c); trivial; intros u ku [].
Qed.

Lemma min_from_defined (key : threat F -> result F) l :
  (forall t, In t l -> exists k, key t = Ok k) ->
  forall best kbest, exists c, min_from key best kbest l = Ok c.
Proof.
  induction l as [|t rest IH]; intros Hdef best kbest; simpl; [eauto|].
  destruct (Hdef t) as [k ->]; [now left|]. simpl.
  destruct (fltb k kbest); apply IH; intros u Hu; apply Hdef; now right.
Qed.

Lemma py_min_defined (key : threat F -> result F) l :
  l <> [] -> (forall t, In t l -> exists k, key t = Ok k) ->
  exists c, py_min key l = Ok c.
Proof.
  destruct l as [|t rest]; [congruence|]. intros _ Hdef. simpl.
  destruct (Hdef t) as [k ->]; [now left|]. simpl.
  apply min_from_defined. intros u Hu. apply Hdef. now right.
Qed.

(** [min] computes the key of every item. *)
Lemma min_from_Ok_defined (key : threat F -> result F) l : forall best kbest c,
  min_from key best kbest l = Ok c -> forall t, In t l -> exists k, key t = Ok k.
Proof.
  induction l as [|u rest IH]; intros best kbest c H t Ht; [destruct Ht|].
  cbn [min_from] in H. apply bind_Ok in H as (k & Hk & H).
  destruct Ht as [<-|Ht]; [now exists k|].
  destruct (fltb k kbest); exact (IH _ _ _ H t Ht).
Qed.

Lemma py_min_Ok_defined (key : threat F -> result F) l c :
  py_min key l = Ok c -> forall t, In t l -> exists k, key t = Ok k.
Proof.
  destruct l as [|u rest]; [discriminate|]. cbn [py_min]. intros H t Ht.
  apply bind_Ok in H as (k & Hk & H).
  destruct Ht as [<-|Ht]; [now exists k|].
  exact (min_from_Ok_defined key rest _ _ _ H t Ht).
Qed.


(** A route none of whose check points is within the margin of a threat. *)
Lemma route_sampler_clear (s e : point F) all_threats :
  (forall i t, In i range_1_101 -> In t all_threats ->
     margin_hit (fst (sample_point s e i)) (snd (sample_point s e i)) t = Ok false) ->
  exists log, route_sampler s e all_threats = Ok ([], log).
Proof.
  intros H. unfold route_sampler. rewrite sample_route_first_hits.
  assert (Hall : forall range tor, (forall i, In i range -> In i range_1_101) ->
            exists hits, first_hits s e all_threats range = Ok hits /\
                         conflicts_from tor hits = tor).
  { induction range as [|i rest IH]; intros tor Hsub; simpl.
    - now exists [].
    - rewrite check_point_Ok; simpl.
      rewrite first_hit_None by (intros t Ht; apply H; [apply Hsub; now left | exact Ht]).
      simpl. destruct (IH tor) as (hits & -> & Hc); [intros j Hj; apply Hsub; now right|].
      simpl. eexists; split; [reflexivity|]. exact Hc. }
  destruct (Hall range_1_101 [] (fun i Hi => Hi)) as (hits & -> & Hc).
  simpl. rewrite Hc. eauto.
Qed.

End Outcome.

(** ** Python floats meet the laws

    Read off [SpecFloat], the specification of the primitive operations. *)

Lemma b64_SF_zero : Prim2SF (b64_fromZ 0) = S754_zero false.
Proof. reflexivity. Qed.

Lemma b64_SF_infinity : Prim2SF infinity = S754_infinity false.
Proof. reflexivity. Qed.

Lemma SFcompare_swap x y :
  SFcompare y x = match SFcompare x y with Some c => Some (CompOpp c) | None => None end.
Proof.
  destruct x as [sx|sx| |sx mx ex], y as [sy|sy| |sy my ey]; simpl;
    try reflexivity; try (destruct sx; reflexivity); try (destruct sy; reflexivity);
    try (destruct sx, sy; reflexivity).
  change (Pos.compare_cont Eq) with Pos.compare.
  destruct sx, sy; simpl; try reflexivity;
    rewrite (Z.compare_antisym ex ey), (Pos.compare_antisym mx my);
    destruct (ex ?= ey)%Z; simpl; try reflexivity;
    destruct (mx ?= my)%positive; reflexivity.
Qed.

Lemma SFcompare_le_lt x y z :
  SFcompare x y = Some Lt \/ SFcompare x y = Some Eq ->
  SFcompare y z = Some Lt -> SFcompare x z = Some Lt.
Proof.
  destruct x as [sx|sx| |sx mx ex], y as [sy|sy| |sy my ey], z as [sz|sz| |sz mz ez];
    simpl; intros [H1|H1] H2; try discriminate;
    try (destruct sx; try discriminate; try reflexivity);
    try (destruct sy; try discriminate; try reflexivity);
    try (destruct sz; try discriminate; try reflexivity).
  all: revert H1 H2.
  all: change (Pos.compare_cont Eq) with Pos.compare.
  all: destruct (Z.compare_spec ex ey), (Z.compare_spec ey ez), (Z.compare_spec ex ez);
       subst; try lia; try discriminate; try reflexivity.
  all: destruct (Pos.compare_spec mx my), (Pos.compare_spec my mz), (Pos.compare_spec mx mz);
       subst; simpl; try lia; try discriminate; try reflexivity.
Qed.

Lemma SFcompare_refl x : x <> S754_nan -> SFcompare x x = Some Eq.
Proof.
  destruct x as [s|s| |s m e]; simpl; intros H; try congruence.
  - now destruct s.
  - change (Pos.compare_cont Eq) with Pos.compare.
    destruct s; now rewrite Z.compare_refl, Pos.compare_refl.
Qed.

(** Rounding a magnitude with the sign [+] gives nothing below zero. *)
Lemma round_aux_not_negative m e l :
  SFltb (binary_round_aux prec emax false m e l) (S754_zero false) = false.
Proof.
  unfold binary_round_aux.
  destruct (shr_fexp prec emax m e l) as [mrs e'].
  destruct (shr_fexp prec emax _ e' loc_Exact) as [mrs2 e2].
  destruct (shr_m mrs2); try reflexivity.
  now destruct (e2 <=? emax - prec)%Z.
Qed.

Lemma b64_lt_not_ge (a b : float) :
  PrimFloat.ltb a b = true -> PrimFloat.leb b a = false.
Proof.
  rewrite FloatAxioms.ltb_spec, FloatAxioms.leb_spec. unfold SFltb, SFleb.
  rewrite (SFcompare_swap (Prim2SF a) (Prim2SF b)).
  now destruct (SFcompare (Prim2SF a) (Prim2SF b)) as [[]|].
Qed.

Lemma b64_lt_le (a b : float) : PrimFloat.ltb a b = true -> PrimFloat.leb a b = true.
Proof.
  rewrite FloatAxioms.ltb_spec, FloatAxioms.leb_spec. unfold SFltb, SFleb.
  now destruct (SFcompare (Prim2SF a) (Prim2SF b)) as [[]|].
Qed.

Lemma b64_le_lt_trans (a b c : float) :
  PrimFloat.leb a b = true -> PrimFloat.ltb b c = true -> PrimFloat.ltb a c = true.
Proof.
  rewrite FloatAxioms.leb_spec, !FloatAxioms.ltb_spec. unfold SFltb, SFleb. intros H1 H2.
  rewrite (SFcompare_le_lt (Prim2SF a) (Prim2SF b) (Prim2SF c)); trivial.
  - destruct (SFcompare (Prim2SF a) (Prim2SF b)) as [[]|]; auto; discriminate.
  - destruct (SFcompare (Prim2SF b) (Prim2SF c)) as [[]|]; auto; discriminate.
Qed.

Lemma b64_positive_nonzero (m : float) :
  PrimFloat.ltb (b64_fromZ 0) m = true -> PrimFloat.eqb m (b64_fromZ 0) = false.
Proof.
  rewrite FloatAxioms.ltb_spec, FloatAxioms.eqb_spec. unfold SFltb, SFeqb.
  rewrite (SFcompare_swap (Prim2SF (b64_fromZ 0)) (Prim2SF m)).
  now destruct (SFcompare (Prim2SF (b64_fromZ 0)) (Prim2SF m)) as [[]|].
Qed.

Lemma b64_SF_is_nan x : Prim2SF x = S754_nan <-> is_nan x = true.
Proof.
  unfold is_nan. rewrite FloatAxioms.eqb_spec. unfold SFeqb. split.
  - now intros ->.
  - intros H. destruct (Prim2SF x) eqn:Hx; trivial; exfalso;
      rewrite SFcompare_refl in H by discriminate; discriminate.
Qed.

Lemma b64_not_nan x : is_nan x = false <-> Prim2SF x <> S754_nan.
Proof.
  rewrite <- Bool.not_true_iff_false. now rewrite b64_SF_is_nan.
Qed.

Lemma b64_abs_not_negative (x : float) : PrimFloat.ltb (abs x) (b64_fromZ 0) = false.
Proof.
  rewrite FloatAxioms.ltb_spec, FloatAxioms.abs_spec, b64_SF_zero.
  now destruct (Prim2SF x) as [s|s| |s m e].
Qed.

Lemma b64_abs_positive (x : float) :
  is_nan x = false -> PrimFloat.eqb x 0 = false -> PrimFloat.ltb 0 (abs x) = true.
Proof.
  intros Hnan Hz. apply b64_not_nan in Hnan. revert Hz.
  rewrite FloatAxioms.eqb_spec, FloatAxioms.ltb_spec, FloatAxioms.abs_spec.
  change (Prim2SF 0) with (S754_zero false).
  destruct (Prim2SF x) as [s|s| |s m e]; simpl; try congruence; trivial.
  unfold SFeqb; simpl. discriminate.
Qed.

(** The square of [**] is not negative, whatever the library. *)
Lemma b64_square_not_negative {libm : Libm} (x : float) :
  PrimFloat.ltb (b64_square x) (b64_fromZ 0) = false.
Proof.
  unfold b64_square.
  destruct (is_nan x) eqn:Hnan.
  - apply b64_SF_is_nan in Hnan. now rewrite FloatAxioms.ltb_spec, Hnan.
  - destruct (is_infinity x); [apply b64_abs_not_negative|].
    destruct (PrimFloat.eqb x 0) eqn:Hz; [reflexivity|].
    destruct (PrimFloat.eqb (abs x) 1); [reflexivity|].
    apply pow_2_not_negative. now apply b64_abs_positive.
Qed.

(** So is the correctly rounded square. *)
Lemma b64_mul_self_not_negative (x : float) :
  PrimFloat.ltb (PrimFloat.mul x x) 0 = false.
Proof.
  change 0%float with (b64_fromZ 0).
  rewrite FloatAxioms.ltb_spec, FloatAxioms.mul_spec, b64_SF_zero. unfold SF64mul.
  destruct (Prim2SF x) as [s|s| |s m e]; simpl; try reflexivity.
  - now destruct s.
  - replace (xorb s s) with false by now destruct s.
    apply round_aux_not_negative.
Qed.

Lemma b64_sum_not_negative (a b : float) :
  PrimFloat.ltb a (b64_fromZ 0) = false -> PrimFloat.ltb b (b64_fromZ 0) = false ->
  PrimFloat.ltb (PrimFloat.add a b) (b64_fromZ 0) = false.
Proof.
  rewrite !FloatAxioms.ltb_spec, FloatAxioms.add_spec, b64_SF_zero. unfold SF64add.
  destruct (Prim2SF a) as [sa|sa| |sa ma ea], (Prim2SF b) as [sb|sb| |sb mb eb];
    simpl; intros Ha Hb; try reflexivity; try assumption;
    try (destruct sa; try discriminate); try (destruct sb; try discriminate);
    try reflexivity.
  unfold binary_normalize, binary_round; simpl.
  destruct (shl_align _ _ _) as [mz ez]. apply round_aux_not_negative.
Qed.

#[export] Instance binary64_laws {libm : Libm} : ArithLaws float.
Proof.
  constructor.
  - reflexivity.
  - reflexivity.
  - reflexivity.
  - exact b64_positive_nonzero.
  - exact b64_square_not_negative.
  - exact b64_sum_not_negative.
  - exact b64_lt_not_ge.
  - exact b64_lt_le.
  - exact b64_le_lt_trans.
Qed.

(** A C library whose [pow(x, 2.0)] is the correctly rounded square [x * x].
    The examples, the witnesses and the counterexamples below are computed
    with it. *)
#[export] Instance rounded_square : Libm := {|
  pow_2 x := PrimFloat.mul x x;
  pow_2_not_negative x _ := b64_mul_self_not_negative x
|}.

(** *** Zeros, for the route of length zero *)

Lemma b64_finite_cases x :
  is_finite x = true ->
  (exists s, Prim2SF x = S754_zero s) \/ (exists s m e, Prim2SF x = S754_finite s m e).
Proof.
  unfold is_finite, is_nan, is_infinity.
  rewrite !FloatAxioms.eqb_spec, FloatAxioms.abs_spec, b64_SF_infinity.
  destruct (Prim2SF x) as [s|s| |s m e]; simpl; intros H; try discriminate.
  - left. now exists s.
  - now destruct s.
  - right. now exists s, m, e.
Qed.

Lemma b64_eqb_zero x : is_zero x -> PrimFloat.eqb x (b64_fromZ 0) = true.
Proof. intros [s H]. rewrite FloatAxioms.eqb_spec, H, b64_SF_zero. now destruct s. Qed.

(** [end - start] for a finite [start] and [start == end]. *)
Lemma b64_eqb_finite_sub x y :
  is_finite x = true -> PrimFloat.eqb x y = true -> is_zero (PrimFloat.sub y x).
Proof.
  intros Hx. rewrite FloatAxioms.eqb_spec. unfold is_zero, SFeqb.
  rewrite FloatAxioms.sub_spec. unfold SF64sub.
  destruct (b64_finite_cases x Hx) as [[s ->]|(s & m & e & ->)];
    destruct (Prim2SF y) as [sy|sy| |sy my ey]; simpl; try discriminate;
    try (destruct s; discriminate); try (destruct sy; discriminate).
  - intros _. destruct sy, s; eauto.
  - change (Pos.compare_cont Eq) with Pos.compare.
    destruct s, sy; try discriminate;
      destruct (Z.compare_spec e ey); try discriminate;
      destruct (Pos.compare_spec m my); try discriminate; subst; intros _;
      rewrite Z.sub_diag; simpl; eauto.
Qed.

Lemma b64_zero_opp z : is_zero z -> is_zero (PrimFloat.opp z).
Proof. intros [s H]. unfold is_zero. rewrite FloatAxioms.opp_spec, H. simpl. eauto. Qed.

Lemma b64_zero_not_infinity z : is_zero z -> is_infinity z = false.
Proof.
  intros [s H]. unfold is_infinity.
  rewrite FloatAxioms.eqb_spec, FloatAxioms.abs_spec, H, b64_SF_infinity. reflexivity.
Qed.

Lemma b64_zero_add a b : is_zero a -> is_zero b -> is_zero (PrimFloat.add a b).
Proof.
  intros [sa Ha] [sb Hb]. unfold is_zero. rewrite FloatAxioms.add_spec, Ha, Hb.
  destruct sa, sb; simpl; eauto.
Qed.

Lemma b64_zero_sqrt z : is_zero z -> is_zero (PrimFloat.sqrt z).
Proof. intros [s H]. unfold is_zero. rewrite FloatAxioms.sqrt_spec, H. simpl. eauto. Qed.

Lemma b64_zero_not_negative z : is_zero z -> PrimFloat.ltb z (b64_fromZ 0) = false.
Proof. intros [s H]. now rewrite FloatAxioms.ltb_spec, H, b64_SF_zero. Qed.

Lemma b64_zero_not_positive z : is_zero z -> PrimFloat.ltb (b64_fromZ 0) z = false.
Proof. intros [s H]. now rewrite FloatAxioms.ltb_spec, H, b64_SF_zero. Qed.

Lemma b64_zero_mul_finite z d :
  is_zero z -> is_finite d = true -> is_zero (PrimFloat.mul z d).
Proof.
  intros [s H] Hd. unfold is_zero. rewrite FloatAxioms.mul_spec, H.
  destruct (b64_finite_cases d Hd) as [[sd ->]|(sd & m & e & ->)]; simpl; eauto.
Qed.

Lemma b64_add_zero c z :
  is_finite c = true -> is_zero z -> PrimFloat.eqb (PrimFloat.add c z) c = true.
Proof.
  intros Hc [s H]. rewrite FloatAxioms.eqb_spec, FloatAxioms.add_spec, H.
  destruct (b64_finite_cases c Hc) as [[sc ->]|(sc & m & e & ->)]; simpl.
  - now destruct sc, s.
  - unfold SFeqb. now rewrite SFcompare_refl.
Qed.

Lemma b64_sub_zero c z :
  is_finite c = true -> is_zero z -> PrimFloat.eqb (PrimFloat.sub c z) c = true.
Proof.
  intros Hc [s H]. rewrite FloatAxioms.eqb_spec, FloatAxioms.sub_spec, H.
  destruct (b64_finite_cases c Hc) as [[sc ->]|(sc & m & e & ->)]; simpl.
  - now destruct sc, s.
  - unfold SFeqb. now rewrite SFcompare_refl.
Qed.

(** * The claims

    The statements are about [plan64] and its parts at the instance
    [binary64], that is, about the code as Python runs it, with any C library
    [libm] behind [**].  The statements without variables (the examples that
    apply a theorem, and the inputs on which a claim fails) are computed with
    the library [rounded_square]. *)

(** ** C1: what the Route Sampler tests and what it lists *)





(** ** C2: the safety re-check and the opposite side *)

(** C2, as amended.  Let the conflict list be non-empty, [closest] the
    selected region, [perp] the offset direction and
    [d = radius / 111320 * 2] the offset distance, so that the primary
    candidate is the centre plus [perp] times [d] and the opposite-side
    candidate the centre minus [perp] times [d].  The safety re-check tests
    the primary candidate against the regions of the full threat list in
    order, by plain containment: distance [<=] radius / 111320, no margin.
    - If it contains the candidate in a region [t] after computing that it
      does not in the regions before [t], the planner returns the
      opposite-side candidate; the regions after [t] are not looked at and
      the opposite-side candidate is not tested.
    - If it computes of every region that it does not contain the candidate,
      the planner returns the primary candidate.
    - If a test raises (the square of a difference overflows) after the tests
      before it were computed and false, the planner raises that
      [OverflowError] and returns nothing. *)
Theorem safety_recheck_fallback :
  forall {libm : Libm} (start_point end_point : point float)
         (all_threats : list (threat float)) st closest perp,
    route_sampler start_point end_point all_threats = Ok st ->
    closest_threat start_point end_point (fst st) = Ok closest ->
    perp_vector start_point end_point = Ok perp ->
    let d := (radius closest / 111320 * 2)%float in
    let primary := (lat closest + fst perp * d, lng closest + snd perp * d)%float in
    let opposite := (lat closest - fst perp * d, lng closest - snd perp * d)%float in
    let contains t (w : point float) :=
      distance <- euclid (fst w) (snd w) (lat t) (lng t) ;;
      Ok (distance <=? radius t / 111320)%float in
    (forall before t after,
       all_threats = before ++ t :: after ->
       (forall u, In u before -> contains u primary = Ok false) ->
       contains t primary = Ok true ->
       plan64 start_point end_point all_threats = Ok [start_point; opposite; end_point]) /\
    ((forall t, In t all_threats -> contains t primary = Ok false) ->
     plan64 start_point end_point all_threats = Ok [start_point; primary; end_point]) /\
    (forall before t after e,
       all_threats = before ++ t :: after ->
       (forall u, In u before -> contains u primary = Ok false) ->
       contains t primary = Raise e ->
       e = OverflowError /\
       plan64 start_point end_point all_threats = Raise OverflowError).
Proof.
  intros libm s e ths st c p Hst Hc Hp d primary opposite contains.
  pose proof (plan_detour s e ths st c p d Hst Hc Hp (detour_distance_Ok c)) as Hplan.
  change (waypoint_primary c p d) with primary in Hplan.
  change (waypoint_opposite c p d) with opposite in Hplan.
  assert (Hinside : forall t, inside primary t = contains t primary).
  { intros t. unfold inside. now rewrite radius_in_degrees_Ok. }
  unfold plan64. split; [|split].
  - intros before t after Heq Hbefore Ht.
    rewrite Hplan, (waypoint_safe_first_inside primary ths before t after Heq).
    + reflexivity.
    + intros u Hu. rewrite Hinside. now apply Hbefore.
    + now rewrite Hinside.
  - intros Hout. rewrite Hplan, (waypoint_safe_outside primary ths).
    + reflexivity.
    + intros t Ht. rewrite Hinside. now apply Hout.
  - intros before t after ex Heq Hbefore Hraise.
    assert (Hex : ex = OverflowError).
    { apply (benign_bind (euclid (fst primary) (snd primary) (lat t) (lng t))
               (fun distance => Ok (distance <=? radius t / 111320)%float));
        [apply benign_euclid | intros distance _; apply benign_Ok | exact Hraise]. }
    subst ex. split; [reflexivity|].
    rewrite Hplan, Heq. clear Hplan Heq.
    induction before as [|u before IH]; cbn [app].
    + now rewrite waypoint_safe_cons, Hinside, Hraise.
    + rewrite waypoint_safe_cons, Hinside, (Hbefore u) by now left. cbn [bind].
      apply IH. intros v Hv. apply Hbefore. now right.
Qed.

(** The fallback scenario: on the one-degree segment the primary candidate
    around [zone_mid] is [(-0.0898.., 0.5)]; it is outside [zone_mid] and
    inside [zone_side], so the route goes through the opposite candidate
    [(0.0898.., 0.5)]. *)
Lemma safety_recheck_fallback_witness :
  plan64 Scenario.origin Scenario.east [Scenario.zone_mid; Scenario.zone_side] =
  Ok [Scenario.origin; (0.089831117499101693, 0.5)%float; Scenario.east].
Proof.
  refine (proj1 (safety_recheck_fallback Scenario.origin Scenario.east
            [Scenario.zone_mid; Scenario.zone_side] _ Scenario.zone_mid
            (-1, 0)%float _ _ _)
            [Scenario.zone_mid] Scenario.zone_side [] _ _ _).
  - by_computation.
  - by_computation.
  - by_computation.
  - reflexivity.
  - intros u [<-|[]]. by_computation.
  - by_computation.
Defined.

(** C2 fails as stated.  From [(0, 0)] to [(0, 0.001)] with [zone_near] on
    the route and [zone_remote] at latitude [1e200]: the primary candidate
    around [zone_near] is [(-0.00898.., 0.0005)], outside [zone_near] (the
    test is computed and false) and about [1e200] degrees from the centre of
    [zone_remote], whose angular radius is [0.0045]; it is outside every
    region.  The planner does not return it: the test against [zone_remote]
    squares the difference of the latitudes and raises [OverflowError].
    With [zone_near] alone the primary candidate is returned. *)
Lemma safety_recheck_overflow :
  exists log primary,
    route_sampler Scenario.origin (0, 0.001)%float [Scenario.zone_near; Scenario.zone_remote]
      = Ok ([Scenario.zone_near], log) /\
    closest_threat Scenario.origin (0, 0.001)%float [Scenario.zone_near]
      = Ok Scenario.zone_near /\
    perp_vector Scenario.origin (0, 0.001)%float = Ok (-1, 0)%float /\
    primary = (0 + (-1) * (500 / 111320 * 2), 0.0005 + 0 * (500 / 111320 * 2))%float /\
    primary = (-0.0089831117499101689, 0.0005)%float /\
    inside primary Scenario.zone_near = Ok false /\
    (radius Scenario.zone_remote / 111320 <?
       abs (fst primary - lat Scenario.zone_remote))%float = true /\
    plan64 Scenario.origin (0, 0.001)%float [Scenario.zone_near; Scenario.zone_remote]
      = Raise OverflowError /\
    plan64 Scenario.origin (0, 0.001)%float [Scenario.zone_near]
      = Ok [Scenario.origin; primary; (0, 0.001)%float].
Proof.
  eexists. eexists.
  split; [by_computation|].
  split; [by_computation|].
  split; [by_computation|].
  split; [reflexivity|].
  split; [by_computation|].
  split; [by_computation|].
  split; [by_computation|].
  split; by_computation.
Qed.

(** ** C3: the primary candidate *)

(** C3, as amended.  Whenever the computed perpendicular magnitude [m] is
    positive, the offset direction is [(-d_lng, d_lat)] divided by [m], the
    offset distance is [(radius / 111320) * 2], and the primary candidate that
    the safety re-check examines is the centre of the selected region plus
    direction times offset distance. *)
Theorem primary_waypoint_normalized :
  forall {libm : Libm} (start_point end_point : point float) (closest : threat float) (m : float)
         (all_threats : list (threat float)),
    perp_magnitude start_point end_point = Ok m -> (0 <? m)%float = true ->
    let d_lat := (fst end_point - fst start_point)%float in
    let d_lng := (snd end_point - snd start_point)%float in
    let unit := ((- d_lng) / m, d_lat / m)%float in
    let offset := (radius closest / 111320 * 2)%float in
    let primary :=
      (lat closest + fst unit * offset, lng closest + snd unit * offset)%float in
    perp_vector start_point end_point = Ok unit /\
    detour_distance closest = Ok offset /\
    detour_around start_point end_point closest all_threats =
    (safe <- waypoint_safe primary all_threats ;;
     if safe then Ok primary else Ok (waypoint_opposite closest unit offset)).
Proof.
  intros libm s e c m ths Hm Hpos d_lat d_lng unit offset primary.
  pose proof (perp_vector_normalized s e m Hm Hpos) as Hp.
  pose proof (detour_distance_Ok c) as Hd.
  split; [exact Hp|]. split; [exact Hd|].
  unfold detour_around. rewrite Hp, Hd. reflexivity.
Qed.

(** On the one-degree segment the magnitude is 1 and the direction [(-1, 0)]. *)
Lemma primary_waypoint_normalized_witness :
  perp_vector Scenario.origin Scenario.east = Ok (-1, 0)%float /\
  detour_distance Scenario.zone_mid = Ok (5000 / 111320 * 2)%float.
Proof.
  destruct (primary_waypoint_normalized Scenario.origin Scenario.east Scenario.zone_mid
              1%float [Scenario.zone_mid]) as (Hp & Hd & _).
  - by_computation.
  - by_computation.
  - split; [exact Hp | exact Hd].
Defined.

(** C3 fails as stated.  From [(0, 0)] to [(1e-200, 0)] the start and the end
    differ and [zone_origin] is on the route, but the square of [1e-200]
    underflows to 0, the magnitude is 0, and the direction stays
    [(-0, 1e-200)] where the unit perpendicular is [(-0, 1)]: the primary
    candidate is about [1.8e-202] degrees from the centre, not [0.018]. *)
Lemma primary_waypoint_underflow :
  exists log d,
    point_eqb Scenario.origin Scenario.tiny_east = false /\
    route_sampler Scenario.origin Scenario.tiny_east [Scenario.zone_origin]
      = Ok ([Scenario.zone_origin], log) /\
    closest_threat Scenario.origin Scenario.tiny_east [Scenario.zone_origin]
      = Ok Scenario.zone_origin /\
    perp_magnitude Scenario.origin Scenario.tiny_east = Ok 0%float /\
    perp_vector Scenario.origin Scenario.tiny_east = Ok (-0, 1e-200)%float /\
    ((-0) / 1e-200, 1e-200 / 1e-200)%float = (-0, 1)%float /\
    detour_distance Scenario.zone_origin = Ok d /\
    waypoint_primary Scenario.zone_origin (-0, 1e-200)%float d
      = (0, 1.7966223499820337e-202)%float /\
    waypoint_primary Scenario.zone_origin (-0, 1)%float d
      = (0, 0.017966223499820338)%float.
Proof.
  eexists. eexists.
  split; [by_computation|].
  split; [by_computation|].
  split; [by_computation|].
  split; [by_computation|].
  split; [by_computation|].
  split; [by_computation|].
  split; [by_computation|].
  split; by_computation.
Qed.

(** ** C4: the conflicting region closest to the midpoint *)

(** C4, as amended.  Take a non-empty conflict list of the Route Sampler and
    the distances of its regions to the midpoint [((start + end) / 2)].
    - If all of them are computed (no square overflows), the region
      [closest] around which the detour is built is a region of the list
      such that no region of the list is strictly nearer to the midpoint and
      no region before it in the list is as near: among equidistant regions
      the earliest is selected.  The waypoint the planner then returns is the
      centre of [closest] plus or minus the offset direction times
      [radius closest / 111320 * 2], unless the computation of the direction
      or the safety re-check raises [OverflowError].
    - If the distance of one of them raises, [min] raises [OverflowError]:
      no region is selected and the planner returns nothing. *)
Theorem closest_conflict_selected :
  forall {libm : Libm} (start_point end_point : point float)
         (all_threats : list (threat float)) st,
    route_sampler start_point end_point all_threats = Ok st ->
    fst st <> [] ->
    let mid := ((fst start_point + fst end_point) / 2,
                (snd start_point + snd end_point) / 2)%float in
    let distance_to_mid t := euclid (fst mid) (snd mid) (lat t) (lng t) in
    ((forall t, In t (fst st) -> exists k, distance_to_mid t = Ok k) ->
     exists closest before after k_closest,
       closest_threat start_point end_point (fst st) = Ok closest /\
       fst st = before ++ closest :: after /\
       distance_to_mid closest = Ok k_closest /\
       (forall t k, In t before -> distance_to_mid t = Ok k ->
                    (k <=? k_closest)%float = false) /\
       (forall t k, In t after -> distance_to_mid t = Ok k ->
                    (k <? k_closest)%float = false) /\
       (plan64 start_point end_point all_threats = Raise OverflowError \/
        exists perp,
          perp_vector start_point end_point = Ok perp /\
          let d := (radius closest / 111320 * 2)%float in
          (plan64 start_point end_point all_threats =
             Ok [start_point;
                 (lat closest + fst perp * d, lng closest + snd perp * d)%float;
                 end_point] \/
           plan64 start_point end_point all_threats =
             Ok [start_point;
                 (lat closest - fst perp * d, lng closest - snd perp * d)%float;
                 end_point]))) /\
    (forall t ex, In t (fst st) -> distance_to_mid t = Raise ex ->
       closest_threat start_point end_point (fst st) = Raise OverflowError /\
       plan64 start_point end_point all_threats = Raise OverflowError).
Proof.
  intros libm s e ths st Hst Hne mid distance_to_mid.
  assert (Hmid : midpoint s e = Ok mid) by exact (midpoint_Ok s e).
  split.
  - intros Hdef.
    destruct (py_min_defined (mid_distance mid) (fst st) Hne Hdef) as [c Hc].
    destruct (py_min_first_least _ _ _ Hc) as (l1 & l2 & kc & Heq & Hkc & H1 & H2).
    assert (Hclosest : closest_threat s e (fst st) = Ok c).
    { unfold closest_threat. rewrite Hmid. exact Hc. }
    exists c, l1, l2, kc.
    split; [exact Hclosest|].
    split; [exact Heq|]. split; [exact Hkc|]. split; [exact H1|]. split; [exact H2|].
    destruct (benign_cases _ (benign_perp_vector s e)) as [Hp|[p Hp]].
    + left. unfold plan64, plan. rewrite Hst. cbn [bind].
      destruct (fst st) as [|c0 cs]; [congruence|].
      unfold detour_waypoint. rewrite Hclosest. cbn [bind].
      unfold detour_around. now rewrite Hp.
    + unfold plan64.
      rewrite (plan_detour s e ths st c p _ Hst Hclosest Hp (detour_distance_Ok c)).
      destruct (benign_cases _ (benign_waypoint_safe
                  (waypoint_primary c p (fmul (fdiv (radius c) (fromZ 111320)) (fromZ 2))) ths))
        as [H|[safe H]]; rewrite H; cbn [bind]; [now left|].
      right. exists p. split; [exact Hp|]. cbv zeta.
      destruct safe; [left|right]; reflexivity.
  - intros t ex Ht Hraise.
    assert (Hclosest : closest_threat s e (fst st) = Raise OverflowError).
    { destruct (fst st) as [|c0 cs] eqn:Hl; [congruence|].
      destruct (benign_cases _ (benign_closest_threat s e c0 cs)) as [H|[c H]]; [exact H|].
      exfalso. unfold closest_threat in H. rewrite Hmid in H. cbn [bind] in H.
      destruct (py_min_Ok_defined _ _ _ H t Ht) as [k Hk].
      unfold mid_distance in Hk. fold (distance_to_mid t) in Hk. congruence. }
    split; [exact Hclosest|].
    unfold plan64, plan. rewrite Hst. cbn [bind].
    destruct (fst st) as [|c0 cs]; [congruence|].
    unfold detour_waypoint. now rewrite Hclosest.
Qed.

(** [zone_quarter] and [zone_three_quarters] are both at 0.25 degrees from the
    midpoint of the one-degree segment: the first of the two is selected, and
    the waypoint is [0.018] degrees to the side of its centre. *)
Lemma closest_conflict_selected_witness :
  exists before after,
    closest_threat Scenario.origin Scenario.east
      [Scenario.zone_quarter; Scenario.zone_three_quarters] = Ok Scenario.zone_quarter /\
    [Scenario.zone_quarter; Scenario.zone_three_quarters]
      = before ++ Scenario.zone_quarter :: after /\
    (euclid 0 0.5 0 0.25)%float = Ok 0.25%float /\
    (euclid 0 0.5 0 0.75)%float = Ok 0.25%float /\
    (forall t k, In t before -> (euclid 0 0.5 (lat t) (lng t))%float = Ok k ->
                 (k <=? 0.25)%float = false) /\
    (forall t k, In t after -> (euclid 0 0.5 (lat t) (lng t))%float = Ok k ->
                 (k <? 0.25)%float = false) /\
    plan64 Scenario.origin Scenario.east
      [Scenario.zone_quarter; Scenario.zone_three_quarters]
      = Ok [Scenario.origin;
            (0 + (-1) * (1000 / 111320 * 2), 0.25 + 0 * (1000 / 111320 * 2))%float;
            Scenario.east].
Proof.
  pose (st := match route_sampler Scenario.origin Scenario.east
                      [Scenario.zone_quarter; Scenario.zone_three_quarters]
               with Ok st => st | Raise _ => ([], []) end).
  assert (Hst : route_sampler Scenario.origin Scenario.east
                  [Scenario.zone_quarter; Scenario.zone_three_quarters] = Ok st)
    by (by_computation).
  assert (Hfst : fst st = [Scenario.zone_quarter; Scenario.zone_three_quarters])
    by (by_computation).
  destruct (closest_conflict_selected Scenario.origin Scenario.east
              [Scenario.zone_quarter; Scenario.zone_three_quarters] st Hst)
    as [Hselect _].
  { rewrite Hfst. discriminate. }
  destruct Hselect as (c & l1 & l2 & kc & Hc & Heq & Hk & H1 & H2 & _).
  - rewrite Hfst. intros t [<-|[<-|[]]]; eexists; by_computation.
  - rewrite Hfst in Hc, Heq.
    assert (Hq : closest_threat Scenario.origin Scenario.east
                   [Scenario.zone_quarter; Scenario.zone_three_quarters]
                 = Ok Scenario.zone_quarter) by (by_computation).
    assert (c = Scenario.zone_quarter) by congruence. subst c.
    assert (Hkc : kc = 0.25%float).
    { vm_compute in Hk. injection Hk as <-. reflexivity. }
    subst kc.
    exists l1, l2.
    split; [exact Hq|]. split; [exact Heq|].
    split; [by_computation|]. split; [by_computation|].
    split; [exact H1|]. split; [exact H2|]. by_computation.
Defined.

(** C4 fails as stated.  From [(0, 0)] to [(1e154, 0)] the midpoint is at
    latitude [5e153].  [zone_vast] (centre [9.9e151], margin [9.75e153]
    degrees) is the first hit of the sample points 1 to 99; at sample point
    100, latitude [9.90e153], it is [9.80e153] away and fails the margin
    test, and [zone_vaster] (centre [2.08e154], margin [1.1e154]) passes it
    at distance [1.09e154], whose square [1.19e308] is a float.  The conflict
    list holds both regions, all finite.  The distance of [zone_vaster] from
    the midpoint is [1.58e154]: its square is beyond the floats, [min] raises
    [OverflowError] in its key and no region is selected. *)
Lemma closest_conflict_overflow :
  exists log,
    route_sampler Scenario.origin (1e154, 0)%float
      [Scenario.zone_vast; Scenario.zone_vaster]
      = Ok ([Scenario.zone_vast; Scenario.zone_vaster], log) /\
    midpoint Scenario.origin (1e154, 0)%float = Ok (5e153, 0)%float /\
    mid_distance (5e153, 0)%float Scenario.zone_vast = Ok 4.9010000000000005e+153%float /\
    (2.080099e154 - 5e153)%float = 1.5800990000000001e+154%float /\
    (1.5800990000000001e+154 * 1.5800990000000001e+154)%float = infinity /\
    mid_distance (5e153, 0)%float Scenario.zone_vaster = Raise OverflowError /\
    closest_threat Scenario.origin (1e154, 0)%float
      [Scenario.zone_vast; Scenario.zone_vaster] = Raise OverflowError /\
    plan64 Scenario.origin (1e154, 0)%float [Scenario.zone_vast; Scenario.zone_vaster]
      = Raise OverflowError.
Proof.
  eexists.
  split; [by_computation|].
  split; [by_computation|].
  split; [by_computation|].
  split; [by_computation|].
  split; [by_computation|].
  split; [by_computation|].
  split; by_computation.
Qed.

(** ** C5: a conflict gives three points *)

(** C5, as amended.  Whenever the conflict list of the Route Sampler is not
    empty, [plan] either returns exactly the three points
    [start; detour_waypoint; end], in this order, or raises the
    [OverflowError] of a [** 2] of the Detour Synthesizer. *)
Theorem conflict_gives_three_points :
  forall {libm : Libm} (start_point end_point : point float) (all_threats : list (threat float)) st,
    route_sampler start_point end_point all_threats = Ok st ->
    fst st <> [] ->
    plan64 start_point end_point all_threats = Raise OverflowError \/
    exists waypoint_1,
      detour_waypoint start_point end_point (fst st) all_threats = Ok waypoint_1 /\
      plan64 start_point end_point all_threats = Ok [start_point; waypoint_1; end_point].
Proof.
  intros libm s e ths st Hst Hne. unfold plan64, plan. rewrite Hst; simpl.
  destruct (fst st) as [|c cs]; [congruence|].
  destruct (benign_cases _ (benign_detour_waypoint s e c cs ths)) as [H|[w H]];
    rewrite H; simpl; [now left|].
  right. now exists w.
Qed.

Lemma conflict_gives_three_points_witness :
  plan64 Scenario.origin Scenario.east [Scenario.zone_mid] = Raise OverflowError \/
  exists waypoint_1,
    detour_waypoint Scenario.origin Scenario.east [Scenario.zone_mid] [Scenario.zone_mid]
      = Ok waypoint_1 /\
    plan64 Scenario.origin Scenario.east [Scenario.zone_mid]
      = Ok [Scenario.origin; waypoint_1; Scenario.east].
Proof.
  refine (conflict_gives_three_points Scenario.origin Scenario.east [Scenario.zone_mid]
            ([Scenario.zone_mid], _) _ _).
  - by_computation.
  - discriminate.
Defined.

(** C5 fails as stated.  On the one-degree segment [zone_huge], of radius
    [1e165] metres, is on the route; the primary candidate is about [1.8e160]
    degrees away, and the safety re-check squares that: no route is returned,
    the planner raises [OverflowError]. *)
Lemma detour_overflow_after_conflict :
  exists log,
    route_sampler Scenario.origin Scenario.east [Scenario.zone_huge]
      = Ok ([Scenario.zone_huge], log) /\
    is_finite (radius Scenario.zone_huge) = true /\
    plan64 Scenario.origin Scenario.east [Scenario.zone_huge] = Raise OverflowError.
Proof.
  eexists. split; [by_computation|]. split; by_computation.
Qed.

(** ** C6: a clear route is the direct route *)

(** C6, as amended.  If at each of the 100 interior sample points (fractions
    [i/101], [i = 1..100]) the distance to every region is computed (no
    square overflows) and exceeds the region's angular radius times 1.1,
    [plan] returns exactly [start; end]; so it does for an empty threat
    list. *)
Theorem clear_route_direct :
  forall {libm : Libm} (start_point end_point : point float) (all_threats : list (threat float)),
    (forall i t, (1 <= i <= 100)%Z -> In t all_threats ->
       exists distance,
         euclid (fst (sample_point start_point end_point i))
                (snd (sample_point start_point end_point i)) (lat t) (lng t)
           = Ok distance /\
         (radius t / 111320 * 1.1 <? distance)%float = true) ->
    plan64 start_point end_point all_threats = Ok [start_point; end_point] /\
    plan64 start_point end_point [] = Ok [start_point; end_point].
Proof.
  intros libm s e ths H. unfold plan64, plan. split.
  - destruct (route_sampler_clear s e ths) as [log ->]; [|reflexivity].
    intros i t Hi Ht. apply range_1_101_In in Hi.
    destruct (H i t Hi Ht) as (d & Hd & Hlt).
    unfold margin_hit. rewrite radius_in_degrees_Ok. cbn [bind]. rewrite Hd. cbn [bind].
    f_equal. exact (b64_lt_not_ge _ _ Hlt).
  - destruct (route_sampler_clear s e []) as [log ->]; [|reflexivity].
    intros i t _ [].
Qed.

Lemma all_clear_spec {libm : Libm} s e ths :
  all_clear s e ths = true ->
  forall i t, (1 <= i <= 100)%Z -> In t ths ->
    exists distance,
      euclid (fst (sample_point s e i)) (snd (sample_point s e i)) (lat t) (lng t)
        = Ok distance /\
      (radius t / 111320 * 1.1 <? distance)%float = true.
Proof.
  unfold all_clear. intros H i t Hi Ht.
  rewrite forallb_forall in H. apply range_1_101_In in Hi.
  specialize (H i Hi). rewrite forallb_forall in H. specialize (H t Ht).
  destruct (euclid _ _ _ _) as [d|ex]; [|discriminate]. now exists d.
Qed.

(** The second scenario of the specification: a region far from the path. *)
Lemma clear_route_direct_witness :
  plan64 Scenario.origin Scenario.east [Scenario.zone_far]
    = Ok [Scenario.origin; Scenario.east] /\
  plan64 Scenario.origin Scenario.east [] = Ok [Scenario.origin; Scenario.east].
Proof.
  apply (clear_route_direct Scenario.origin Scenario.east [Scenario.zone_far]).
  apply all_clear_spec. by_computation.
Defined.

(** C6 fails as stated.  From [(1e200, 0)] to [(0, 1)] every sample point
    has a latitude of [9.9e197] or more, so that its distance from
    [zone_origin], a region at [(0, 0)] with a margin under [0.01] degrees,
    exceeds the margin by far.  The planner does not return [start; end]:
    the first margin test squares the latitude and raises
    [OverflowError]. *)
Lemma clear_route_overflow :
  forallb (fun i =>
      (radius Scenario.zone_origin / 111320 * 1.1 <?
         abs (fst (sample_point Scenario.far_start Scenario.east i)
              - lat Scenario.zone_origin))%float &&
      (9.9e197 <=? fst (sample_point Scenario.far_start Scenario.east i))%float)
    range_1_101 = true /\
  (radius Scenario.zone_origin / 111320 * 1.1 <? 0.01)%float = true /\
  euclid (fst (sample_point Scenario.far_start Scenario.east 1))
         (snd (sample_point Scenario.far_start Scenario.east 1))
         (lat Scenario.zone_origin) (lng Scenario.zone_origin) = Raise OverflowError /\
  plan64 Scenario.far_start Scenario.east [Scenario.zone_origin] = Raise OverflowError.
Proof.
  split; [by_computation|]. split; [by_computation|]. split; by_computation.
Qed.

(** ** C7: a route of length zero *)

(** [(+-0.0) ** 2] is [0.0]: CPython does not ask the library. *)
Lemma b64_py_sq_zero {libm : Libm} z :
  is_zero z -> exists y, py_sq z = Ok y /\ is_zero y.
Proof.
  intros Hz. exists 0%float. split; [|now exists false].
  assert (Hsq : b64_square z = 0%float).
  { unfold b64_square. destruct Hz as [s Hs].
    assert (Hnan : is_nan z = false) by (apply b64_not_nan; rewrite Hs; discriminate).
    rewrite Hnan, (b64_zero_not_infinity z (ex_intro _ s Hs)).
    pose proof (b64_eqb_zero z (ex_intro _ s Hs)) as Hz.
    change (b64_fromZ 0) with 0%float in Hz. now rewrite Hz. }
  unfold py_sq. cbn [fsq finf binary64]. now rewrite Hsq.
Qed.

Lemma b64_perp_magnitude_zero {libm : Libm} (s e : point float) :
  is_zero (fst (perp_raw s e)) -> is_zero (snd (perp_raw s e)) ->
  exists m, perp_magnitude s e = Ok m /\ is_zero m.
Proof.
  intros H1 H2. unfold perp_magnitude.
  destruct (b64_py_sq_zero _ H1) as (a & -> & Ha).
  destruct (b64_py_sq_zero _ H2) as (b & -> & Hb). simpl.
  exists (PrimFloat.sqrt (PrimFloat.add a b)). split.
  - unfold py_sqrt. simpl.
    now rewrite (b64_zero_not_negative _ (b64_zero_add a b Ha Hb)).
  - now apply b64_zero_sqrt, b64_zero_add.
Qed.

(** C7, as amended.  Let start and end be equal and finite, the conflict
    list non-empty with [closest] the selected region, of finite centre and
    finite offset distance.  Then the perpendicular magnitude is not positive, so the
    normalization is skipped; the offset direction is [(0, 0)]; the primary
    and the opposite-side candidate both coincide with the centre of
    [closest]; and the planner returns a route whose detour waypoint
    coincides with that centre, unless the safety re-check raises
    [OverflowError].  (Coincide: are equal under [==], which identifies [0.0]
    and [-0.0].) *)
Theorem degenerate_route_waypoint_at_center :
  forall {libm : Libm} (start_point end_point : point float) (all_threats : list (threat float))
         st closest d,
    point_eqb start_point end_point = true ->
    is_finite (fst start_point) = true -> is_finite (snd start_point) = true ->
    route_sampler start_point end_point all_threats = Ok st ->
    closest_threat start_point end_point (fst st) = Ok closest ->
    is_finite (lat closest) = true -> is_finite (lng closest) = true ->
    detour_distance closest = Ok d -> is_finite d = true ->
    let center := (lat closest, lng closest) in
    exists m perp,
      perp_magnitude start_point end_point = Ok m /\ (0 <? m)%float = false /\
      perp_vector start_point end_point = Ok perp /\
      point_eqb perp (0, 0)%float = true /\
      point_eqb (waypoint_primary closest perp d) center = true /\
      point_eqb (waypoint_opposite closest perp d) center = true /\
      (plan64 start_point end_point all_threats = Raise OverflowError \/
       exists waypoint_1,
         plan64 start_point end_point all_threats
           = Ok [start_point; waypoint_1; end_point] /\
         point_eqb waypoint_1 center = true).
Proof.
  intros libm s e ths st c d Heq Hs1 Hs2 Hst Hc Hc1 Hc2 Hd Hdfin center.
  apply andb_prop in Heq as [Heq1 Heq2].
  pose proof (b64_eqb_finite_sub _ _ Hs1 Heq1) as Hz1.
  pose proof (b64_eqb_finite_sub _ _ Hs2 Heq2) as Hz2.
  assert (Hp1 : is_zero (fst (perp_raw s e))) by (apply b64_zero_opp; exact Hz2).
  assert (Hp2 : is_zero (snd (perp_raw s e))) by exact Hz1.
  destruct (b64_perp_magnitude_zero s e Hp1 Hp2) as (m & Hm & Hmz).
  pose proof (b64_zero_not_positive m Hmz) as Hnot.
  pose proof (perp_vector_raw s e m Hm Hnot) as Hperp.
  assert (Hw1 : point_eqb (waypoint_primary c (perp_raw s e) d) center = true).
  { unfold point_eqb, waypoint_primary, center. simpl fst. simpl snd.
    apply andb_true_intro. split; apply b64_add_zero; trivial;
      now apply b64_zero_mul_finite. }
  assert (Hw2 : point_eqb (waypoint_opposite c (perp_raw s e) d) center = true).
  { unfold point_eqb, waypoint_opposite, center. simpl fst. simpl snd.
    apply andb_true_intro. split; apply b64_sub_zero; trivial;
      now apply b64_zero_mul_finite. }
  exists m, (perp_raw s e). repeat split; trivial.
  - unfold point_eqb. apply andb_true_intro.
    split; [exact (b64_eqb_zero _ Hp1) | exact (b64_eqb_zero _ Hp2)].
  - unfold plan64. rewrite (plan_detour s e ths st c _ d Hst Hc Hperp Hd).
    destruct (benign_cases _ (benign_waypoint_safe
                (waypoint_primary c (perp_raw s e) d) ths)) as [H|[safe H]];
      rewrite H; cbn [bind]; [now left|].
    right. eexists. split; [reflexivity|]. now destruct safe.
Qed.

(** Start and end both at [(0, 0.5)], the centre of [zone_mid]: the waypoint
    returned is [(0, 0.5)]. *)
Lemma degenerate_route_waypoint_at_center_witness :
  exists waypoint_1,
    plan64 Scenario.halfway Scenario.halfway [Scenario.zone_mid]
      = Ok [Scenario.halfway; waypoint_1; Scenario.halfway] /\
    point_eqb waypoint_1 (0, 0.5)%float = true.
Proof.
  pose (st := match route_sampler Scenario.halfway Scenario.halfway [Scenario.zone_mid]
               with Ok st => st | Raise _ => ([], []) end).
  destruct (degenerate_route_waypoint_at_center Scenario.halfway Scenario.halfway
              [Scenario.zone_mid] st Scenario.zone_mid (5000 / 111320 * 2)%float)
    as (m & perp & _ & _ & _ & _ & _ & _ & [Hraise|Hroute]).
  - by_computation.
  - by_computation.
  - by_computation.
  - by_computation.
  - by_computation.
  - by_computation.
  - by_computation.
  - by_computation.
  - by_computation.
  - exfalso.
    assert (Hok : plan64 Scenario.halfway Scenario.halfway [Scenario.zone_mid]
                  = Ok [Scenario.halfway; (0, 0.5)%float; Scenario.halfway])
      by by_computation.
    rewrite Hok in Hraise. discriminate Hraise.
  - exact Hroute.
Defined.

(** C7 fails as stated, with start equal to end and a conflict list that is
    not empty.
    - Start and end at [(0, 0)], [zone_beyond] listed before [zone_over].
      Every sample point is [(0, 0)]: it is [1.3e154] degrees from
      [zone_beyond] (the square, [1.69e308], is a float) and inside
      [zone_over], whose centre is [(-1e153, 0)].  The conflict list is
      [zone_over] alone, the direction is [(-0, 0)] and the primary candidate
      is the centre [(-1e153, 0)].  The safety re-check tests it against
      [zone_beyond] first, [1.4e154] degrees away: the square overflows, the
      planner raises [OverflowError] and returns no waypoint.  All the inputs
      are finite.
    - Start and end at [(0, 0.5)], the centre of a region of infinite radius.
      The offset distance is infinite, direction times distance is
      [0 * inf], a NaN, and the waypoint returned is [(nan, nan)], which
      coincides with nothing. *)
Lemma degenerate_route_off_center :
  (exists log,
     point_eqb Scenario.origin Scenario.origin = true /\
     route_sampler Scenario.origin Scenario.origin [Scenario.zone_beyond; Scenario.zone_over]
       = Ok ([Scenario.zone_over], log) /\
     perp_vector Scenario.origin Scenario.origin = Ok (-0, 0)%float /\
     waypoint_primary Scenario.zone_over (-0, 0)%float (1.2e158 / 111320 * 2)%float
       = (-1e153, 0)%float /\
     (-1e153 - 1.3e154)%float = (-1.4e154)%float /\
     (-1.4e154 * -1.4e154)%float = infinity /\
     inside (-1e153, 0)%float Scenario.zone_beyond = Raise OverflowError /\
     plan64 Scenario.origin Scenario.origin [Scenario.zone_beyond; Scenario.zone_over]
       = Raise OverflowError) /\
  (exists log waypoint_1,
     route_sampler Scenario.halfway Scenario.halfway [Scenario.zone_boundless]
       = Ok ([Scenario.zone_boundless], log) /\
     plan64 Scenario.halfway Scenario.halfway [Scenario.zone_boundless]
       = Ok [Scenario.halfway; waypoint_1; Scenario.halfway] /\
     is_nan (fst waypoint_1) = true /\ is_nan (snd waypoint_1) = true /\
     point_eqb waypoint_1 (0, 0.5)%float = false).
Proof.
  split.
  - eexists.
    split; [by_computation|].
    split; [by_computation|].
    split; [by_computation|].
    split; [by_computation|].
    split; [by_computation|].
    split; [by_computation|].
    split; by_computation.
  - eexists. eexists.
    split; [by_computation|].
    split; [by_computation|].
    split; [by_computation|].
    split; by_computation.
Qed.

(** ** C8: what the planner can raise *)

(** C8, as amended.  For every input, finite or not, the planning computation
    never raises [ZeroDivisionError] or [ValueError]: every division is by a
    nonzero constant or behind the test [perp_magnitude > 0], every square root
    is taken of a sum of two squares, and [min] is called on a non-empty list.
    It either produces a route of 2 or 3 points or raises the [OverflowError]
    of a [** 2]. *)
Theorem plan_raises_only_overflow :
  forall {libm : Libm} (start_point end_point : point float) (all_threats : list (threat float)),
    plan64 start_point end_point all_threats = Raise OverflowError \/
    exists route,
      plan64 start_point end_point all_threats = Ok route /\
      (length route = 2 \/ length route = 3).
Proof.
  intros libm s e ths. unfold plan64.
  destruct (benign_cases _ (benign_plan s e ths)) as [H|[route H]]; [now left|].
  right. exists route. split; [exact H|].
  apply plan_shape in H as [->|[w ->]]; auto.
Qed.

(** C8 fails as stated, on finite inputs with non-negative radii.  On the
    one-degree segment [zone_huge], of radius [1e165] metres, is on the route;
    the primary candidate is about [1.8e160] degrees away and the safety
    re-check squares that distance.  And a start at latitude [1e200] makes the
    first margin test square a difference of about [1e200].  Both times the
    planner raises [OverflowError]. *)
Lemma plan_overflow_finite_input :
  (is_finite (radius Scenario.zone_huge) = true /\
   (0 <=? radius Scenario.zone_huge)%float = true /\
   plan64 Scenario.origin Scenario.east [Scenario.zone_huge] = Raise OverflowError) /\
  (is_finite (fst Scenario.far_start) = true /\
   (0 <=? radius Scenario.zone_origin)%float = true /\
   plan64 Scenario.far_start Scenario.east [Scenario.zone_origin] = Raise OverflowError).
Proof. repeat split; by_computation. Qed.

(** ** C10: where the waypoint is, and when it is outside *)

Lemma SFcompare_None x y : SFcompare x y = None -> x = S754_nan \/ y = S754_nan.
Proof.
  destruct x as [sx|sx| |sx mx ex], y as [sy|sy| |sy my ey]; simpl; auto;
    try discriminate; try (destruct sx; discriminate); try (destruct sy; discriminate);
    try (destruct sx, sy; discriminate).
Qed.

(** What [not (a <= b)] says of two floats. *)
Lemma b64_leb_false (a b : float) :
  (a <=? b)%float = false ->
  (b <? a)%float = true \/ is_nan a = true \/ is_nan b = true.
Proof.
  rewrite FloatAxioms.leb_spec, FloatAxioms.ltb_spec. unfold SFleb, SFltb.
  rewrite (SFcompare_swap (Prim2SF a) (Prim2SF b)).
  destruct (SFcompare (Prim2SF a) (Prim2SF b)) as [[| |]|] eqn:Hc;
    try discriminate; intros _; [now left|].
  right. destruct (SFcompare_None _ _ Hc) as [H|H]; apply b64_SF_is_nan in H; auto.
Qed.




(** * Further properties of the planner

    Read off the loops of [create_convoy], beside the claims. *)

(** ** When the route is direct *)

Section Clearance.
Context {F : Type} {AF : Arith F} {AL : ArithLaws F}.

(** An empty conflict list: no check point had a first hit. *)
Lemma conflicts_from_nil hits : forall (tor : list (threat F)),
  conflicts_from tor hits = [] ->
  tor = [] /\ forall i h n, In (i, (h, n)) hits -> h = None.
Proof.
  induction hits as [|[i0 [h0 n0]] rest IH]; intros tor; simpl.
  - intros ->. split; [reflexivity | intros i h n []].
  - intros H. destruct (IH _ H) as [Hadd Hrest]. simpl in Hadd.
    destruct h0 as [t|].
    + exfalso. exact (add_unique_Some_nonempty tor t Hadd).
    + simpl in Hadd. split; [exact Hadd|].
      intros i h n [[= <- <- <-]|Hin]; [reflexivity | now apply (Hrest i h n)].
Qed.

Lemma route_sampler_clear_inv (s e : point F) all_threats log :
  route_sampler s e all_threats = Ok ([], log) ->
  forall i t, In i range_1_101 -> In t all_threats ->
    margin_hit (fst (sample_point s e i)) (snd (sample_point s e i)) t = Ok false.
Proof.
  unfold route_sampler. rewrite sample_route_first_hits.
  destruct (first_hits s e all_threats range_1_101) as [hits|ex] eqn:Hh; simpl; [|discriminate].
  intros [= Hc _] i t Hi Ht.
  apply conflicts_from_nil in Hc as [_ Hnone].
  destruct (first_hits_complete _ _ _ _ _ _ Hh Hi) as (p & [h n] & Hp & Hf & Hin).
  rewrite check_point_Ok in Hp. injection Hp as <-.
  rewrite (Hnone i h n Hin) in Hf.
  exact (first_hit_None_inv _ _ _ _ Hf t Ht).
Qed.

Lemma first_hits_clear (s e : point F) all_threats range :
  (forall i t, In i range -> In t all_threats ->
     margin_hit (fst (sample_point s e i)) (snd (sample_point s e i)) t = Ok false) ->
  first_hits s e all_threats range =
  Ok (map (fun i => (i, (None, length all_threats))) range).
Proof.
  induction range as [|i rest IH]; intros H; [reflexivity|].
  cbn [first_hits map]. rewrite check_point_Ok. cbn [bind].
  rewrite first_hit_None by (intros t Ht; apply H; [now left | exact Ht]).
  cbn [bind]. rewrite IH by (intros j t Hj Ht; apply H; [now right | exact Ht]).
  reflexivity.
Qed.

(** The log of a sampling that found nothing: every test, in order. *)
Lemma route_sampler_clear_log (s e : point F) all_threats log :
  route_sampler s e all_threats = Ok ([], log) ->
  log = flat_map (fun i => map (fun j => (i, j)) (seq 1 (length all_threats))) range_1_101.
Proof.
  intros Hst. pose proof (route_sampler_clear_inv s e all_threats log Hst) as Hclear.
  unfold route_sampler in Hst. rewrite sample_route_first_hits in Hst.
  rewrite (first_hits_clear s e all_threats range_1_101 Hclear) in Hst.
  cbn [bind fst snd app] in Hst.
  apply (f_equal (fun r => match r with Ok st => snd st | Raise _ => [] end)) in Hst.
  cbn beta iota in Hst. cbn [snd] in Hst. subst log.
  clear Hclear. unfold log_of. induction range_1_101 as [|i rest IH]; [reflexivity|].
  cbn [map flat_map fst snd]. now rewrite IH.
Qed.

Lemma plan_direct_inv (s e : point F) all_threats route :
  plan s e all_threats = Ok route -> length route = 2 ->
  route = [s; e] /\ exists log, route_sampler s e all_threats = Ok ([], log).
Proof.
  unfold plan. intros H Hlen. apply bind_Ok in H as [[tor log] [Hst H]]; simpl in H.
  destruct tor as [|c cs].
  - injection H as <-. split; [reflexivity | now exists log].
  - apply bind_Ok in H as [w [_ H]]. injection H as <-. discriminate.
Qed.

End Clearance.

(** X1.  When the planner returns a route of two points, lines 240-262:
    the route is [start; end]; the sampling loops have made every one of the
    100 x n margin tests, sample point by sample point and, at each, region
    by region in list order; and each test was computed without error and
    came out false: the computed distance is greater than the margin (the
    angular radius times 1.1), or the distance or the margin is a NaN, which
    is [<=] nothing.  (A NaN among the coordinates of the request gives such
    a route, see X4.) *)
Theorem direct_route_means_clear :
  forall {libm : Libm} (start_point end_point : point float)
         (all_threats : list (threat float)) route,
    plan64 start_point end_point all_threats = Ok route ->
    length route = 2 ->
    route = [start_point; end_point] /\
    route_sampler start_point end_point all_threats =
      Ok ([], flat_map (fun i => map (fun j => (i, j)) (seq 1 (length all_threats)))
                       range_1_101) /\
    forall i t, (1 <= i <= 100)%Z -> In t all_threats ->
      exists distance,
        euclid (fst (sample_point start_point end_point i))
               (snd (sample_point start_point end_point i)) (lat t) (lng t)
          = Ok distance /\
        ((radius t / 111320 * 1.1 <? distance)%float = true \/
         is_nan distance = true \/
         is_nan (radius t / 111320 * 1.1)%float = true).
Proof.
  intros libm s e ths route H Hlen.
  destruct (plan_direct_inv s e ths route H Hlen) as [-> [log Hst]].
  split; [reflexivity|]. split.
  - rewrite Hst. now rewrite (route_sampler_clear_log s e ths log Hst) at 1.
  - intros i t Hi Ht. apply range_1_101_In in Hi.
    pose proof (route_sampler_clear_inv s e ths log Hst i t Hi Ht) as Hm.
    unfold margin_hit in Hm. rewrite radius_in_degrees_Ok in Hm. cbn [bind] in Hm.
    destruct (euclid _ _ _ _) as [d|ex]; [|discriminate].
    cbn [bind] in Hm. injection Hm as Hm. exists d. split; [reflexivity|].
    exact (b64_leb_false _ _ Hm).
Qed.

(** The second scenario of the specification: [zone_far] is [14] degrees from
    sample point 50 and its margin is under [0.01]; the log has the 100 tests
    of the one region. *)
Lemma direct_route_means_clear_witness :
  exists distance,
    route_sampler Scenario.origin Scenario.east [Scenario.zone_far]
      = Ok ([], map (fun i => (i, 1%nat)) range_1_101) /\
    euclid (fst (sample_point Scenario.origin Scenario.east 50))
           (snd (sample_point Scenario.origin Scenario.east 50)) 10%float 10%float
      = Ok distance /\
    (1000 / 111320 * 1.1 <? distance)%float = true.
Proof.
  destruct (direct_route_means_clear Scenario.origin Scenario.east [Scenario.zone_far]
              [Scenario.origin; Scenario.east]) as (_ & Hlog & H).
  - by_computation.
  - reflexivity.
  - destruct (H 50%Z Scenario.zone_far) as (distance & Hd & Hcases); [lia | now left |].
    exists distance. split; [exact Hlog|]. split; [exact Hd|].
    vm_compute in Hd. injection Hd as <-.
    destruct Hcases as [Hlt|[Hnan|Hnan]]; [exact Hlt | |];
      vm_compute in Hnan; discriminate Hnan.
Defined.

(** X2.  Whether the route is direct depends on which regions are in the
    list, not on their order or number of occurrences, and regions can only
    be taken away from a clear route: if the planner returns [start; end]
    for a list, it returns [start; end] for every list made of regions of
    that list. *)
Theorem clear_route_stays_clear :
  forall {libm : Libm} (start_point end_point : point float) (all_threats fewer : list (threat float)),
    plan64 start_point end_point all_threats = Ok [start_point; end_point] ->
    (forall t, In t fewer -> In t all_threats) ->
    plan64 start_point end_point fewer = Ok [start_point; end_point].
Proof.
  intros libm s e ths fewer H Hsub.
  destruct (plan_direct_inv s e ths _ H eq_refl) as [_ [log Hst]].
  unfold plan64, plan.
  destruct (route_sampler_clear s e fewer) as [log' ->]; [|reflexivity].
  intros i t Hi Ht. exact (route_sampler_clear_inv s e ths log Hst i t Hi (Hsub t Ht)).
Qed.

Lemma clear_route_stays_clear_witness :
  plan64 Scenario.origin Scenario.east [Scenario.zone_far]
    = Ok [Scenario.origin; Scenario.east].
Proof.
  apply (clear_route_stays_clear Scenario.origin Scenario.east
           [Scenario.zone_far; mk_threat 20%float 20%float 800%float; Scenario.zone_far]).
  - by_computation.
  - intros t [<-|[]]. now left.
Defined.

(** ** The order of the conflict list *)

Lemma SFcompare_Eq_trans x y z :
  SFcompare x y = Some Eq -> SFcompare y z = Some Eq -> SFcompare x z = Some Eq.
Proof.
  destruct x as [sx| sx | |sx mx ex], y as [sy|sy| |sy my ey], z as [sz|sz| |sz mz ez];
    simpl; try discriminate; trivial;
    try (destruct sx, sy; discriminate); try (destruct sy, sz; discriminate);
    try (destruct sx; discriminate); try (destruct sy; discriminate).
  - destruct sx, sy, sz; try discriminate; trivial.
  - destruct sx, sy; try discriminate; destruct sz; try discriminate.
    + destruct (Z.compare ex ey) eqn:He1; try discriminate.
      destruct (Z.compare ey ez) eqn:He2; try discriminate.
      apply Z.compare_eq in He1, He2. subst. rewrite Z.compare_refl.
      intros H1 H2. injection H1 as H1. injection H2 as H2.
      apply (f_equal CompOpp) in H1, H2. rewrite CompOpp_involutive in H1, H2. simpl in H1, H2.
      change (Pos.compare_cont Eq) with Pos.compare in *.
      apply Pos.compare_eq in H1, H2. subst. now rewrite Pos.compare_refl.
    + destruct (Z.compare ex ey) eqn:He1; try discriminate.
      destruct (Z.compare ey ez) eqn:He2; try discriminate.
      apply Z.compare_eq in He1, He2. subst. rewrite Z.compare_refl.
      intros H1 H2. injection H1 as H1. injection H2 as H2.
      change (Pos.compare_cont Eq) with Pos.compare in *.
      apply Pos.compare_eq in H1, H2. subst. now rewrite Pos.compare_refl.
Qed.

Lemma b64_eqb_trans (a b c : float) :
  PrimFloat.eqb a b = true -> PrimFloat.eqb b c = true -> PrimFloat.eqb a c = true.
Proof.
  rewrite !FloatAxioms.eqb_spec. unfold SFeqb.
  destruct (SFcompare (Prim2SF a) (Prim2SF b)) as [[| |]|] eqn:H1; try discriminate.
  destruct (SFcompare (Prim2SF b) (Prim2SF c)) as [[| |]|] eqn:H2; try discriminate.
  now rewrite (SFcompare_Eq_trans _ _ _ H1 H2).
Qed.

Section Order.
Context {F : Type} {AF : Arith F}.

Lemma first_hit_Some_split clat clng (all_threats : list (threat F)) t n :
  first_hit clat clng all_threats = Ok (Some t, n) ->
  exists before after,
    all_threats = before ++ t :: after /\
    (forall u, In u before -> margin_hit clat clng u = Ok false) /\
    margin_hit clat clng t = Ok true.
Proof.
  revert n. induction all_threats as [|u rest IH]; intros n; simpl; [discriminate|].
  destruct (margin_hit clat clng u) as [[|]|ex] eqn:Hu; simpl; try discriminate.
  - intros [= <- <-]. exists [], rest. repeat split; trivial. intros v [].
  - destruct (first_hit clat clng rest) as [[h k]|ex]; simpl; [|discriminate].
    intros [= -> <-]. destruct (IH k eq_refl) as (before & after & -> & Hb & Ht).
    exists (u :: before), after. repeat split; trivial.
    intros v [<-|Hv]; auto.
Qed.

Lemma first_hits_indices s e (all_threats : list (threat F)) range : forall hits,
  first_hits s e all_threats range = Ok hits -> map fst hits = range.
Proof.
  induction range as [|i rest IH]; intros hits; simpl.
  - now intros [= <-].
  - destruct (check_point s e i) as [p|ex]; simpl; [|discriminate].
    destruct (first_hit (fst p) (snd p) all_threats) as [hn|ex]; simpl; [|discriminate].
    destruct (first_hits s e all_threats rest) as [hs|ex]; simpl; [|discriminate].
    intros [= <-]. simpl. now rewrite (IH hs eq_refl).
Qed.

Lemma threat_in_snoc (t u : threat F) tor :
  threat_in t (tor ++ [u]) = false -> threat_in t tor = false /\ threat_eqb u t = false.
Proof.
  unfold threat_in. rewrite existsb_app. simpl. rewrite orb_false_r.
  intros H. now apply orb_false_elim in H.
Qed.

Hypothesis feqb_trans : forall a b c : F, feqb a b = true -> feqb b c = true -> feqb a c = true.

Lemma threat_eqb_trans (a b c : threat F) :
  threat_eqb a b = true -> threat_eqb b c = true -> threat_eqb a c = true.
Proof.
  unfold threat_eqb. intros H1 H2.
  apply andb_prop in H1 as [H1 H1r]. apply andb_prop in H1 as [H1a H1b].
  apply andb_prop in H2 as [H2 H2r]. apply andb_prop in H2 as [H2a H2b].
  now rewrite (feqb_trans _ _ _ H1a H2a), (feqb_trans _ _ _ H1b H2b), (feqb_trans _ _ _ H1r H2r).
Qed.

Lemma threat_in_eqb (t u : threat F) tor :
  threat_in u tor = true -> threat_in t tor = false -> threat_eqb u t = false.
Proof.
  unfold threat_in. intros Hu Ht.
  apply existsb_exists in Hu as (v & Hv & Hvu).
  destruct (threat_eqb u t) eqn:Hut; [|reflexivity].
  assert (Hcontra : existsb (fun w => threat_eqb w t) tor = true).
  { apply existsb_exists. exists v. split; [exact Hv|]. exact (threat_eqb_trans _ _ _ Hvu Hut). }
  congruence.
Qed.

(** The regions that the fold appends, each with the check point of the hit
    that appended it. *)
Lemma conflicts_from_trace hits : forall tor : list (threat F),
  StronglySorted Z.lt (map fst hits) ->
  exists new : list (Z * threat F),
    conflicts_from tor hits = tor ++ map snd new /\
    StronglySorted Z.lt (map fst new) /\
    (length new <= length hits)%nat /\
    forall i t, In (i, t) new ->
      (exists n, In (i, (Some t, n)) hits) /\
      threat_in t tor = false /\
      forall i' u n, In (i', (Some u, n)) hits -> (i' < i)%Z -> threat_eqb u t = false.
Proof.
  induction hits as [|[i0 [h0 n0]] rest IH]; intros tor Hsorted; simpl.
  - exists []. simpl. rewrite app_nil_r.
    split; [reflexivity|]. split; [constructor|]. split; [lia|]. intros i t [].
  - simpl in Hsorted. apply StronglySorted_inv in Hsorted as [Hrest Hhead].
    rewrite Forall_forall in Hhead.
    assert (Hlater : forall i h, In (i, h) rest -> (i0 < i)%Z).
    { intros i h Hin. apply Hhead. now apply (in_map fst) in Hin. }
    destruct (IH (add_unique tor h0) Hrest) as (new & Heq & Hs & Hlen & Hnew).
    destruct h0 as [t0|]; cbn [add_unique fst snd] in *.
    + destruct (threat_in t0 tor) eqn:Hin0.
      * exists new.
        split; [exact Heq|]. split; [exact Hs|]. split; [lia|].
        intros i t H. destruct (Hnew i t H) as ((n & Hn) & Hout & Hmin).
        split; [exists n; now right|]. split; [exact Hout|].
        intros i' u n' [[= <- <- <-]|Hin'] Hlt; [|now apply (Hmin i' u n')].
        now apply threat_in_eqb with tor.
      * exists ((i0, t0) :: new). simpl.
        split; [rewrite Heq, <- app_assoc; reflexivity|].
        split.
        { constructor; [exact Hs|]. apply Forall_forall. intros i Hi.
          apply in_map_iff in Hi as ([i' t] & <- & Hi). simpl.
          destruct (Hnew i' t Hi) as ((n & Hn) & _). now apply (Hlater i' _ Hn). }
        split; [lia|].
        intros i t [[= <- <-]|H].
        -- split; [exists n0; now left|]. split; [exact Hin0|].
           intros i' u n [[= <- <- <-]|Hin'] Hlt; [lia|].
           pose proof (Hlater i' _ Hin'). lia.
        -- destruct (Hnew i t H) as ((n & Hn) & Hout & Hmin).
           apply threat_in_snoc in Hout as [Hout Hne].
           split; [exists n; now right|]. split; [exact Hout|].
           intros i' u n' [[= <- <- <-]|Hin'] Hlt; [exact Hne | now apply (Hmin i' u n')].
    + exists new.
      split; [exact Heq|]. split; [exact Hs|]. split; [lia|].
      intros i t H. destruct (Hnew i t H) as ((n & Hn) & Hout & Hmin).
      split; [exists n; now right|]. split; [exact Hout|].
      intros i' u n' [[=]|Hin'] Hlt. now apply (Hmin i' u n').
Qed.

End Order.

Lemma range_1_101_sorted : StronglySorted Z.lt range_1_101.
Proof.
  assert (H : forall len start, StronglySorted Z.lt (map Z.of_nat (seq start len))).
  { induction len as [|len IH]; intros start; simpl; constructor.
    - apply IH.
    - apply Forall_forall. intros x Hx. apply in_map_iff in Hx as (k & <- & Hk).
      apply in_seq in Hk. lia. }
  apply H.
Qed.

(** X3.  The conflict list is in the order of the route, not of the threat
    list: its regions were appended at strictly increasing sample points
    (at most one region per sample point, so at most 100 regions); each was,
    at its sample point, the first region of the threat list to pass the
    margin test; and no region equal to it had been such a first region at an
    earlier sample point. *)
Theorem conflict_list_in_route_order :
  forall {libm : Libm} (start_point end_point : point float) (all_threats : list (threat float)) st,
    route_sampler start_point end_point all_threats = Ok st ->
    let first_passing i t :=
      exists before after,
        all_threats = before ++ t :: after /\
        (forall u, In u before ->
           margin_hit (fst (sample_point start_point end_point i))
                      (snd (sample_point start_point end_point i)) u = Ok false) /\
        margin_hit (fst (sample_point start_point end_point i))
                   (snd (sample_point start_point end_point i)) t = Ok true in
    exists points : list Z,
      Forall2 (fun i t =>
        (1 <= i <= 100)%Z /\ first_passing i t /\
        forall i' u, (1 <= i' < i)%Z -> first_passing i' u -> threat_eqb u t = false)
        points (fst st) /\
      StronglySorted Z.lt points /\
      (length (fst st) <= 100)%nat.
Proof.
  intros libm s e ths st Hst first_passing.
  unfold route_sampler in Hst. rewrite sample_route_first_hits in Hst.
  destruct (first_hits s e ths range_1_101) as [hits|ex] eqn:Hh; [|discriminate].
  injection Hst as <-. cbn [fst snd].
  pose proof (first_hits_indices _ _ _ _ _ Hh) as Hidx.
  destruct (conflicts_from_trace (AF := binary64) b64_eqb_trans hits []) as (new & Heq & Hs & Hlen & Hnew).
  { rewrite Hidx. apply range_1_101_sorted. }
  simpl in Heq. rewrite Heq.
  exists (map fst new). split; [|split; [exact Hs|]].
  - clear Heq Hs Hlen.
    assert (Hall : forall i t, In (i, t) new ->
              (1 <= i <= 100)%Z /\ first_passing i t /\
              forall i' u, (1 <= i' < i)%Z -> first_passing i' u -> threat_eqb u t = false).
    { intros i t Hin. destruct (Hnew i t Hin) as ((n & Hn) & _ & Hmin).
      destruct (first_hits_In _ _ _ _ _ _ _ Hh Hn) as (Hi & p & Hp & Hf).
      rewrite check_point_Ok in Hp. injection Hp as <-.
      apply range_1_101_In in Hi. split; [exact Hi|].
      split; [exact (first_hit_Some_split _ _ _ _ _ Hf)|].
      intros i' u Hi' (before & after & Hsplit & Hb & Hu).
      assert (Hr : In i' range_1_101) by (apply range_1_101_In; lia).
      destruct (first_hits_complete _ _ _ _ _ _ Hh Hr) as (p' & hn & Hp' & Hf' & Hin').
      rewrite check_point_Ok in Hp'. injection Hp' as <-.
      rewrite (first_hit_split _ _ ths before u after Hsplit Hb Hu) in Hf'.
      injection Hf' as <-. apply (Hmin i' u _ Hin'). lia. }
    clear Hnew. induction new as [|[i t] new IH]; simpl; constructor.
    + apply Hall. now left.
    + apply IH. intros i' t' Hin. apply Hall. now right.
  - rewrite length_map. apply first_hits_indices in Hh.
    apply (f_equal (@length Z)) in Hh. rewrite length_map in Hh.
    unfold range_1_101 in Hh. rewrite length_map, length_seq in Hh. lia.
Qed.

(** [zone_three_quarters] is listed first and met second. *)
Lemma conflict_list_in_route_order_witness :
  exists points,
    Forall2 (fun i t =>
       (1 <= i <= 100)%Z /\
       margin_hit (fst (sample_point Scenario.origin Scenario.east i))
                  (snd (sample_point Scenario.origin Scenario.east i)) t = Ok true)
      points [Scenario.zone_quarter; Scenario.zone_three_quarters] /\
    StronglySorted Z.lt points.
Proof.
  pose (st := match route_sampler Scenario.origin Scenario.east
                      [Scenario.zone_three_quarters; Scenario.zone_quarter]
               with Ok st => st | Raise _ => ([], []) end).
  assert (Hst : route_sampler Scenario.origin Scenario.east
                  [Scenario.zone_three_quarters; Scenario.zone_quarter] = Ok st)
    by (by_computation).
  destruct (conflict_list_in_route_order Scenario.origin Scenario.east
              [Scenario.zone_three_quarters; Scenario.zone_quarter] st Hst)
    as (points & Hall & Hsorted & _).
  exists points. split; [|exact Hsorted].
  assert (Hfst : fst st = [Scenario.zone_quarter; Scenario.zone_three_quarters])
    by (by_computation).
  rewrite Hfst in Hall.
  revert Hall. apply Forall2_impl.
  intros i t (Hi & (before & after & _ & _ & Hhit) & _). now split.
Defined.

(** ** More on Python floats: NaN *)

Lemma shr_1_not_negative mrs : (0 <= shr_m mrs)%Z -> (0 <= shr_m (shr_1 mrs))%Z.
Proof.
  destruct mrs as [m r s]. destruct m as [|[p|p|]|p]; simpl; lia.
Qed.

Lemma iter_pos_shr_1_not_negative n : forall mrs,
  (0 <= shr_m mrs)%Z -> (0 <= shr_m (SpecFloat.iter_pos shr_1 n mrs))%Z.
Proof.
  induction n as [n IH|n IH|]; intros mrs H; simpl.
  - apply IH, IH, shr_1_not_negative, H.
  - apply IH, IH, H.
  - apply shr_1_not_negative, H.
Qed.

Lemma shr_fexp_not_negative m e l :
  (0 <= m)%Z -> (0 <= shr_m (fst (shr_fexp prec emax m e l)))%Z.
Proof.
  intros H. unfold shr_fexp, shr.
  assert (H0 : (0 <= shr_m (shr_record_of_loc m l))%Z) by (destruct l as [|[| |]]; exact H).
  destruct (fexp prec emax (Zdigits2 m + e) - e)%Z; simpl; trivial.
  now apply iter_pos_shr_1_not_negative.
Qed.

Lemma round_nearest_even_not_negative m l : (0 <= m)%Z -> (0 <= round_nearest_even m l)%Z.
Proof.
  intros H. destruct l as [|[| |]]; simpl; trivial; [destruct (Z.even m)|]; lia.
Qed.

(** Rounding a magnitude never gives a NaN. *)
Lemma round_aux_not_nan s m e l :
  (0 <= m)%Z -> binary_round_aux prec emax s m e l <> S754_nan.
Proof.
  intros H. unfold binary_round_aux.
  pose proof (shr_fexp_not_negative m e l H) as H1.
  destruct (shr_fexp prec emax m e l) as [mrs e']. simpl in H1.
  pose proof (shr_fexp_not_negative _ e' loc_Exact
                (round_nearest_even_not_negative _ (loc_of_shr_record mrs) H1)) as H2.
  destruct (shr_fexp prec emax _ e' loc_Exact) as [mrs2 e2]. simpl in H2.
  destruct (shr_m mrs2); [discriminate | | lia].
  now destruct (e2 <=? emax - prec)%Z.
Qed.

Lemma SFadd_finite_not_nan x s m e :
  x <> S754_nan -> SFadd prec emax x (S754_finite s m e) <> S754_nan.
Proof.
  destruct x as [sx|sx| |sx mx ex]; simpl; try discriminate; [congruence|]. intros _.
  unfold binary_normalize.
  destruct (cond_Zopp sx _ + cond_Zopp s _)%Z as [|p|p]; [discriminate| |];
    unfold binary_round; destruct (shl_align _ _ _) as [mz ez];
    apply round_aux_not_nan; lia.
Qed.

Lemma SFsub_finite_not_nan x s m e :
  x <> S754_nan -> SFsub prec emax x (S754_finite s m e) <> S754_nan.
Proof.
  destruct x as [sx|sx| |sx mx ex]; simpl; try discriminate; [congruence|]. intros _.
  unfold binary_normalize.
  destruct (cond_Zopp sx _ - cond_Zopp s _)%Z as [|p|p]; [discriminate| |];
    unfold binary_round; destruct (shl_align _ _ _) as [mz ez];
    apply round_aux_not_nan; lia.
Qed.

(** A number plus or minus a finite number is a number. *)
Lemma b64_add_finite_not_nan x c s m e :
  Prim2SF c = S754_finite s m e -> is_nan x = false -> is_nan (x + c) = false.
Proof.
  intros Hc Hx. apply b64_not_nan. apply b64_not_nan in Hx.
  rewrite FloatAxioms.add_spec, Hc. now apply SFadd_finite_not_nan.
Qed.

Lemma b64_sub_finite_not_nan x c s m e :
  Prim2SF c = S754_finite s m e -> is_nan x = false -> is_nan (x - c) = false.
Proof.
  intros Hc Hx. apply b64_not_nan. apply b64_not_nan in Hx.
  rewrite FloatAxioms.sub_spec, Hc. now apply SFsub_finite_not_nan.
Qed.

Lemma b64_add_nan x c : is_nan x = true -> is_nan (x + c) = true.
Proof.
  intros Hx. apply b64_SF_is_nan. apply b64_SF_is_nan in Hx.
  now rewrite FloatAxioms.add_spec, Hx.
Qed.

Lemma b64_sub_nan x c : is_nan x = true -> is_nan (x - c) = true.
Proof.
  intros Hx. apply b64_SF_is_nan. apply b64_SF_is_nan in Hx.
  now rewrite FloatAxioms.sub_spec, Hx.
Qed.

(** *** NaN *)

Lemma b64_nan_add_l x y : Prim2SF x = S754_nan -> Prim2SF (x + y) = S754_nan.
Proof. intros H. rewrite FloatAxioms.add_spec, H. reflexivity. Qed.

Lemma b64_nan_add_r x y : Prim2SF y = S754_nan -> Prim2SF (x + y) = S754_nan.
Proof. intros H. rewrite FloatAxioms.add_spec, H. now destruct (Prim2SF x). Qed.

Lemma b64_nan_sub_l x y : Prim2SF x = S754_nan -> Prim2SF (x - y) = S754_nan.
Proof. intros H. rewrite FloatAxioms.sub_spec, H. reflexivity. Qed.

Lemma b64_nan_sub_r x y : Prim2SF y = S754_nan -> Prim2SF (x - y) = S754_nan.
Proof. intros H. rewrite FloatAxioms.sub_spec, H. now destruct (Prim2SF x). Qed.

Lemma b64_nan_mul_r x y : Prim2SF y = S754_nan -> Prim2SF (x * y) = S754_nan.
Proof. intros H. rewrite FloatAxioms.mul_spec, H. now destruct (Prim2SF x). Qed.

Lemma b64_nan_sqrt x : Prim2SF x = S754_nan -> Prim2SF (PrimFloat.sqrt x) = S754_nan.
Proof. intros H. rewrite FloatAxioms.sqrt_spec, H. reflexivity. Qed.

Lemma b64_nan_leb x y : Prim2SF x = S754_nan -> (x <=? y)%float = false.
Proof. intros H. rewrite FloatAxioms.leb_spec, H. reflexivity. Qed.

(** [nan ** 2] is [nan]: CPython does not ask the library. *)
Lemma b64_nan_square {libm : Libm} x :
  Prim2SF x = S754_nan -> Prim2SF (b64_square x) = S754_nan.
Proof.
  intros H. unfold b64_square. now rewrite (proj1 (b64_SF_is_nan x) H).
Qed.

(** A check point with a NaN coordinate is at distance NaN from everything. *)
Lemma b64_nan_euclid {libm : Libm} (a b c d dist : float) :
  Prim2SF a = S754_nan \/ Prim2SF b = S754_nan ->
  euclid a b c d = Ok dist -> Prim2SF dist = S754_nan.
Proof.
  intros Hnan H. unfold euclid in H.
  apply bind_Ok in H as (x & Hx & H). apply bind_Ok in H as (y & Hy & H).
  apply py_sq_Ok in Hx, Hy. subst x y.
  rewrite py_sqrt_sum_of_squares in H. injection H as <-.
  apply b64_nan_sqrt. destruct Hnan as [Ha|Hb].
  - apply b64_nan_add_l, b64_nan_square, b64_nan_sub_l, Ha.
  - apply b64_nan_add_r, b64_nan_square, b64_nan_sub_l, Hb.
Qed.

Lemma b64_nan_margin_hit {libm : Libm} (a b : float) (t : threat float) :
  Prim2SF a = S754_nan \/ Prim2SF b = S754_nan -> margin_hit a b t <> Ok true.
Proof.
  intros Hnan H. unfold margin_hit in H.
  apply bind_Ok in H as (rd & _ & H). apply bind_Ok in H as (dist & Hd & H).
  injection H as H. now rewrite (b64_nan_leb _ _ (b64_nan_euclid _ _ _ _ _ Hnan Hd)) in H.
Qed.

Lemma b64_nan_sample (s e f : float) :
  Prim2SF s = S754_nan \/ Prim2SF e = S754_nan ->
  Prim2SF (s + f * (e - s)) = S754_nan.
Proof.
  intros [H|H].
  - now apply b64_nan_add_l.
  - now apply b64_nan_add_r, b64_nan_mul_r, b64_nan_sub_l.
Qed.

Lemma plan_nan_endpoint :
  forall {libm : Libm} (start_point end_point : point float) (all_threats : list (threat float)),
    is_nan (fst start_point) || is_nan (snd start_point) ||
    is_nan (fst end_point) || is_nan (snd end_point) = true ->
    plan64 start_point end_point all_threats = Ok [start_point; end_point] \/
    plan64 start_point end_point all_threats = Raise OverflowError.
Proof.
  intros libm s e ths Hnan. unfold plan64.
  destruct (benign_cases _ (benign_plan s e ths)) as [H|[route H]]; [now right|].
  left. rewrite H. f_equal.
  pose proof H as Hshape. apply plan_shape in Hshape as [->|[w ->]]; [reflexivity|].
  exfalso. unfold plan in H. apply bind_Ok in H as (st & Hst & H).
  destruct (fst st) as [|c cs] eqn:Hl; [discriminate|].
  destruct (route_sampler_sound s e ths st c Hst) as (_ & i & p & _ & Hp & Hhit).
  { rewrite Hl. now left. }
  rewrite check_point_Ok in Hp. injection Hp as <-.
  revert Hhit. apply b64_nan_margin_hit. simpl.
  apply orb_prop in Hnan as [Hnan|Hnan]; [apply orb_prop in Hnan as [Hnan|Hnan];
    [apply orb_prop in Hnan as [Hnan|Hnan]|]|]; apply b64_SF_is_nan in Hnan.
  - left. apply b64_nan_sample. now left.
  - right. apply b64_nan_sample. now left.
  - left. apply b64_nan_sample. now right.
  - right. apply b64_nan_sample. now right.
Qed.

(** X4.  A NaN among the four coordinates of start and end makes every
    distance of the sampling loops a NaN, which is not [<=] any margin: the
    planner then returns the direct route [start; end], NaN included, or
    raises [OverflowError]; it never plans a detour. *)
Theorem nan_endpoint_never_detours :
  forall {libm : Libm} (start_point end_point : point float) (all_threats : list (threat float)),
    is_nan (fst start_point) || is_nan (snd start_point) ||
    is_nan (fst end_point) || is_nan (snd end_point) = true ->
    plan64 start_point end_point all_threats = Ok [start_point; end_point] \/
    plan64 start_point end_point all_threats = Raise OverflowError.
Proof. exact @plan_nan_endpoint. Qed.

Lemma nan_endpoint_never_detours_witness :
  plan64 (nan, 0.5)%float Scenario.east [Scenario.zone_mid]
    = Ok [(nan, 0.5)%float; Scenario.east] \/
  plan64 (nan, 0.5)%float Scenario.east [Scenario.zone_mid] = Raise OverflowError.
Proof.
  apply (nan_endpoint_never_detours (nan, 0.5)%float Scenario.east [Scenario.zone_mid]).
  reflexivity.
Defined.

(** * The service *)

(** ** Stored floats *)

Lemma sql_real_nan x : is_nan x = true -> sql_real x = None.
Proof. unfold sql_real. now intros ->. Qed.

Lemma sql_real_number x : is_nan x = false -> sql_real x = Some (stored_value x).
Proof. unfold sql_real. now intros ->. Qed.

Lemma real_not_null_nan column x s :
  is_nan x = true ->
  real_not_null column x s =
  (Exception (IntegrityError (String.append "NOT NULL constraint failed: " column)), s).
Proof. intros H. unfold real_not_null. now rewrite (sql_real_nan x H). Qed.

Lemma real_not_null_number column x s :
  is_nan x = false -> real_not_null column x s = (Return (stored_value x), s).
Proof. intros H. unfold real_not_null. now rewrite (sql_real_number x H). Qed.

Lemma and_then_Return {A B : Type} (m : action A) (k : A -> action B) s a s' :
  m s = (Return a, s') -> and_then m k s = k a s'.
Proof. unfold and_then. now intros ->. Qed.

Lemma and_then_Exception {A B : Type} (m : action A) (k : A -> action B) s f s' :
  m s = (Exception f, s') -> and_then m k s = (Exception f, s').
Proof. unfold and_then. now intros ->. Qed.

Lemma initialize_scenario_outcomes :
  forall (location : point float) (db : database),
    let z := autoincrement (threat_zones db) in
    if is_nan (fst location) || is_nan (snd location) then
      exists message,
        request (initialize_scenario location) db =
        (Exception (HTTPException_about 500 "Could not initialize scenario: "
                      (IntegrityError message)),
         db, [])
    else
      request (initialize_scenario location) db =
      (Return "Scenario initialized successfully"%string,
       mk_database
         (mk_table
            [mk_zone_row (z + 1) (stored_value (fst location + 0.02))
                         (stored_value (snd location + 0.01)) 800 8;
             mk_zone_row (z + 2) (stored_value (fst location - 0.01))
                         (stored_value (snd location - 0.015)) 600 10]
            (z + 2))
         (mk_table [] (autoincrement (incidents db)))
         (convoys db) (waypoints db) (messages db),
       []).
Proof.
  intros [lat lng] db z. cbn [fst snd].
  unfold request, initialize_scenario, try_except. cbn [fst snd].
  destruct (is_nan lat) eqn:Hlat; cbn [orb].
  - eexists. unfold and_then at 1. cbn [execute pending stored emitted].
    unfold and_then at 1. cbn [execute pending stored emitted].
    unfold and_then at 1. unfold insert_threat_zone.
    rewrite (and_then_Exception _ _ _ _ _
               (real_not_null_nan "threat_zones.lat" _ _ (b64_add_nan lat 0.02 Hlat))).
    reflexivity.
  - destruct (is_nan lng) eqn:Hlng.
    + eexists. unfold and_then at 1. cbn [execute pending stored emitted].
      unfold and_then at 1. cbn [execute pending stored emitted].
      unfold and_then at 1. unfold insert_threat_zone.
      rewrite (and_then_Return _ _ _ _ _
                 (real_not_null_number "threat_zones.lat" _ _
                    (b64_add_finite_not_nan lat 0.02 _ _ _ eq_refl Hlat))).
      rewrite (and_then_Exception _ _ _ _ _
                 (real_not_null_nan "threat_zones.lng" _ _ (b64_add_nan lng 0.01 Hlng))).
      reflexivity.
    + unfold and_then at 1. cbn [execute pending stored emitted].
      unfold and_then at 1. cbn [execute pending stored emitted].
      unfold and_then at 1. unfold insert_threat_zone at 1.
      rewrite (and_then_Return _ _ _ _ _
                 (real_not_null_number "threat_zones.lat" _ _
                    (b64_add_finite_not_nan lat 0.02 _ _ _ eq_refl Hlat))).
      rewrite (and_then_Return _ _ _ _ _
                 (real_not_null_number "threat_zones.lng" _ _
                    (b64_add_finite_not_nan lng 0.01 _ _ _ eq_refl Hlng))).
      rewrite (and_then_Return _ _ _ _ _
                 (real_not_null_number "threat_zones.radius" 800 _ eq_refl)).
      cbn [execute pending stored emitted insert_row set_threat_zones set_incidents
           delete_all rows autoincrement threat_zones incidents convoys waypoints messages app].
      unfold and_then at 1. unfold insert_threat_zone at 1.
      rewrite (and_then_Return _ _ _ _ _
                 (real_not_null_number "threat_zones.lat" _ _
                    (b64_sub_finite_not_nan lat 0.01 _ _ _ eq_refl Hlat))).
      rewrite (and_then_Return _ _ _ _ _
                 (real_not_null_number "threat_zones.lng" _ _
                    (b64_sub_finite_not_nan lng 0.015 _ _ _ eq_refl Hlng))).
      rewrite (and_then_Return _ _ _ _ _
                 (real_not_null_number "threat_zones.radius" 600 _ eq_refl)).
      cbn [execute pending stored emitted insert_row set_threat_zones set_incidents
           delete_all rows autoincrement threat_zones incidents convoys waypoints messages app
           and_then commit ret].
      replace (autoincrement (threat_zones db) + 1 + 1)%Z with (z + 2)%Z by (unfold z; lia).
      reflexivity.
Qed.

(** ** [create_convoy] *)

Lemma database_eta db :
  mk_database (threat_zones db) (incidents db) (convoys db) (waypoints db) (messages db) = db.
Proof. now destruct db. Qed.

Lemma table_eta {row : Type} (t : table row) : mk_table (rows t) (autoincrement t) = t.
Proof. now destruct t. Qed.

Lemma insert_waypoints_numbers route : forall convoy_id i s,
  existsb nan_point route = false ->
  insert_waypoints convoy_id i route s =
  (Return tt,
   mk_session (stored s)
     (set_waypoints (pending s)
        (mk_table
           (rows (waypoints (pending s)) ++
            waypoint_rows convoy_id (autoincrement (waypoints (pending s)) + 1) i route)
           (autoincrement (waypoints (pending s)) + Z.of_nat (length route))))
     (emitted s)).
Proof.
  induction route as [|p rest IH]; intros cid i s Hnum.
  - cbn [insert_waypoints waypoint_rows length Z.of_nat ret].
    rewrite app_nil_r, Z.add_0_r, table_eta.
    unfold set_waypoints. rewrite database_eta. now destruct s.
  - cbn [existsb] in Hnum. apply orb_false_elim in Hnum as [Hp Hrest].
    unfold nan_point in Hp. apply orb_false_elim in Hp as [Hlat Hlng].
    cbn [insert_waypoints]. unfold and_then at 1. unfold insert_waypoint.
    rewrite (and_then_Return _ _ _ _ _ (real_not_null_number "waypoints.lat" _ _ Hlat)).
    rewrite (and_then_Return _ _ _ _ _ (real_not_null_number "waypoints.lng" _ _ Hlng)).
    cbn [execute insert_row pending stored emitted].
    rewrite (IH cid (i + 1)%Z _ Hrest).
    cbn [pending stored emitted set_waypoints waypoints rows autoincrement
         threat_zones incidents convoys messages waypoint_rows length].
    rewrite <- app_assoc. cbn [app].
    replace (autoincrement (waypoints (pending s)) + 1 + Z.of_nat (length rest))%Z
      with (autoincrement (waypoints (pending s)) + Z.of_nat (S (length rest)))%Z by lia.
    reflexivity.
Qed.

(** The first NaN of a route stops the inserts; the message names its
    column and depends on nothing but the route. *)
Lemma insert_waypoints_nan route :
  existsb nan_point route = true ->
  exists message, forall convoy_id i s, exists s',
    insert_waypoints convoy_id i route s = (Exception (IntegrityError message), s') /\
    stored s' = stored s /\ emitted s' = emitted s.
Proof.
  induction route as [|p rest IH]; intros Hnan; [discriminate|].
  destruct (is_nan (fst p)) eqn:Hlat.
  { eexists. intros cid i s. eexists.
    cbn [insert_waypoints]. unfold and_then at 1. unfold insert_waypoint.
    rewrite (and_then_Exception _ _ _ _ _ (real_not_null_nan "waypoints.lat" _ _ Hlat)).
    auto. }
  destruct (is_nan (snd p)) eqn:Hlng.
  { eexists. intros cid i s. eexists.
    cbn [insert_waypoints]. unfold and_then at 1. unfold insert_waypoint.
    rewrite (and_then_Return _ _ _ _ _ (real_not_null_number "waypoints.lat" _ _ Hlat)).
    rewrite (and_then_Exception _ _ _ _ _ (real_not_null_nan "waypoints.lng" _ _ Hlng)).
    auto. }
  cbn [existsb] in Hnan. unfold nan_point at 1 in Hnan. rewrite Hlat, Hlng in Hnan.
  cbn [orb] in Hnan. destruct (IH Hnan) as [m Hm]. exists m. intros cid i s.
  cbn [insert_waypoints]. unfold and_then at 1. unfold insert_waypoint.
  rewrite (and_then_Return _ _ _ _ _ (real_not_null_number "waypoints.lat" _ _ Hlat)).
  rewrite (and_then_Return _ _ _ _ _ (real_not_null_number "waypoints.lng" _ _ Hlng)).
  cbn [execute insert_row pending stored emitted].
  destruct (Hm cid (i + 1)%Z
              (mk_session (stored s)
                 (set_waypoints (pending s)
                    (mk_table
                       (rows (waypoints (pending s)) ++
                        [mk_waypoint_row (autoincrement (waypoints (pending s)) + 1) cid
                           (stored_value (fst p)) (stored_value (snd p)) i])
                       (autoincrement (waypoints (pending s)) + 1)))
                 (emitted s))) as (s' & -> & Hs & He).
  exists s'. auto.
Qed.

(** [create_convoy] up to the planner's answer. *)
Lemma create_convoy_planner {libm : Libm} (req : ConvoyRequest) (s : session) :
  create_convoy req s =
  match plan64 (req_start req) (req_end req) (all_threats_of (pending s)) with
  | Raise e => (Exception (PyError e), s)
  | Ok route_points =>
      (convoy_id <~ insert_convoy (req_name req) ;;
       commit ;~
       insert_waypoints convoy_id 0 route_points ;~
       commit ;~
       emit (convoy_update convoy_id (req_name req) route_points) ;~
       ret (mk_convoy_response convoy_id (req_name req) route_points)) s
  end.
Proof.
  unfold create_convoy. unfold and_then at 1. cbn [query].
  unfold and_then at 1.
  now destruct (plan64 (req_start req) (req_end req) (all_threats_of (pending s))).
Qed.

(** A route with a NaN: the convoy row is committed, the waypoints are not,
    and the message of the [IntegrityError] depends on the route alone. *)
Lemma create_convoy_nan_route {libm : Libm} (route : list (point float)) :
  existsb nan_point route = true ->
  exists message, forall (req : ConvoyRequest) (db : database),
    plan64 (req_start req) (req_end req) (all_threats_of db) = Ok route ->
    request (create_convoy req) db =
    (Exception (IntegrityError message),
     set_convoys db
       (mk_table
          (rows (convoys db) ++
           [mk_convoy_row (autoincrement (convoys db) + 1) (req_name req) "In-Progress"])
          (autoincrement (convoys db) + 1)),
     []).
Proof.
  intros Hnan. destruct (insert_waypoints_nan route Hnan) as [m Hm].
  exists m. intros req db Hplan.
  unfold request. rewrite create_convoy_planner. cbn [pending]. rewrite Hplan.
  unfold and_then at 1.
  cbn [insert_convoy execute insert_row pending stored emitted].
  unfold and_then at 1. cbn [commit pending stored emitted].
  match goal with
  | |- context [and_then (insert_waypoints ?cid ?i route) _ ?s] =>
      destruct (Hm cid i s) as (s' & Hrun & Hs & He);
      rewrite (and_then_Exception _ _ _ _ _ Hrun)
  end.
  now rewrite Hs, He.
Qed.

(** What [create_convoy] answers, stores and emits, by the outcome of the
    planner. *)
Lemma create_convoy_outcomes {libm : Libm} (req : ConvoyRequest) (db : database) :
  let convoy_id := (autoincrement (convoys db) + 1)%Z in
  let with_convoy :=
    set_convoys db
      (mk_table (rows (convoys db) ++ [mk_convoy_row convoy_id (req_name req) "In-Progress"])
                convoy_id) in
  match plan64 (req_start req) (req_end req) (all_threats_of db) with
  | Raise e => request (create_convoy req) db = (Exception (PyError e), db, [])
  | Ok route_points =>
      if existsb nan_point route_points then
        exists message,
          request (create_convoy req) db = (Exception (IntegrityError message), with_convoy, [])
      else
        request (create_convoy req) db =
        (Return (mk_convoy_response convoy_id (req_name req) route_points),
         set_waypoints with_convoy
           (mk_table
              (rows (waypoints db) ++
               waypoint_rows convoy_id (autoincrement (waypoints db) + 1) 0 route_points)
              (autoincrement (waypoints db) + Z.of_nat (length route_points))),
         [convoy_update convoy_id (req_name req) route_points])
  end.
Proof.
  intros convoy_id with_convoy.
  destruct (plan64 (req_start req) (req_end req) (all_threats_of db)) as [route|e] eqn:Hplan.
  - destruct (existsb nan_point route) eqn:Hnan.
    + destruct (create_convoy_nan_route route Hnan) as [m Hm].
      exists m. exact (Hm req db Hplan).
    + unfold request. rewrite create_convoy_planner. cbn [pending]. rewrite Hplan.
      unfold and_then at 1.
      cbn [insert_convoy execute insert_row pending stored emitted].
      unfold and_then at 1. cbn [commit pending stored emitted].
      fold convoy_id. fold with_convoy.
      rewrite (and_then_Return _ _ _ _ _
                 (insert_waypoints_numbers route convoy_id 0%Z _ Hnan)).
      reflexivity.
  - unfold request. rewrite create_convoy_planner. cbn [pending]. now rewrite Hplan.
Qed.

(** ** C9: the route depends on the three inputs of the planner *)

(** C9.  In the code the planner is the middle of a handler that has the
    request, with its name, and the whole database in reach.  Of all that,
    what the handler answers as its route (or the exception it answers
    instead) depends on the start, the end and the regions read from the
    database, and on nothing else: two invocations with equal start, end and
    threat-region snapshots answer equal routes, whatever the names of the
    convoys, the ids and scores of the zones, the incidents that are not
    High or Critical, and the convoys, waypoints and messages stored
    before. *)
Theorem plan_deterministic :
  forall {libm : Libm} (req req' : ConvoyRequest) (db db' : database),
    req_start req = req_start req' ->
    req_end req = req_end req' ->
    all_threats_of db = all_threats_of db' ->
    planned (fst (fst (request (create_convoy req) db))) =
    planned (fst (fst (request (create_convoy req') db'))).
Proof.
  intros libm req req' db db' Hstart Hend Hthreats.
  pose proof (create_convoy_outcomes req db) as H.
  pose proof (create_convoy_outcomes req' db') as H'.
  cbv zeta in H, H'. rewrite <- Hstart, <- Hend, <- Hthreats in H'.
  destruct (plan64 (req_start req) (req_end req) (all_threats_of db)) as [route|e] eqn:Hplan.
  - destruct (existsb nan_point route) eqn:Hnan.
    + destruct (create_convoy_nan_route route Hnan) as [m Hm].
      rewrite (Hm req db Hplan).
      rewrite (Hm req' db') by now rewrite <- Hstart, <- Hend, <- Hthreats.
      reflexivity.
    + now rewrite H, H'.
  - now rewrite H, H'.
Qed.

(** The same request under two names, on a new installation and after a
    convoy and a message have been stored: the same three points. *)
Lemma plan_deterministic_witness :
  exists waypoint_1,
    planned (fst (fst (request (create_convoy Installation.through_zone)
                               Installation.around_origin)))
      = Return [(0.02, -0.1)%float; waypoint_1; (0.02, 0.1)%float] /\
    planned (fst (fst (request (create_convoy Installation.through_zone_again)
                               Installation.in_use)))
      = Return [(0.02, -0.1)%float; waypoint_1; (0.02, 0.1)%float].
Proof.
  pose proof (plan_deterministic Installation.through_zone Installation.through_zone_again
                Installation.around_origin Installation.in_use eq_refl eq_refl) as H.
  eexists. split; [by_computation|].
  etransitivity; [symmetry; apply H; by_computation | by_computation].
Defined.

(** ** [sos] and [detect_threats] *)

Lemma insert_incident_outcomes (now : Z) (lat lng : float) (severity : String.string)
    (intensity : Z) (s : session) :
  insert_incident now lat lng severity intensity s =
  if negb (fits_int64 intensity) then (Exception (PyError OverflowError), s)
  else if is_nan lat then
    (Exception (IntegrityError "NOT NULL constraint failed: incidents.lat"), s)
  else if is_nan lng then
    (Exception (IntegrityError "NOT NULL constraint failed: incidents.lng"), s)
  else
    let id := (autoincrement (incidents (pending s)) + 1)%Z in
    (Return id,
     mk_session (stored s)
       (set_incidents (pending s)
          (mk_table
             (rows (incidents (pending s)) ++
              [mk_incident_row id (stored_value lat) (stored_value lng) intensity now severity])
             id))
       (emitted s)).
Proof.
  unfold insert_incident, integer. unfold and_then at 1.
  destruct (fits_int64 intensity); cbn [negb ret raise]; [|reflexivity].
  destruct (is_nan lat) eqn:Hlat.
  { now rewrite (and_then_Exception _ _ _ _ _ (real_not_null_nan "incidents.lat" _ _ Hlat)). }
  rewrite (and_then_Return _ _ _ _ _ (real_not_null_number "incidents.lat" _ _ Hlat)).
  destruct (is_nan lng) eqn:Hlng.
  { now rewrite (and_then_Exception _ _ _ _ _ (real_not_null_nan "incidents.lng" _ _ Hlng)). }
  rewrite (and_then_Return _ _ _ _ _ (real_not_null_number "incidents.lng" _ _ Hlng)).
  reflexivity.
Qed.

Lemma sos_outcomes (now : Z) (sid : String.string) (data : sos_data) (db : database) :
  request (sos now sid data) db =
  if negb (fits_int64 (sos_intensity data)) then (Exception (PyError OverflowError), db, [])
  else if is_nan (sos_lat data) then
    (Exception (IntegrityError "NOT NULL constraint failed: incidents.lat"), db, [])
  else if is_nan (sos_lng data) then
    (Exception (IntegrityError "NOT NULL constraint failed: incidents.lng"), db, [])
  else
    let id := (autoincrement (incidents db) + 1)%Z in
    (Return tt,
     set_incidents db
       (mk_table
          (rows (incidents db) ++
           [mk_incident_row id (stored_value (sos_lat data)) (stored_value (sos_lng data))
              (sos_intensity data) now (sos_severity data)])
          id),
     [new_incident id (sos_lat data) (sos_lng data) (sos_severity data)]).
Proof.
  unfold request, sos. unfold and_then at 1. rewrite insert_incident_outcomes.
  cbn [pending stored emitted].
  destruct (fits_int64 (sos_intensity data)); cbn [negb]; [|reflexivity].
  destruct (is_nan (sos_lat data)); [reflexivity|].
  destruct (is_nan (sos_lng data)); reflexivity.
Qed.

(** The regions for the planner, after one more incident. *)
Lemma all_threats_of_new_incident (db : database) (row : incident_row) (id : Z) :
  all_threats_of (set_incidents db (mk_table (rows (incidents db) ++ [row]) id)) =
  all_threats_of db ++
  (if high_or_critical (incident_severity row)
   then [mk_threat (incident_lat row) (incident_lng row) 500%float] else []).
Proof.
  unfold all_threats_of. cbn [set_incidents threat_zones incidents rows].
  rewrite filter_app, map_app, app_assoc. cbn [filter].
  now destruct (high_or_critical (incident_severity row)).
Qed.


Lemma py_float_parsed float_of_str v s :
  py_float float_of_str v s =
  match parsed_field float_of_str v with
  | Some x => (Return x, s)
  | None =>
      (Exception match v with
                 | Some (Text _) => PyError ValueError
                 | _ => TypeError
                 end, s)
  end.
Proof.
  destruct v as [[t|u]|]; simpl; trivial. now destruct (float_of_str t).
Qed.

Lemma detect_threats_outcomes float_of_str names (model_loaded : bool) (now : Z)
    (form_data : form) (db : database) :
  request (detect_threats float_of_str names model_loaded now form_data) db =
  if negb model_loaded then
    (Exception (HTTPException 500 "AI model is not loaded. Cannot process video."), db, [])
  else
    match parsed_field float_of_str (form_lat form_data),
          parsed_field float_of_str (form_lng form_data), form_video form_data with
    | Some lat, Some lng, Some (UploadFile video) =>
        if negb (is_opened video) then
          (Exception (HTTPException 500 "An error occurred during video analysis."), db, [])
        else
          let (detections_summary, detected) := scan_frames names (frames video) [] in
          if detected then
            if is_nan (lat + 0.005) || is_nan (lng - 0.005) then
              (Exception (HTTPException 500 "An error occurred during video analysis."),
               db, [])
            else
              let id := (autoincrement (incidents db) + 1)%Z in
              (Return (mk_detect_response
                         "Analysis complete. High severity threat detected."
                         detections_summary true),
               set_incidents db
                 (mk_table
                    (rows (incidents db) ++
                     [mk_incident_row id (stored_value (lat + 0.005))
                        (stored_value (lng - 0.005)) 8 now "High"])
                    id),
               [new_incident id (lat + 0.005)%float (lng - 0.005)%float "High"])
          else
            (Return (mk_detect_response
                       "Analysis complete. No threats were detected."
                       detections_summary false),
             db, [])
    | _, _, _ =>
        (Exception (HTTPException 500 "An error occurred during video analysis."), db, [])
    end.
Proof.
  unfold request, detect_threats.
  destruct model_loaded; cbn [negb]; [|reflexivity].
  unfold try_except, detect_threats_try. unfold and_then at 1. rewrite py_float_parsed.
  destruct (parsed_field float_of_str (form_lat form_data)) as [lat|]; [|reflexivity].
  unfold and_then at 1. rewrite py_float_parsed.
  destruct (parsed_field float_of_str (form_lng form_data)) as [lng|]; [|reflexivity].
  destruct (form_video form_data) as [[t|video]|]; cbn [falsy].
  - now destruct (String.eqb t "").
  - destruct (is_opened video); cbn [negb]; [|reflexivity].
    destruct (scan_frames names (frames video) []) as [summary detected].
    destruct detected; [|reflexivity].
    unfold and_then at 1. rewrite insert_incident_outcomes.
    change (negb (fits_int64 8)) with false. cbv iota.
    cbn [pending stored emitted].
    destruct (is_nan (lat + 0.005)); [reflexivity|].
    destruct (is_nan (lng - 0.005)); reflexivity.
  - reflexivity.
Qed.

(** X14.  Every failure of [detect_threats] is an [HTTPException] of status
    500, with one of two details, and leaves the file as it was with nothing
    emitted.  In particular the status 400 of line 126 never reaches the
    client: it is raised inside the [try] and caught by [except Exception]. *)
Theorem detect_threats_fails_with_500 :
  forall float_of_str names (model_loaded : bool) (now : Z) (form_data : form)
         (db db' : database) (f : failure) (events : list event),
    request (detect_threats float_of_str names model_loaded now form_data) db
      = (Exception f, db', events) ->
    db' = db /\ events = [] /\
    (f = HTTPException 500 "AI model is not loaded. Cannot process video." \/
     f = HTTPException 500 "An error occurred during video analysis.").
Proof.
  intros fos names model_loaded now form_data db db' f events.
  rewrite detect_threats_outcomes.
  destruct model_loaded; cbn [negb]; [|intros [= <- <- <-]; auto].
  destruct (parsed_field fos (form_lat form_data)) as [lat|]; [|intros [= <- <- <-]; auto].
  destruct (parsed_field fos (form_lng form_data)) as [lng|]; [|intros [= <- <- <-]; auto].
  destruct (form_video form_data) as [[t|video]|]; try (intros [= <- <- <-]; auto).
  destruct (is_opened video); cbn [negb]; [|intros [= <- <- <-]; auto].
  destruct (scan_frames names (frames video) []) as [summary detected].
  destruct detected; [|discriminate].
  destruct (is_nan (lat + 0.005) || is_nan (lng - 0.005)); [|discriminate].
  intros [= <- <- <-]; auto.
Qed.

(** A form with the two coordinates and no video: the test of line 125 raises
    the [HTTPException] of status 400 inside the [try], and the handler
    answers with status 500. *)
Lemma detect_threats_fails_with_500_witness :
  fst (detect_threats_try (fun _ => Some 12.5%float) (fun _ => "person"%string) 0
         (mk_form None (Some (Text "12.5")) (Some (Text "12.5")))
         (mk_session (startup_event None) (startup_event None) []))
    = Exception (HTTPException 400 "Missing data.") /\
  request (detect_threats (fun _ => Some 12.5%float) (fun _ => "person"%string) true 0
             (mk_form None (Some (Text "12.5")) (Some (Text "12.5"))))
          (startup_event None)
    = (Exception (HTTPException 500 "An error occurred during video analysis."),
       startup_event None, []) /\
  (HTTPException 500 "An error occurred during video analysis."
     = HTTPException 500 "AI model is not loaded. Cannot process video." \/
   HTTPException 500 "An error occurred during video analysis."
     = HTTPException 500 "An error occurred during video analysis.").
Proof.
  split; [reflexivity|]. split; [reflexivity|].
  destruct (detect_threats_fails_with_500 (fun _ => Some 12.5%float)
              (fun _ => "person"%string) true 0%Z
              (mk_form None (Some (Text "12.5")) (Some (Text "12.5")))
              (startup_event None) (startup_event None)
              (HTTPException 500 "An error occurred during video analysis.") [] eq_refl)
    as (_ & _ & H).
  exact H.
Defined.

(** X13.  When [detect_threats] returns, the form held a video file and
    two fields that [float] accepts, and the response carries the summary
    and the flag of the detection loop.  With the flag set, one 'new_incident'
    is emitted and the planner sees, from then on, one more region of radius
    500 at (lat + 0.005, lng - 0.005); with the flag clear the file is as
    before and nothing is emitted. *)
Theorem detect_threats_incident_reaches_planner :
  forall {libm : Libm} float_of_str names (model_loaded : bool) (now : Z) (form_data : form)
         (db db' : database) (response : detect_response) (events : list event),
    request (detect_threats float_of_str names model_loaded now form_data) db
      = (Return response, db', events) ->
    exists lat lng video,
      parsed_field float_of_str (form_lat form_data) = Some lat /\
      parsed_field float_of_str (form_lng form_data) = Some lng /\
      form_video form_data = Some (UploadFile video) /\
      scan_frames names (frames video) []
        = (detection_summary response, threat_detected response) /\
      if threat_detected response then
        all_threats_of db' =
        all_threats_of db ++
        [mk_threat (stored_value (lat + 0.005)) (stored_value (lng - 0.005)) 500%float] /\
        events = [new_incident (autoincrement (incidents db) + 1)
                    (lat + 0.005)%float (lng - 0.005)%float "High"]
      else db' = db /\ events = [].
Proof.
  intros libm fos names model_loaded now form_data db db' response events.
  rewrite detect_threats_outcomes.
  destruct model_loaded; cbn [negb]; [|discriminate].
  destruct (parsed_field fos (form_lat form_data)) as [lat|]; [|discriminate].
  destruct (parsed_field fos (form_lng form_data)) as [lng|]; [|discriminate].
  destruct (form_video form_data) as [[t|video]|]; try discriminate.
  destruct (is_opened video); cbn [negb]; [|discriminate].
  destruct (scan_frames names (frames video) []) as [summary detected] eqn:Hscan.
  destruct detected.
  - destruct (is_nan (lat + 0.005) || is_nan (lng - 0.005)); [discriminate|].
    intros [= <- <- <-]. exists lat, lng, video. cbn [detection_summary threat_detected].
    repeat split; trivial.
    exact (all_threats_of_new_incident db _ _).
  - intros [= <- <- <-]. exists lat, lng, video. cbn [detection_summary threat_detected].
    repeat split; trivial.
Qed.

(** A video whose second frame shows a dog and a person, sent from
    (12.5, 12.5) to the service initialized around the origin. *)
Lemma detect_threats_incident_reaches_planner_witness :
  all_threats_of
    (after (call_detect_threats (fun _ => Some 12.5%float)
              (fun cls => if (cls =? 0)%Z then "person" else "dog")%string true 0
              (mk_form (Some (UploadFile (mk_upload true [[[16]%Z]; [[16; 0]%Z]])))
                       (Some (Text "12.5")) (Some (Text "12.5"))))
       Installation.around_origin)
  = all_threats_of Installation.around_origin ++
    [mk_threat (12.5 + 0.005) (12.5 - 0.005) 500]%float.
Proof.
  pose (r := request
               (detect_threats (fun _ => Some 12.5%float)
                  (fun cls => if (cls =? 0)%Z then "person" else "dog")%string true 0
                  (mk_form (Some (UploadFile (mk_upload true [[[16]%Z]; [[16; 0]%Z]])))
                           (Some (Text "12.5")) (Some (Text "12.5"))))
               Installation.around_origin).
  destruct (detect_threats_incident_reaches_planner
              (fun _ => Some 12.5%float)
              (fun cls => if (cls =? 0)%Z then "person" else "dog")%string true 0%Z
              (mk_form (Some (UploadFile (mk_upload true [[[16]%Z]; [[16; 0]%Z]])))
                       (Some (Text "12.5")) (Some (Text "12.5")))
              Installation.around_origin (snd (fst r))
              (mk_detect_response "Analysis complete. High severity threat detected."
                 [("dog", 2); ("person", 1)]%string%Z true)
              (snd r))
    as (lat & lng & video & Hlat & Hlng & _ & _ & Hthreats).
  - by_computation.
  - cbn [threat_detected] in Hthreats. destruct Hthreats as [Hthreats _].
    cbn [parsed_field form_lat form_lng] in Hlat, Hlng.
    injection Hlat as <-. injection Hlng as <-.
    exact Hthreats.
Defined.

(** *** The detection loop *)

Section ScanProofs.

Variable names : Z -> String.string.

Lemma count_of_count_up (class_name k : String.string) summary :
  count_of class_name (count_up k summary) =
  (count_of class_name summary + if String.eqb k class_name then 1 else 0)%Z.
Proof.
  induction summary as [|[k' n] rest IH]; cbn [count_up count_of].
  - destruct (String.eqb k class_name); lia.
  - destruct (String.eqb k' k) eqn:Hk'; cbn [count_of].
    + apply String.eqb_eq in Hk'. subst k'.
      destruct (String.eqb k class_name); lia.
    + destruct (String.eqb k' class_name) eqn:Hc; [|exact IH].
      apply String.eqb_eq in Hc. subst k'.
      rewrite String.eqb_sym in Hk'. rewrite Hk'. lia.
Qed.

Lemma count_up_keys (k : String.string) summary :
  NoDup (map fst summary) -> NoDup (map fst (count_up k summary)) /\
  forall x, In x (map fst (count_up k summary)) -> x = k \/ In x (map fst summary).
Proof.
  induction summary as [|[k' n] rest IH]; cbn [count_up map fst].
  - intros _. split; [constructor; [intros []|constructor]|]. intros x [<-|[]]. now left.
  - intros Hnd. apply NoDup_cons_iff in Hnd as [Hk' Hnd].
    destruct (String.eqb k' k) eqn:Hk; cbn [map fst].
    + split; [now constructor|]. intros x Hx. now right.
    + destruct (IH Hnd) as [IH1 IH2]. split.
      * constructor; [|exact IH1]. intros Hin. apply IH2 in Hin as [->|Hin]; [|auto].
        now rewrite String.eqb_refl in Hk.
      * intros x [<-|Hx]; [right; now left|].
        apply IH2 in Hx as [->|Hx]; [now left | right; now right].
Qed.

Lemma count_boxes boxes : forall summary class_name,
  count_of class_name
    (fold_left (fun summary cls => count_up (names cls) summary) boxes summary) =
  (count_of class_name summary + boxes_named names class_name boxes)%Z.
Proof.
  unfold boxes_named.
  induction boxes as [|cls rest IH]; intros summary c; cbn [fold_left filter length].
  - cbn. lia.
  - rewrite IH, count_of_count_up.
    destruct (String.eqb (names cls) c); cbn [length]; lia.
Qed.

Lemma count_boxes_keys boxes : forall summary,
  NoDup (map fst summary) ->
  NoDup (map fst (fold_left (fun summary cls => count_up (names cls) summary) boxes summary)).
Proof.
  induction boxes as [|cls rest IH]; intros summary Hnd; cbn [fold_left]; trivial.
  apply IH. now apply count_up_keys.
Qed.

Lemma scan_results_counts results : forall summary,
  NoDup (map fst summary) ->
  snd (scan_results names results summary) = existsb (existsb (Z.eqb 0)) results /\
  NoDup (map fst (fst (scan_results names results summary))) /\
  forall class_name,
    count_of class_name (fst (scan_results names results summary)) =
    (count_of class_name summary + boxes_named names class_name (concat (until_person results)))%Z.
Proof.
  induction results as [|boxes rest IH]; intros summary Hnd;
    cbn [scan_results existsb until_person].
  - cbn [fst snd concat]. repeat split; trivial. intros c. unfold boxes_named. cbn. lia.
  - destruct (existsb (Z.eqb 0) boxes); cbn [fst snd orb].
    + repeat split; [now apply count_boxes_keys|].
      intros c. cbn [concat]. rewrite app_nil_r. apply count_boxes.
    + destruct (IH _ (count_boxes_keys boxes summary Hnd)) as (H1 & H2 & H3).
      repeat split; trivial.
      intros c. rewrite H3, count_boxes. cbn [concat]. unfold boxes_named.
      rewrite filter_app, length_app. lia.
Qed.

Lemma scan_frames_results video : forall summary,
  scan_frames names video summary = scan_results names (concat video) summary.
Proof.
  assert (Happ : forall r1 r2 summary,
            scan_results names (r1 ++ r2) summary =
            if snd (scan_results names r1 summary)
            then (fst (scan_results names r1 summary), true)
            else scan_results names r2 (fst (scan_results names r1 summary))).
  { induction r1 as [|boxes r1 IH]; intros r2 summary; cbn [app scan_results fst snd]; trivial.
    destruct (existsb (Z.eqb 0) boxes); cbn [fst snd]; trivial. }
  induction video as [|results rest IH]; intros summary; cbn [scan_frames concat]; trivial.
  rewrite Happ.
  destruct (scan_results names results summary) as [summary' detected]; cbn [fst snd].
  destruct detected; trivial.
Qed.

End ScanProofs.

(** X15.  The detection loop stops at the first result that has a box of
    class 0: [threat_detected] says whether some result of some frame has
    one, and [detections_summary] has each class name once, with the number
    of boxes of that name in the results up to and including that first
    result; what comes after is not counted. *)
Theorem detection_stops_at_first_person :
  forall (names : Z -> String.string) (video : list (list (list Z)))
         (detections_summary : list (String.string * Z)) (detected : bool),
    scan_frames names video [] = (detections_summary, detected) ->
    detected = existsb (existsb (Z.eqb 0)) (concat video) /\
    NoDup (map fst detections_summary) /\
    forall class_name,
      count_of class_name detections_summary =
      boxes_named names class_name (concat (until_person (concat video))).
Proof.
  intros names video summary detected H.
  rewrite scan_frames_results in H.
  destruct (scan_results_counts names (concat video) [] (NoDup_nil _)) as (H1 & H2 & H3).
  rewrite H in H1, H2, H3. cbn [fst snd] in H1, H2, H3.
  split; [exact H1|]. split; [exact H2|]. intros c. rewrite H3. reflexivity.
Qed.

Lemma detection_stops_at_first_person_witness :
  scan_frames (fun cls => if (cls =? 0)%Z then "person" else "dog")%string
    [[[16; 16]%Z]; [[16; 0]%Z]; [[0; 0; 0]%Z]] []
    = ([("dog", 3); ("person", 1)]%string%Z, true) /\
  count_of "person" [("dog", 3); ("person", 1)]%string%Z = 1%Z.
Proof.
  split; [reflexivity|].
  destruct (detection_stops_at_first_person
              (fun cls => if (cls =? 0)%Z then "person" else "dog")%string
              [[[16; 16]%Z]; [[16; 0]%Z]; [[0; 0; 0]%Z]]
              [("dog", 3); ("person", 1)]%string%Z true eq_refl) as (_ & _ & H).
  exact (H "person"%string).
Defined.

(** ** The databases the service can reach *)

Lemma message_outcomes (now : Z) (sid data : String.string) (db : database) :
  request (message now sid data) db =
  (Return tt,
   set_messages db
     (mk_table
        (rows (messages db) ++
         [mk_message_row (autoincrement (messages db) + 1) sid data now])
        (autoincrement (messages db) + 1)),
   [message_event sid data]).
Proof. reflexivity. Qed.

Lemma stored_value_number x : is_nan x = false -> is_nan (stored_value x) = false.
Proof. unfold stored_value. intros H. now destruct (x =? 0)%float. Qed.

Lemma after_changes {libm : Libm} (c : call) (db : database) : changes db (after c db).
Proof.
  destruct c as [location|req|now sid data|now sid data|fos names model_loaded now form_data];
    cbn [after].
  - pose proof (initialize_scenario_outcomes location db) as H. cbv zeta in H.
    destruct (is_nan (fst location)) eqn:Hlat; cbn [orb] in H.
    { destruct H as [m ->]. constructor. }
    destruct (is_nan (snd location)) eqn:Hlng.
    { destruct H as [m ->]. constructor. }
    rewrite H. cbn [fst snd].
    apply (changes_scenario db
             (mk_zone_row _ _ _ 800 8) (mk_zone_row _ _ _ 600 10));
      cbn [zone_id zone_lat zone_lng zone_radius]; trivial;
      apply stored_value_number.
    + now apply (b64_add_finite_not_nan _ 0.02 _ _ _ eq_refl).
    + now apply (b64_add_finite_not_nan _ 0.01 _ _ _ eq_refl).
    + now apply (b64_sub_finite_not_nan _ 0.01 _ _ _ eq_refl).
    + now apply (b64_sub_finite_not_nan _ 0.015 _ _ _ eq_refl).
  - pose proof (create_convoy_outcomes req db) as H. cbv zeta in H.
    destruct (plan64 (req_start req) (req_end req) (all_threats_of db)) as [route|e] eqn:Hplan.
    + destruct (existsb nan_point route).
      * destruct H as [m ->]. cbn [fst snd].
        pose proof (changes_convoy db
                      (mk_convoy_row (autoincrement (convoys db) + 1) (req_name req)
                                     "In-Progress") [] eq_refl (or_introl eq_refl)) as Hc.
        cbn [convoy_id waypoint_rows length Z.of_nat] in Hc.
        rewrite app_nil_r, Z.add_0_r, table_eta in Hc.
        unfold set_waypoints in Hc. cbn [set_convoys threat_zones incidents convoys messages waypoints] in Hc.
        exact Hc.
      * rewrite H. cbn [fst snd].
        apply (changes_convoy db
                 (mk_convoy_row (autoincrement (convoys db) + 1) (req_name req) "In-Progress")
                 route eq_refl).
        right. apply plan_shape in Hplan as [->|[w ->]]; auto.
    + rewrite H. constructor.
  - rewrite message_outcomes. cbn [fst snd].
    exact (changes_message db (mk_message_row _ sid data now) eq_refl).
  - rewrite sos_outcomes.
    destruct (fits_int64 (sos_intensity data)); cbn [negb]; [|constructor].
    destruct (is_nan (sos_lat data)) eqn:Hlat; [constructor|].
    destruct (is_nan (sos_lng data)) eqn:Hlng; [constructor|].
    cbn [fst snd].
    apply (changes_incident db (mk_incident_row _ _ _ _ _ _) eq_refl);
      cbn [incident_lat incident_lng]; now apply stored_value_number.
  - rewrite detect_threats_outcomes.
    destruct model_loaded; cbn [negb]; [|constructor].
    destruct (parsed_field fos (form_lat form_data)) as [lat|]; [|constructor].
    destruct (parsed_field fos (form_lng form_data)) as [lng|]; [|constructor].
    destruct (form_video form_data) as [[t|video]|]; try constructor.
    destruct (is_opened video); cbn [negb]; [|constructor].
    destruct (scan_frames names (frames video) []) as [summary detected].
    destruct detected; [|constructor].
    destruct (is_nan (lat + 0.005)) eqn:Hlat; [constructor|].
    destruct (is_nan (lng - 0.005)) eqn:Hlng; [constructor|].
    cbn [orb fst snd].
    apply (changes_incident db (mk_incident_row _ _ _ _ _ _) eq_refl);
      cbn [incident_lat incident_lng]; now apply stored_value_number.
Qed.

(** *** Keys *)

Lemma sorted_snoc (l : list Z) (x : Z) :
  StronglySorted Z.lt l -> Forall (fun y => (y < x)%Z) l -> StronglySorted Z.lt (l ++ [x]).
Proof.
  induction l as [|y l IH]; intros Hs Hlt; cbn [app].
  - constructor; constructor.
  - apply StronglySorted_inv in Hs as [Hs Hy]. apply Forall_cons_iff in Hlt as [Hyx Hlt].
    constructor; [now apply IH|].
    apply Forall_app. split; [exact Hy|]. constructor; [exact Hyx | constructor].
Qed.

Lemma keys_ascend_snoc {row : Type} (id : row -> Z) (t : table row) (r : row) :
  id r = (autoincrement t + 1)%Z ->
  keys_ascend id t -> keys_ascend id (mk_table (rows t ++ [r]) (id r)).
Proof.
  intros Hid (Hs & Hb & Hpos). split; [|split]; cbn [rows autoincrement].
  - rewrite map_app. cbn [map]. apply sorted_snoc; [exact Hs|].
    apply Forall_map. revert Hb. apply Forall_impl. intros x Hx. lia.
  - apply Forall_app. split.
    + revert Hb. apply Forall_impl. intros x Hx. lia.
    + constructor; [lia | constructor].
  - lia.
Qed.

Lemma keys_ascend_waypoint_rows (convoy_id : Z) route : forall rows0 a i,
  keys_ascend waypoint_id (mk_table rows0 a) ->
  keys_ascend waypoint_id
    (mk_table (rows0 ++ waypoint_rows convoy_id (a + 1) i route) (a + Z.of_nat (length route))).
Proof.
  induction route as [|p rest IH]; intros rows0 a i H; cbn [waypoint_rows length].
  - now rewrite app_nil_r, Z.add_0_r.
  - pose proof (keys_ascend_snoc waypoint_id (mk_table rows0 a)
                  (mk_waypoint_row (a + 1) convoy_id (stored_value (fst p))
                                   (stored_value (snd p)) i) eq_refl H) as H1.
    cbn [rows autoincrement waypoint_id] in H1.
    specialize (IH _ _ (i + 1)%Z H1).
    rewrite <- app_assoc in IH. cbn [app] in IH.
    replace (a + 1 + Z.of_nat (length rest))%Z with (a + Z.of_nat (S (length rest)))%Z
      in IH by lia.
    exact IH.
Qed.

Lemma waypoint_rows_convoy convoy_id next_id i route w :
  In w (waypoint_rows convoy_id next_id i route) -> waypoint_convoy_id w = convoy_id.
Proof.
  revert next_id i. induction route as [|p rest IH]; intros n i; cbn [waypoint_rows].
  - intros [].
  - intros [<-|H]; [reflexivity | now apply (IH _ _ H)].
Qed.

Lemma waypoint_rows_sequence convoy_id route : forall next_id i,
  map waypoint_sequence (waypoint_rows convoy_id next_id i route) =
  map (fun k => (i + Z.of_nat k)%Z) (seq 0 (length route)).
Proof.
  induction route as [|p rest IH]; intros n i; cbn [waypoint_rows length seq map]; trivial.
  rewrite Z.add_0_r. f_equal. rewrite IH, <- seq_shift, map_map.
  apply map_ext. intros k. lia.
Qed.

Lemma keys_ascend_In {row : Type} (id : row -> Z) (t : table row) r :
  keys_ascend id t -> In r (rows t) -> (0 < id r <= autoincrement t)%Z.
Proof. intros (_ & Hb & _) Hin. rewrite Forall_forall in Hb. now apply Hb. Qed.

Lemma filter_none {A : Type} (f : A -> bool) (l : list A) :
  (forall x, In x l -> f x = false) -> filter f l = [].
Proof.
  induction l as [|x l IH]; intros H; cbn [filter]; trivial.
  rewrite (H x) by now left. apply IH. intros y Hy. apply H. now right.
Qed.

Lemma filter_all {A : Type} (f : A -> bool) (l : list A) :
  (forall x, In x l -> f x = true) -> filter f l = l.
Proof.
  induction l as [|x l IH]; intros H; cbn [filter]; trivial.
  rewrite (H x) by now left. f_equal. apply IH. intros y Hy. apply H. now right.
Qed.

Lemma consistent_changes (db db' : database) :
  changes db db' -> consistent db -> consistent db'.
Proof.
  intros Hch (Hz & Hi & Hc & Hw & Hm & Href & Hseq).
  destruct Hch as [|r1 r2 H1 H2 _ _ _ _ _ _|r Hid _ _|r Hid|r route Hid Hroute].
  - refine (conj Hz (conj Hi (conj Hc (conj Hw (conj Hm (conj Href Hseq)))))).
  - destruct Hz as (_ & _ & Hpos). destruct Hi as (_ & _ & Hipos).
    refine (conj _ (conj _ (conj Hc (conj Hw (conj Hm (conj Href Hseq)))))).
    + split; [|split]; cbn [threat_zones rows autoincrement map].
      * repeat constructor. lia.
      * repeat constructor; lia.
      * lia.
    + split; [|split]; cbn [incidents rows autoincrement map];
        [constructor | constructor | exact Hipos].
  - refine (conj Hz (conj _ (conj Hc (conj Hw (conj Hm (conj Href Hseq)))))).
    exact (keys_ascend_snoc incident_id (incidents db) r Hid Hi).
  - refine (conj Hz (conj Hi (conj Hc (conj Hw (conj _ (conj Href Hseq)))))).
    exact (keys_ascend_snoc message_id (messages db) r Hid Hm).
  - assert (Hold : forall w, In w (rows (waypoints db)) ->
              (waypoint_convoy_id w =? convoy_id r)%Z = false).
    { intros w Hin. destruct (Href w Hin) as (c & Hcin & <-).
      pose proof (keys_ascend_In _ _ _ Hc Hcin). apply Z.eqb_neq. lia. }
    refine (conj Hz (conj Hi (conj _ (conj _ (conj Hm (conj _ _)))))).
    + exact (keys_ascend_snoc convoy_id (convoys db) r Hid Hc).
    + cbn [set_waypoints waypoints]. apply keys_ascend_waypoint_rows. now rewrite table_eta.
    + cbn [set_waypoints set_convoys waypoints convoys rows].
      intros w Hin. apply in_app_or in Hin as [Hin|Hin].
      * destruct (Href w Hin) as (c & Hcin & Hcid). exists c.
        split; [apply in_or_app; now left | exact Hcid].
      * exists r. split; [apply in_or_app; right; now left|].
        symmetry. exact (waypoint_rows_convoy _ _ _ _ _ Hin).
    + unfold sequence_of in *.
      cbn [set_waypoints set_convoys waypoints convoys rows].
      intros c Hin. rewrite filter_app, map_app.
      apply in_app_or in Hin as [Hin|[<-|[]]].
      * rewrite (filter_none _ (waypoint_rows _ _ _ _)), app_nil_r; [exact (Hseq c Hin)|].
        intros w Hw'. rewrite (waypoint_rows_convoy _ _ _ _ _ Hw').
        pose proof (keys_ascend_In _ _ _ Hc Hin). apply Z.eqb_neq. lia.
      * rewrite (filter_none _ (rows (waypoints db)) Hold). cbn [app].
        rewrite filter_all.
        -- rewrite waypoint_rows_sequence.
           destruct Hroute as [->|[Hlen|Hlen]]; [now left| |]; rewrite Hlen; auto.
        -- intros w Hw'. rewrite (waypoint_rows_convoy _ _ _ _ _ Hw'). apply Z.eqb_refl.
Qed.

Lemma keys_ascend_empty {row : Type} (id : row -> Z) :
  keys_ascend id (mk_table (@nil row) 0).
Proof. split; [constructor | split; [constructor | cbn; lia]]. Qed.

Lemma consistent_startup : consistent (startup_event None).
Proof.
  refine (conj (keys_ascend_empty _) (conj (keys_ascend_empty _) (conj (keys_ascend_empty _)
           (conj (keys_ascend_empty _) (conj (keys_ascend_empty _) (conj _ _)))))).
  - intros w [].
  - intros c [].
Qed.

(** *** What the planner is given *)




(** ** Messages *)

Lemma Permutation_filter_length {A : Type} (f : A -> bool) (l l' : list A) :
  Permutation l l' -> length (filter f l) = length (filter f l').
Proof.
  induction 1 as [|x l l' _ IH|x y l|l l' l'' _ IH1 _ IH2]; cbn [filter].
  - reflexivity.
  - destruct (f x); cbn [length]; congruence.
  - destruct (f x), (f y); reflexivity.
  - congruence.
Qed.

Lemma filter_length_le {A : Type} (f : A -> bool) (l : list A) :
  (length (filter f l) <= length l)%nat.
Proof. induction l as [|x l IH]; cbn [filter length]; [lia|]. destruct (f x); cbn [length]; lia. Qed.

Lemma sorted_split {A : Type} (R : A -> A -> Prop) (l1 : list A) (m : A) (l2 : list A) :
  StronglySorted R (l1 ++ m :: l2) ->
  (forall x, In x l1 -> R x m) /\ (forall x, In x l2 -> R m x).
Proof.
  induction l1 as [|y l1 IH]; cbn [app]; intros H.
  - apply StronglySorted_inv in H as [_ H]. rewrite Forall_forall in H.
    split; [intros x []|exact H].
  - apply StronglySorted_inv in H as [Hs Hy]. rewrite Forall_forall in Hy.
    destruct (IH Hs) as [H1 H2]. split; [|exact H2].
    intros x [<-|Hx]; [|now apply H1]. apply Hy. apply in_or_app. right. now left.
Qed.

Lemma In_firstn_split {A : Type} (n : nat) (l : list A) (m : A) :
  In m (firstn n l) -> exists l1 l2, l = l1 ++ m :: l2 /\ (length l1 < n)%nat.
Proof.
  intros H. apply in_split in H as (l1 & l2 & H).
  exists l1, (l2 ++ skipn n l). split.
  - rewrite <- (firstn_skipn n l) at 1. rewrite H. now rewrite <- app_assoc.
  - assert (Hlen : (length (firstn n l) <= n)%nat) by apply firstn_le_length.
    rewrite H, length_app in Hlen. cbn [length] in Hlen. lia.
Qed.

Lemma firstn_In_split {A : Type} (n : nat) (l1 : list A) (m : A) (l2 : list A) :
  (length l1 < n)%nat -> In m (firstn n (l1 ++ m :: l2)).
Proof.
  intros H. rewrite firstn_app. apply in_or_app.
  destruct (Nat.le_gt_cases n (length l1)) as [Hle|Hgt]; [lia|].
  right. replace (n - length l1)%nat with (S (n - length l1 - 1)) by lia.
  cbn [firstn]. now left.
Qed.

Lemma get_messages_oldest :
  forall (db : database) (response : list message_row),
    get_messages db response ->
    (length response <= 50)%nat /\
    (forall m, In m response -> In m (rows (messages db))) /\
    (forall m, In m (rows (messages db)) ->
       (length (filter (fun x => (message_timestamp x <=? message_timestamp m)%Z)
                       (rows (messages db))) <= 50)%nat ->
       In m response) /\
    (forall m,
       (50 <= length (filter (fun x => (message_timestamp x <? message_timestamp m)%Z)
                             (rows (messages db))))%nat ->
       ~ In m response).
Proof.
  intros db response (result & [Hperm Hsorted] & ->).
  split; [apply firstn_le_length|]. split; [|split].
  - intros m Hm. apply (Permutation_in m (Permutation_sym Hperm)).
    rewrite <- (firstn_skipn 50 result). apply in_or_app. now left.
  - intros m Hm Hcount.
    apply (Permutation_in m Hperm) in Hm. apply in_split in Hm as (l1 & l2 & Hsplit).
    rewrite Hsplit. apply firstn_In_split.
    rewrite (Permutation_filter_length _ _ _ Hperm), Hsplit in Hcount.
    rewrite Hsplit in Hsorted. destruct (sorted_split _ _ _ _ Hsorted) as [Hbefore _].
    rewrite filter_app, length_app in Hcount. cbn [filter] in Hcount.
    rewrite Z.leb_refl in Hcount. cbn [length] in Hcount.
    rewrite (filter_all _ l1) in Hcount; [lia|].
    intros x Hx. apply Z.leb_le. exact (Hbefore x Hx).
  - intros m Hcount Hin.
    apply In_firstn_split in Hin as (l1 & l2 & Hsplit & Hlen).
    rewrite (Permutation_filter_length _ _ _ Hperm), Hsplit in Hcount.
    rewrite Hsplit in Hsorted. destruct (sorted_split _ _ _ _ Hsorted) as [_ Hafter].
    rewrite filter_app, length_app in Hcount. cbn [filter] in Hcount.
    rewrite Z.ltb_irrefl in Hcount.
    rewrite (filter_none _ l2) in Hcount.
    + pose proof (filter_length_le (fun x => (message_timestamp x <? message_timestamp m)%Z) l1).
      cbn [length] in Hcount. lia.
    + intros x Hx. apply Z.ltb_ge. exact (Hafter x Hx).
Qed.

(** X7.  [initialize_scenario] is all or nothing, and fails exactly on a
    NaN.  If a coordinate of the location is a NaN, an [INSERT] violates
    [NOT NULL], the handler raises the [HTTPException] of status 500 and the
    file is as before: the two [DELETE]s are not committed.  Otherwise the
    file holds exactly two zones, at (lat + 0.02, lng + 0.01) with radius 800
    and score 8 and at (lat - 0.01, lng - 0.015) with radius 600 and score 10,
    with new ids; no incident; and the convoys, waypoints and messages it had. *)
Theorem initialize_scenario_all_or_nothing :
  forall (location : point float) (db : database),
    let z := autoincrement (threat_zones db) in
    if is_nan (fst location) || is_nan (snd location) then
      exists message,
        request (initialize_scenario location) db =
        (Exception (HTTPException_about 500 "Could not initialize scenario: "
                      (IntegrityError message)),
         db, [])
    else
      request (initialize_scenario location) db =
      (Return "Scenario initialized successfully"%string,
       mk_database
         (mk_table
            [mk_zone_row (z + 1) (stored_value (fst location + 0.02))
                         (stored_value (snd location + 0.01)) 800 8;
             mk_zone_row (z + 2) (stored_value (fst location - 0.01))
                         (stored_value (snd location - 0.015)) 600 10]
            (z + 2))
         (mk_table [] (autoincrement (incidents db)))
         (convoys db) (waypoints db) (messages db),
       []).
Proof. exact initialize_scenario_outcomes. Qed.

(** X8.  After an [initialize_scenario] that returns, [get_threat_zones]
    answers the two new zones, [get_incidents] answers nothing, and the next
    [create_convoy] hands the planner exactly these two regions, whatever the
    file held before. *)
Theorem initialize_scenario_round_trip :
  forall {libm : Libm} (location : point float) (db db' : database) message events,
    request (initialize_scenario location) db = (Return message, db', events) ->
    let lat1 := stored_value (fst location + 0.02) in
    let lng1 := stored_value (snd location + 0.01) in
    let lat2 := stored_value (fst location - 0.01) in
    let lng2 := stored_value (snd location - 0.015) in
    let z := autoincrement (threat_zones db) in
    request get_threat_zones db' =
      (Return [mk_zone_row (z + 1) lat1 lng1 800 8; mk_zone_row (z + 2) lat2 lng2 600 10],
       db', []) /\
    (forall response, get_incidents db' response -> response = []) /\
    all_threats_of db' = [mk_threat lat1 lng1 800%float; mk_threat lat2 lng2 600%float].
Proof.
  intros libm location db db' message events H.
  pose proof (initialize_scenario_outcomes location db) as Hout. cbv zeta in Hout.
  destruct (is_nan (fst location) || is_nan (snd location)).
  - destruct Hout as [m Hout]. rewrite Hout in H. discriminate.
  - rewrite Hout in H. injection H as _ <- _. cbv zeta.
    split; [reflexivity|]. split; [|reflexivity].
    intros response (result & [Hperm _] & ->).
    cbn [incidents rows] in Hperm. apply Permutation_nil in Hperm. now subst result.
Qed.

Lemma initialize_scenario_round_trip_witness :
  request get_threat_zones Installation.around_origin =
    (Return [mk_zone_row 1 0.02 0.01 800 8; mk_zone_row 2 (-0.01) (-0.015) 600 10],
     Installation.around_origin, []) /\
  all_threats_of Installation.around_origin =
    [mk_threat 0.02 0.01 800; mk_threat (-0.01) (-0.015) 600]%float.
Proof.
  destruct (initialize_scenario_round_trip (0, 0)%float Installation.new_file
              Installation.around_origin "Scenario initialized successfully" [] eq_refl)
    as (H1 & _ & H2).
  split; [exact H1 | exact H2].
Defined.

(** X9.  The planner runs before the first [INSERT] of [create_convoy]:
    when it raises (which it only does with [OverflowError]), the exception
    leaves the handler, the file is as before and nothing is emitted. *)
Theorem create_convoy_writes_nothing_when_planning_fails :
  forall {libm : Libm} (req : ConvoyRequest) (db : database) (e : exn),
    plan64 (req_start req) (req_end req) (all_threats_of db) = Raise e ->
    e = OverflowError /\
    request (create_convoy req) db = (Exception (PyError e), db, []).
Proof.
  intros libm req db e H.
  split; [exact (benign_plan _ _ _ e H)|].
  pose proof (create_convoy_outcomes req db) as Hout. cbv zeta in Hout.
  unfold plan64 in *. now rewrite H in Hout.
Qed.

Lemma create_convoy_writes_nothing_when_planning_fails_witness :
  OverflowError = OverflowError /\
  request (create_convoy Installation.from_far) Installation.around_origin =
  (Exception (PyError OverflowError), Installation.around_origin, []).
Proof.
  apply (create_convoy_writes_nothing_when_planning_fails
           Installation.from_far Installation.around_origin OverflowError).
  by_computation.
Defined.

(** X10.  When [create_convoy] returns: the route of the response is the
    planner's route for the stored regions, from the requested start to the
    requested end with at most one waypoint between; the convoy has a new id
    and status 'In-Progress'; the waypoints added are the points of the
    route in order, numbered from 0, under that id; zones, incidents and
    messages are untouched; and one 'convoy_update' with the same id, name
    and route is emitted. *)
Theorem create_convoy_stores_the_route :
  forall {libm : Libm} (req : ConvoyRequest) (db db' : database) (response : convoy_response)
         (events : list event),
    request (create_convoy req) db = (Return response, db', events) ->
    let route_points := response_route response in
    let convoy_id := response_convoy_id response in
    plan64 (req_start req) (req_end req) (all_threats_of db) = Ok route_points /\
    (route_points = [req_start req; req_end req] \/
     exists waypoint_1, route_points = [req_start req; waypoint_1; req_end req]) /\
    convoy_id = (autoincrement (convoys db) + 1)%Z /\
    response_name response = req_name req /\
    rows (convoys db') =
      rows (convoys db) ++ [mk_convoy_row convoy_id (req_name req) "In-Progress"] /\
    rows (waypoints db') =
      rows (waypoints db) ++
      waypoint_rows convoy_id (autoincrement (waypoints db) + 1) 0 route_points /\
    threat_zones db' = threat_zones db /\ incidents db' = incidents db /\
    messages db' = messages db /\
    events = [convoy_update convoy_id (req_name req) route_points].
Proof.
  intros libm req db db' response events H.
  pose proof (create_convoy_outcomes req db) as Hout. cbv zeta in Hout.
  destruct (plan64 (req_start req) (req_end req) (all_threats_of db)) as [route|e] eqn:Hplan.
  - destruct (existsb nan_point route).
    + destruct Hout as [m Hout]. rewrite Hout in H. discriminate.
    + rewrite Hout in H. injection H as <- <- <-. cbv zeta.
      cbn [response_route response_convoy_id response_name set_waypoints set_convoys
           threat_zones incidents convoys waypoints messages rows].
      split; [reflexivity|]. split; [exact (plan_shape _ _ _ _ Hplan)|].
      repeat split; reflexivity.
  - rewrite Hout in H. discriminate.
Qed.

Lemma create_convoy_stores_the_route_witness :
  exists waypoint_1 db',
    request (create_convoy Installation.through_zone) Installation.around_origin =
    (Return (mk_convoy_response 1 "alpha" [(0.02, -0.1)%float; waypoint_1; (0.02, 0.1)%float]),
     db',
     [convoy_update 1 "alpha" [(0.02, -0.1)%float; waypoint_1; (0.02, 0.1)%float]]) /\
    map waypoint_sequence (rows (waypoints db')) = [0; 1; 2]%Z /\
    map waypoint_convoy_id (rows (waypoints db')) = [1; 1; 1]%Z.
Proof.
  pose (r := request (create_convoy Installation.through_zone) Installation.around_origin).
  pose (response := match fst (fst r) with
                    | Return a => a
                    | Exception _ => mk_convoy_response 0 "" []
                    end).
  assert (Hr : request (create_convoy Installation.through_zone) Installation.around_origin
               = (Return response, snd (fst r), snd r)) by by_computation.
  destruct (create_convoy_stores_the_route _ _ _ _ _ Hr)
    as (_ & Hshape & Hid & Hname & _ & Hrows & _ & _ & _ & Hevents).
  destruct Hshape as [Hshape|[w Hshape]].
  - exfalso. revert Hshape.
    assert (Hlen : length (response_route response) = 3%nat) by by_computation.
    intros Hshape. rewrite Hshape in Hlen. discriminate Hlen.
  - exists w, (snd (fst r)).
    assert (Hresp : response = mk_convoy_response 1 "alpha" [(0.02, -0.1)%float; w; (0.02, 0.1)%float]).
    { destruct response as [cid nm rt]. cbn [response_route response_convoy_id response_name] in *.
      subst cid nm rt. reflexivity. }
    split.
    + rewrite Hr, Hresp. f_equal. rewrite Hevents, Hresp. reflexivity.
    + rewrite Hrows, Hresp. split; reflexivity.
Defined.




(** X16.  In every database that the service reaches from a new file: in
    each table the ids ascend with the rows (no id twice) and lie within
    what [AUTOINCREMENT] has handed out; every waypoint belongs to a stored
    convoy, though SQLite is not asked to enforce the foreign key; and the
    waypoints of a convoy are none, or two numbered 0, 1, or three numbered
    0, 1, 2, in this order. *)
Theorem reachable_consistent :
  forall {libm : Libm} (db : database), reachable db -> consistent db.
Proof.
  induction 1 as [|c db _ IH]; [apply consistent_startup|].
  exact (consistent_changes db _ (after_changes c db) IH).
Qed.

Lemma reachable_consistent_witness :
  consistent
    (after (call_create_convoy Installation.through_zone)
       (after (call_create_convoy Installation.from_nowhere) Installation.around_origin)).
Proof.
  apply reachable_consistent.
  do 3 apply reachable_after. apply reachable_startup.
Defined.



(** X18.  [get_messages] answers at most 50 stored messages, and the oldest
    ones: a message is in the answer if at most 50 stored messages are as old
    or older (itself included), and is not in it if 50 stored messages are
    strictly older, however SQLite orders messages of the same second. *)
Theorem get_messages_keeps_the_oldest :
  forall (db : database) (response : list message_row),
    get_messages db response ->
    (length response <= 50)%nat /\
    (forall m, In m response -> In m (rows (messages db))) /\
    (forall m, In m (rows (messages db)) ->
       (length (filter (fun x => (message_timestamp x <=? message_timestamp m)%Z)
                       (rows (messages db))) <= 50)%nat ->
       In m response) /\
    (forall m,
       (50 <= length (filter (fun x => (message_timestamp x <? message_timestamp m)%Z)
                             (rows (messages db))))%nat ->
       ~ In m response).
Proof. exact get_messages_oldest. Qed.

(** After 51 messages, one a second: the answer is the first 50 of them; the
    first message is in it, the last is not. *)
Lemma get_messages_keeps_the_oldest_witness :
  length (rows (messages (Installation.chatter 51))) = 51%nat /\
  get_messages (Installation.chatter 51)
    (firstn 50 (rows (messages (Installation.chatter 51)))) /\
  length (firstn 50 (rows (messages (Installation.chatter 51)))) = 50%nat /\
  In (mk_message_row 1 "sid" "hello" 1)
     (firstn 50 (rows (messages (Installation.chatter 51)))) /\
  ~ In (mk_message_row 51 "sid" "hello" 51)
       (firstn 50 (rows (messages (Installation.chatter 51)))).
Proof.
  assert (Hget : get_messages (Installation.chatter 51)
                   (firstn 50 (rows (messages (Installation.chatter 51))))).
  { exists (rows (messages (Installation.chatter 51))). split; [|reflexivity].
    split; [apply Permutation_refl|].
    vm_compute.
    repeat first [apply SSorted_nil | apply SSorted_cons | apply Forall_nil | apply Forall_cons];
      intros Hgt; discriminate Hgt. }
  destruct (get_messages_keeps_the_oldest _ _ Hget) as (_ & _ & Hin & Hout).
  split; [by_computation|]. split; [exact Hget|]. split; [by_computation|]. split.
  - apply Hin.
    + vm_compute. left. reflexivity.
    + vm_compute. repeat constructor.
  - apply Hout. vm_compute. apply le_n.
Defined.

(** X19.  A 'message' is stored with the next id and emitted back.  It
    shows in [get_messages] while fewer than 50 messages were stored before
    it; once 50 strictly older messages are stored, it never shows. *)
Theorem message_round_trip :
  forall (now : Z) (sid data : String.string) (db : database),
    let m := mk_message_row (autoincrement (messages db) + 1) sid data now in
    let db' := set_messages db (mk_table (rows (messages db) ++ [m])
                                         (autoincrement (messages db) + 1)) in
    request (message now sid data) db = (Return tt, db', [message_event sid data]) /\
    ((length (rows (messages db)) < 50)%nat ->
     forall response, get_messages db' response -> In m response) /\
    ((50 <= length (filter (fun x => (message_timestamp x <? now)%Z) (rows (messages db))))%nat ->
     forall response, get_messages db' response -> ~ In m response).
Proof.
  intros now sid data db m db'. split; [reflexivity|]. split.
  - intros Hlen response Hget.
    destruct (get_messages_oldest db' response Hget) as (_ & _ & Hin & _).
    apply Hin.
    + cbn [db' set_messages messages rows]. apply in_or_app. right. now left.
    + pose proof (filter_length_le
                    (fun x => (message_timestamp x <=? message_timestamp m)%Z)
                    (rows (messages db'))) as Hle.
      cbn [db' set_messages messages rows] in *. rewrite length_app in Hle.
      cbn [length] in Hle. lia.
  - intros Hcount response Hget.
    destruct (get_messages_oldest db' response Hget) as (_ & _ & _ & Hout).
    apply Hout. cbn [db' set_messages messages rows m message_timestamp].
    rewrite filter_app, length_app. lia.
Qed.
